(** * Cognitive-Cue: the trial generator, the presentation loop, response
    capture and the scorer of the [ExperimentTask] component.

    The development follows the later revision of the component (the one
    with [pmCueFalseAlarms] and the 1-back scoring).  JavaScript values are
    embedded as follows: strings are [string], array indices and counters
    are [nat], keys of the [responses] object are [Z] (the trial index starts
    at [-1]), the [responses] object is a [gmap Z (list string)], arrays are
    lists read with stdpp's lookup. *)

From Stdlib Require Import ZArith List Bool Ascii String Lia SpecFloat.
From stdpp Require Import base option list gmap strings pretty.

Import ListNotations.
#[local] Set Warnings "-clear-no-such-hyp".
Local Open Scope string_scope.
Local Open Scope list_scope.
Local Open Scope nat_scope.

(** ** Data model *)

(** [type SessionType = 'pleasant' | 'neutral' | 'unpleasant'] *)
Inductive SessionType := pleasant | neutral | unpleasant.

(** [type ExperimentPhase = 'pmCue' | 'trial' | 'blockEnd' | 'pmCueTransitionToTrial'] *)
Inductive ExperimentPhase :=
  phasePMCue | phaseTrial | phaseBlockEnd | phasePMCueTransitionToTrial.

(** The objects built by [generatePMCuesByBlock] and by [regularImages]. *)
Record Trial := mkTrial {
  id : string;
  type : SessionType;
  isPMCue : bool;
  src : string
}.

(** The object returned by [evaluateBlockPerformance]. *)
Record BlockResult := mkBlockResult {
  nBackCorrect : nat;
  nBackMissed : nat;
  nBackFalseAlarms : nat;
  pmCueCorrect : nat;
  pmCueMissed : nat;
  pmCueFalseAlarms : nat;
  totalImages : nat;
  totalPMCues : nat;
  totalNBackMatches : nat
}.

(** [arr[i]?.isPMCue] as a condition: [undefined] is falsy. *)
Definition cueAt (arr : list Trial) (i : nat) : bool :=
  match arr !! i with
  | Some t => isPMCue t
  | None => false
  end.

(** ** JavaScript array helpers *)

Module JS.

(** [arr.includes(key)] on an array of strings. *)
Definition includes (arr : list string) (key : string) : bool :=
  existsb (String.eqb key) arr.

(** [arr.filter((x, index) => p(x, index))], started at index [i]. *)
Fixpoint filteri_from {A} (p : A -> nat -> bool) (arr : list A) (i : nat) : list A :=
  match arr with
  | [] => []
  | x :: rest =>
      if p x i then x :: filteri_from p rest (S i) else filteri_from p rest (S i)
  end.

Definition filteri {A} (p : A -> nat -> bool) (arr : list A) : list A :=
  filteri_from p arr 0.

(** [arr.splice(pos, 0, x)]: [pos] is clamped to the length. *)
Definition splice_insert {A} (arr : list A) (pos : nat) (x : A) : list A :=
  firstn pos arr ++ x :: skipn pos arr.

(** [arr.findIndex(p)]: the first index whose element satisfies [p],
    [-1] when there is none. *)
Fixpoint findIndex_from {A} (p : A -> bool) (arr : list A) (i : Z) : Z :=
  match arr with
  | [] => (-1)%Z
  | x :: rest => if p x then i else findIndex_from p rest (i + 1)%Z
  end.

Definition findIndex {A} (p : A -> bool) (arr : list A) : Z :=
  findIndex_from p arr 0%Z.

(** *** Strings

    A string is the sequence of its UTF-8 bytes, as a string literal of
    this file is.  The characters of ASCII are the bytes below 128, and a
    string of ASCII characters is the same sequence of code units in
    JavaScript. *)
Definition isAscii (c : ascii) : bool := nat_of_ascii c <? 128.

(** The lower-case form of a character of ASCII: the letters A to Z are
    its cased characters. *)
Definition lowerAscii (c : ascii) : ascii :=
  let n := nat_of_ascii c in
  if (65 <=? n) && (n <=? 90) then ascii_of_nat (n + 32) else c.

(** [s.toLowerCase()] for a string of ASCII characters, where the method
    lowers the letters A to Z and leaves every other character as it is.
    The lower-case form of a character outside ASCII is given by the
    Unicode tables, which this development does not have: a string with
    such a character gets no result here. *)
Fixpoint toLowerCase (s : string) : option string :=
  match s with
  | EmptyString => Some EmptyString
  | String c rest =>
      if isAscii c then
        match toLowerCase rest with
        | Some lowered => Some (String (lowerAscii c) lowered)
        | None => None
        end
      else None
  end.

(** *** Numbers

    A JavaScript number is an IEEE 754 binary64 value: [spec_float] with
    precision 53 and maximal exponent 1024, rounded to nearest, ties to
    even, which is what [SFdiv] and [SFmul] compute. *)
Definition number := spec_float.

(** A counter used as a number; integers below [2^53] are exact. *)
Definition ofNat (n : nat) : number := binary_normalize 53 1024 (Z.of_nat n) 0 false.

Definition div (x y : number) : number := SFdiv 53 1024 x y.
Definition mul (x y : number) : number := SFmul 53 1024 x y.

(** The integer [n] for which [n / 100 - m * 2^e] is closest to zero, the
    larger one of two ([Number.prototype.toFixed], step 8.a). *)
Definition hundredths (m : positive) (e : Z) : Z :=
  if (0 <=? e)%Z then (Z.pos m * 2 ^ e * 100)%Z
  else ((200 * Z.pos m + 2 ^ (- e)) / 2 ^ (1 - e))%Z.

(** The digits of [n] with a point before the last two, zero-padded to at
    least three digits (steps 8.b and 8.c for [fractionDigits = 2]). *)
Definition twoDecimals (n : Z) : string :=
  pretty (n / 100)%Z +:+ "." +:+ pretty (n mod 100 / 10)%Z +:+ pretty (n mod 10)%Z.

(** [x.toFixed(2)] for numbers below [10^21] in magnitude (above, the
    method switches to the exponent notation of [ToString]; a percentage
    never gets there). *)
Definition toFixed2 (x : number) : string :=
  match x with
  | S754_zero _ => "0.00"
  | S754_nan => "NaN"
  | S754_infinity false => "Infinity"
  | S754_infinity true => "-Infinity"
  | S754_finite false m e => twoDecimals (hundredths m e)
  | S754_finite true m e => "-" +:+ twoDecimals (hundredths m e)
  end.

End JS.

(** ** The two counts the generator logs and the scorer reports *)

(** [trials.filter((trial, index) => index > 0 && trial.id === trials[index - 1].id).length] *)
Definition adjacentRepeats (trials : list Trial) : nat :=
  length (JS.filteri (fun t index =>
            (0 <? index) &&
            match trials !! (index - 1) with
            | Some p => String.eqb (id t) (id p)
            | None => false
            end) trials).

(** [trials.filter(trial => trial.isPMCue).length] *)
Definition pmCueCount (trials : list Trial) : nat :=
  length (List.filter (fun t => isPMCue t) trials).

(** ** The objects the scorer can reach

    [evaluateBlockPerformance] closes over the [trials] array and the
    [responses] object of the component.  Both are JavaScript objects that a
    callee could change in place, so the scorer is written in a state monad
    over this store and the store it leaves is part of its result. *)

Record Store := mkStore {
  st_trials : list Trial;
  st_responses : gmap Z (list string)
}.

Definition M (A : Type) : Type := Store -> A * Store.

Definition ret {A} (a : A) : M A := fun s => (a, s).

Definition bind {A B} (m : M A) (k : A -> M B) : M B :=
  fun s => let (a, s') := m s in k a s'.

Notation "'let*' x ':=' m 'in' k" := (bind m (fun x => k))
  (at level 10, x name, m at level 200, k at level 200, only parsing).

(** [trials] (the whole array, as [filter] and [forEach] traverse it). *)
Definition read_trials : M (list Trial) := fun s => (st_trials s, s).

(** [trials[i]] *)
Definition read_trial (i : nat) : M (option Trial) :=
  fun s => (st_trials s !! i, s).

(** [responses[index] || []]: an array, even an empty one, is truthy. *)
Definition read_responses (index : nat) : M (list string) :=
  fun s => (default [] (st_responses s !! Z.of_nat index), s).

(** In-place updates a JavaScript callee has at its disposal
    ([trials.splice], [delete responses[i]], [responses[i].push]). *)
Definition write_trials (ts : list Trial) : M unit :=
  fun s => (tt, mkStore ts (st_responses s)).

Definition write_responses (r : gmap Z (list string)) : M unit :=
  fun s => (tt, mkStore (st_trials s) r).

(** [arr.forEach((x, index) => body)], the locals the body updates being
    threaded as [acc]. *)
Fixpoint forEach_from {A Acc} (body : Acc -> A -> nat -> M Acc)
    (arr : list A) (index : nat) (acc : Acc) : M Acc :=
  match arr with
  | [] => ret acc
  | x :: rest =>
      let* acc' := body acc x index in forEach_from body rest (S index) acc'
  end.

(** ** The scorer *)

(** The six [let] counters of [evaluateBlockPerformance]. *)
Record Counters := mkCounters {
  c_nBackCorrect : nat;
  c_nBackMissed : nat;
  c_nBackFalseAlarms : nat;
  c_pmCueCorrect : nat;
  c_pmCueMissed : nat;
  c_pmCueFalseAlarms : nat
}.

Definition zeroCounters : Counters := mkCounters 0 0 0 0 0 0.

(** [isOneBackMatch(index)] *)
Definition isOneBackMatch (trials : list Trial) (index : Z) : bool :=
  if (index <=? 0)%Z || (Z.of_nat (length trials) <=? index)%Z then false
  else
    match trials !! Z.to_nat index, trials !! Z.to_nat (index - 1) with
    | Some t, Some p => String.eqb (id t) (id p)
    | _, _ => false
    end.

(** The n-back part of the callback of [trials.forEach]. *)
Definition scoreNBack (c : Counters) (trial : Trial) (index : nat)
    (trialResponses : list string) : M Counters :=
  if 0 <? index then
    let* prev := read_trial (index - 1) in
    match prev with
    | Some p =>
        let isNBackMatch := String.eqb (id trial) (id p) in
        if isNBackMatch then
          if JS.includes trialResponses "n" then
            ret (mkCounters (S (c_nBackCorrect c)) (c_nBackMissed c) (c_nBackFalseAlarms c)
                   (c_pmCueCorrect c) (c_pmCueMissed c) (c_pmCueFalseAlarms c))
          else
            ret (mkCounters (c_nBackCorrect c) (S (c_nBackMissed c)) (c_nBackFalseAlarms c)
                   (c_pmCueCorrect c) (c_pmCueMissed c) (c_pmCueFalseAlarms c))
        else if JS.includes trialResponses "n" then
          ret (mkCounters (c_nBackCorrect c) (c_nBackMissed c) (S (c_nBackFalseAlarms c))
                 (c_pmCueCorrect c) (c_pmCueMissed c) (c_pmCueFalseAlarms c))
        else ret c
    | None => ret c (* [trials[index - 1]] exists for [0 < index < length] *)
    end
  else ret c.

(** The PM-cue part of the callback. *)
Definition scorePMCue (c : Counters) (trial : Trial)
    (trialResponses : list string) : Counters :=
  if isPMCue trial then
    if JS.includes trialResponses "z" then
      mkCounters (c_nBackCorrect c) (c_nBackMissed c) (c_nBackFalseAlarms c)
        (S (c_pmCueCorrect c)) (c_pmCueMissed c) (c_pmCueFalseAlarms c)
    else
      mkCounters (c_nBackCorrect c) (c_nBackMissed c) (c_nBackFalseAlarms c)
        (c_pmCueCorrect c) (S (c_pmCueMissed c)) (c_pmCueFalseAlarms c)
  else
    if JS.includes trialResponses "z" then
      mkCounters (c_nBackCorrect c) (c_nBackMissed c) (c_nBackFalseAlarms c)
        (c_pmCueCorrect c) (c_pmCueMissed c) (S (c_pmCueFalseAlarms c))
    else c.

(** The callback of [trials.forEach((trial, index) => ...)]. *)
Definition scoreTrial (c : Counters) (trial : Trial) (index : nat) : M Counters :=
  let* trialResponses := read_responses index in
  let* c1 := scoreNBack c trial index trialResponses in
  ret (scorePMCue c1 trial trialResponses).

(** [evaluateBlockPerformance()] *)
Definition evaluateBlockPerformance : M BlockResult :=
  let* trials0 := read_trials in
  let totalImages := length (List.filter (fun t => negb (isPMCue t)) trials0) in
  let* trials1 := read_trials in
  let totalPMCues := length (List.filter (fun t => isPMCue t) trials1) in
  let* trials2 := read_trials in
  let totalNBackMatches :=
    length (JS.filteri (fun t index =>
              (0 <? index) &&
              match trials2 !! (index - 1) with
              | Some p => String.eqb (id t) (id p)
              | None => false
              end) trials2) in
  let* trials3 := read_trials in
  let* c := forEach_from scoreTrial trials3 0 zeroCounters in
  ret (mkBlockResult (c_nBackCorrect c) (c_nBackMissed c) (c_nBackFalseAlarms c)
         (c_pmCueCorrect c) (c_pmCueMissed c) (c_pmCueFalseAlarms c)
         totalImages totalPMCues totalNBackMatches).

(** ** The final results *)

(** The [sessionResults] object: one [blocks] array per session, the keys
    in the order of the initial object literal. *)
Record SessionResults := mkSessionResults {
  sr_pleasant : list BlockResult;
  sr_unpleasant : list BlockResult;
  sr_neutral : list BlockResult
}.

(** [sessionResults[session].blocks] *)
Definition blocksOf (r : SessionResults) (session : SessionType) : list BlockResult :=
  match session with
  | pleasant => sr_pleasant r
  | unpleasant => sr_unpleasant r
  | neutral => sr_neutral r
  end.

(** [{ ...prev, [session]: { blocks: [...prev[session].blocks, b] } }] *)
Definition appendBlock (prev : SessionResults) (session : SessionType)
    (b : BlockResult) : SessionResults :=
  match session with
  | pleasant => mkSessionResults (sr_pleasant prev ++ [b]) (sr_unpleasant prev) (sr_neutral prev)
  | unpleasant => mkSessionResults (sr_pleasant prev) (sr_unpleasant prev ++ [b]) (sr_neutral prev)
  | neutral => mkSessionResults (sr_pleasant prev) (sr_unpleasant prev) (sr_neutral prev ++ [b])
  end.

(** [Object.entries(currentSessionData)], flattened to the blocks in the
    order the two nested [forEach] visit them. *)
Definition allBlocks (r : SessionResults) : list BlockResult :=
  sr_pleasant r ++ sr_unpleasant r ++ sr_neutral r.

(** The object handed to [onComplete]. *)
Record Results := mkResults {
  r_nBackCorrect : nat;
  r_nBackMissed : nat;
  r_nBackFalseAlarms : nat;
  r_pmCueCorrect : nat;
  r_pmCueMissed : nat;
  r_pmCueFalseAlarms : nat;
  r_totalImages : nat;
  r_totalPMCues : nat;
  r_totalNBackMatches : nat;
  r_nBackAccuracy : string;
  r_pmCueAccuracy : string;
  r_sessionResults : SessionResults
}.

(** The initial value of the [results] state. *)
Definition initialResults : Results :=
  mkResults 0 0 0 0 0 0 0 0 0 "0.00" "0.00" (mkSessionResults [] [] []).

(** The body of [data.blocks.forEach((block, index) => ...)] in
    [calculateFinalResults]: every total grows by the block's field. *)
Definition addBlock (acc : BlockResult) (block : BlockResult) : BlockResult :=
  mkBlockResult
    (nBackCorrect acc + nBackCorrect block)
    (nBackMissed acc + nBackMissed block)
    (nBackFalseAlarms acc + nBackFalseAlarms block)
    (pmCueCorrect acc + pmCueCorrect block)
    (pmCueMissed acc + pmCueMissed block)
    (pmCueFalseAlarms acc + pmCueFalseAlarms block)
    (totalImages acc + totalImages block)
    (totalPMCues acc + totalPMCues block)
    (totalNBackMatches acc + totalNBackMatches block).

(** [calculateFinalResults(currentSessionData)] *)
Definition calculateFinalResults (currentSessionData : SessionResults) : Results :=
  let t := fold_left addBlock (allBlocks currentSessionData)
             (mkBlockResult 0 0 0 0 0 0 0 0 0) in
  mkResults (nBackCorrect t) (nBackMissed t) (nBackFalseAlarms t)
    (pmCueCorrect t) (pmCueMissed t) (pmCueFalseAlarms t)
    (totalImages t) (totalPMCues t) (totalNBackMatches t)
    "0.00" "0.00" currentSessionData.

(** [total > 0 ? (correct / total * 100).toFixed(2) : '0.00'] *)
Definition accuracy (correct total : nat) : string :=
  if 0 <? total
  then JS.toFixed2 (JS.mul (JS.div (JS.ofNat correct) (JS.ofNat total)) (JS.ofNat 100))
  else "0.00".

(** [if (total === 0 && (correct + missed > 0)) total = correct + missed] *)
Definition fixTotal (total correct missed : nat) : nat :=
  if (total =? 0) && (0 <? correct + missed) then correct + missed else total.

(** The statements that follow [calculateFinalResults] in [handleKeyPress]
    (on [accuratelyCalculatedResults]) and, word for word, in
    [endSessionAndShowResults] (on [completeResults]). *)
Definition withAccuracies (finalResults : Results) : Results :=
  let totalNBackMatches :=
    fixTotal (r_totalNBackMatches finalResults)
      (r_nBackCorrect finalResults) (r_nBackMissed finalResults) in
  let totalPMCues :=
    fixTotal (r_totalPMCues finalResults)
      (r_pmCueCorrect finalResults) (r_pmCueMissed finalResults) in
  mkResults (r_nBackCorrect finalResults) (r_nBackMissed finalResults)
    (r_nBackFalseAlarms finalResults)
    (r_pmCueCorrect finalResults) (r_pmCueMissed finalResults)
    (r_pmCueFalseAlarms finalResults)
    (r_totalImages finalResults) totalPMCues totalNBackMatches
    (accuracy (r_nBackCorrect finalResults) totalNBackMatches)
    (accuracy (r_pmCueCorrect finalResults) totalPMCues)
    (r_sessionResults finalResults).

(** ** The component

    The [useState] cells of [ExperimentTask] ([startTime], [isFullScreen]
    and [isDebugMode] only feed the display and are left out), and two
    cells of the environment: the index each pending 500 ms timer of
    [handleKeyPress] has captured, and the objects passed to [onComplete]. *)

Module ExperimentTask.

Record State := mkState {
  currentSession : SessionType;
  currentBlock : nat;
  currentPhase : ExperimentPhase;
  pmCues : list Trial;
  trials : list Trial;
  currentPMCueIndex : nat;
  currentTrialIndex : Z;
  showFixation : bool;
  waitingForSpacebar : bool;
  waitingForSpacebarAfterPMCues : bool;
  responses : gmap Z (list string);
  sessionResults : SessionResults;
  results : Results;
  isExperimentActive : bool;
  isPaused : bool;
  initialized : bool;
  isLoading : bool;
  responseTimers : list Z;
  completed : list Results
}.

Definition set_currentSession (v : SessionType) (s : State) : State :=
  mkState v (currentBlock s) (currentPhase s) (pmCues s) (trials s) (currentPMCueIndex s) (currentTrialIndex s) (showFixation s) (waitingForSpacebar s) (waitingForSpacebarAfterPMCues s) (responses s) (sessionResults s) (results s) (isExperimentActive s) (isPaused s) (initialized s) (isLoading s) (responseTimers s) (completed s).

Definition set_currentBlock (v : nat) (s : State) : State :=
  mkState (currentSession s) v (currentPhase s) (pmCues s) (trials s) (currentPMCueIndex s) (currentTrialIndex s) (showFixation s) (waitingForSpacebar s) (waitingForSpacebarAfterPMCues s) (responses s) (sessionResults s) (results s) (isExperimentActive s) (isPaused s) (initialized s) (isLoading s) (responseTimers s) (completed s).

Definition set_currentPhase (v : ExperimentPhase) (s : State) : State :=
  mkState (currentSession s) (currentBlock s) v (pmCues s) (trials s) (currentPMCueIndex s) (currentTrialIndex s) (showFixation s) (waitingForSpacebar s) (waitingForSpacebarAfterPMCues s) (responses s) (sessionResults s) (results s) (isExperimentActive s) (isPaused s) (initialized s) (isLoading s) (responseTimers s) (completed s).

Definition set_pmCues (v : list Trial) (s : State) : State :=
  mkState (currentSession s) (currentBlock s) (currentPhase s) v (trials s) (currentPMCueIndex s) (currentTrialIndex s) (showFixation s) (waitingForSpacebar s) (waitingForSpacebarAfterPMCues s) (responses s) (sessionResults s) (results s) (isExperimentActive s) (isPaused s) (initialized s) (isLoading s) (responseTimers s) (completed s).

Definition set_trials (v : list Trial) (s : State) : State :=
  mkState (currentSession s) (currentBlock s) (currentPhase s) (pmCues s) v (currentPMCueIndex s) (currentTrialIndex s) (showFixation s) (waitingForSpacebar s) (waitingForSpacebarAfterPMCues s) (responses s) (sessionResults s) (results s) (isExperimentActive s) (isPaused s) (initialized s) (isLoading s) (responseTimers s) (completed s).

Definition set_currentPMCueIndex (v : nat) (s : State) : State :=
  mkState (currentSession s) (currentBlock s) (currentPhase s) (pmCues s) (trials s) v (currentTrialIndex s) (showFixation s) (waitingForSpacebar s) (waitingForSpacebarAfterPMCues s) (responses s) (sessionResults s) (results s) (isExperimentActive s) (isPaused s) (initialized s) (isLoading s) (responseTimers s) (completed s).

Definition set_currentTrialIndex (v : Z) (s : State) : State :=
  mkState (currentSession s) (currentBlock s) (currentPhase s) (pmCues s) (trials s) (currentPMCueIndex s) v (showFixation s) (waitingForSpacebar s) (waitingForSpacebarAfterPMCues s) (responses s) (sessionResults s) (results s) (isExperimentActive s) (isPaused s) (initialized s) (isLoading s) (responseTimers s) (completed s).

Definition set_showFixation (v : bool) (s : State) : State :=
  mkState (currentSession s) (currentBlock s) (currentPhase s) (pmCues s) (trials s) (currentPMCueIndex s) (currentTrialIndex s) v (waitingForSpacebar s) (waitingForSpacebarAfterPMCues s) (responses s) (sessionResults s) (results s) (isExperimentActive s) (isPaused s) (initialized s) (isLoading s) (responseTimers s) (completed s).

Definition set_waitingForSpacebar (v : bool) (s : State) : State :=
  mkState (currentSession s) (currentBlock s) (currentPhase s) (pmCues s) (trials s) (currentPMCueIndex s) (currentTrialIndex s) (showFixation s) v (waitingForSpacebarAfterPMCues s) (responses s) (sessionResults s) (results s) (isExperimentActive s) (isPaused s) (initialized s) (isLoading s) (responseTimers s) (completed s).

Definition set_waitingForSpacebarAfterPMCues (v : bool) (s : State) : State :=
  mkState (currentSession s) (currentBlock s) (currentPhase s) (pmCues s) (trials s) (currentPMCueIndex s) (currentTrialIndex s) (showFixation s) (waitingForSpacebar s) v (responses s) (sessionResults s) (results s) (isExperimentActive s) (isPaused s) (initialized s) (isLoading s) (responseTimers s) (completed s).

Definition set_responses (v : gmap Z (list string)) (s : State) : State :=
  mkState (currentSession s) (currentBlock s) (currentPhase s) (pmCues s) (trials s) (currentPMCueIndex s) (currentTrialIndex s) (showFixation s) (waitingForSpacebar s) (waitingForSpacebarAfterPMCues s) v (sessionResults s) (results s) (isExperimentActive s) (isPaused s) (initialized s) (isLoading s) (responseTimers s) (completed s).

Definition set_sessionResults (v : SessionResults) (s : State) : State :=
  mkState (currentSession s) (currentBlock s) (currentPhase s) (pmCues s) (trials s) (currentPMCueIndex s) (currentTrialIndex s) (showFixation s) (waitingForSpacebar s) (waitingForSpacebarAfterPMCues s) (responses s) v (results s) (isExperimentActive s) (isPaused s) (initialized s) (isLoading s) (responseTimers s) (completed s).

Definition set_results (v : Results) (s : State) : State :=
  mkState (currentSession s) (currentBlock s) (currentPhase s) (pmCues s) (trials s) (currentPMCueIndex s) (currentTrialIndex s) (showFixation s) (waitingForSpacebar s) (waitingForSpacebarAfterPMCues s) (responses s) (sessionResults s) v (isExperimentActive s) (isPaused s) (initialized s) (isLoading s) (responseTimers s) (completed s).

Definition set_isExperimentActive (v : bool) (s : State) : State :=
  mkState (currentSession s) (currentBlock s) (currentPhase s) (pmCues s) (trials s) (currentPMCueIndex s) (currentTrialIndex s) (showFixation s) (waitingForSpacebar s) (waitingForSpacebarAfterPMCues s) (responses s) (sessionResults s) (results s) v (isPaused s) (initialized s) (isLoading s) (responseTimers s) (completed s).

Definition set_isPaused (v : bool) (s : State) : State :=
  mkState (currentSession s) (currentBlock s) (currentPhase s) (pmCues s) (trials s) (currentPMCueIndex s) (currentTrialIndex s) (showFixation s) (waitingForSpacebar s) (waitingForSpacebarAfterPMCues s) (responses s) (sessionResults s) (results s) (isExperimentActive s) v (initialized s) (isLoading s) (responseTimers s) (completed s).

Definition set_initialized (v : bool) (s : State) : State :=
  mkState (currentSession s) (currentBlock s) (currentPhase s) (pmCues s) (trials s) (currentPMCueIndex s) (currentTrialIndex s) (showFixation s) (waitingForSpacebar s) (waitingForSpacebarAfterPMCues s) (responses s) (sessionResults s) (results s) (isExperimentActive s) (isPaused s) v (isLoading s) (responseTimers s) (completed s).

Definition set_isLoading (v : bool) (s : State) : State :=
  mkState (currentSession s) (currentBlock s) (currentPhase s) (pmCues s) (trials s) (currentPMCueIndex s) (currentTrialIndex s) (showFixation s) (waitingForSpacebar s) (waitingForSpacebarAfterPMCues s) (responses s) (sessionResults s) (results s) (isExperimentActive s) (isPaused s) (initialized s) v (responseTimers s) (completed s).

Definition set_responseTimers (v : list Z) (s : State) : State :=
  mkState (currentSession s) (currentBlock s) (currentPhase s) (pmCues s) (trials s) (currentPMCueIndex s) (currentTrialIndex s) (showFixation s) (waitingForSpacebar s) (waitingForSpacebarAfterPMCues s) (responses s) (sessionResults s) (results s) (isExperimentActive s) (isPaused s) (initialized s) (isLoading s) v (completed s).

Definition set_completed (v : list Results) (s : State) : State :=
  mkState (currentSession s) (currentBlock s) (currentPhase s) (pmCues s) (trials s) (currentPMCueIndex s) (currentTrialIndex s) (showFixation s) (waitingForSpacebar s) (waitingForSpacebarAfterPMCues s) (responses s) (sessionResults s) (results s) (isExperimentActive s) (isPaused s) (initialized s) (isLoading s) (responseTimers s) v.

(** The initial values of the [useState] cells. *)
Definition initialState : State :=
  mkState pleasant 0 phasePMCue [] [] 0 (-1)%Z false false false ∅
    (mkSessionResults [] [] []) initialResults true false false true [] [].

(** The scorer run on the [trials] and [responses] of the component. *)
Definition scoreBlock (s : State) : BlockResult * State :=
  let (blockResults, store) := evaluateBlockPerformance (mkStore (trials s) (responses s)) in
  (blockResults, set_trials (st_trials store) (set_responses (st_responses store) s)).

(** The updater passed to [setResponses] when a key is recorded. *)
Definition recordResponse (index : Z) (key : string)
    (prev : gmap Z (list string)) : gmap Z (list string) :=
  let trialResponses := default [] (prev !! index) in
  if negb (JS.includes trialResponses key)
  then <[index := trialResponses ++ [key]]> prev
  else prev.

(** [handleKeyPress(e)] from [const key = e.key.toLowerCase()] on. *)
Definition handleKey (s : State) (key : string) : State :=
  if waitingForSpacebarAfterPMCues s && String.eqb key " " then
    set_currentPhase phasePMCueTransitionToTrial
      (set_showFixation true (set_waitingForSpacebarAfterPMCues false s))
  else if waitingForSpacebar s && String.eqb key " " then
    let (blockResults, s0) := scoreBlock s in
    let s1 :=
      set_responses ∅
        (set_sessionResults
           (appendBlock (sessionResults s0) (currentSession s0) blockResults)
           (set_waitingForSpacebar false s0)) in
    if currentBlock s <? 2 then set_currentBlock (currentBlock s1 + 1) s1
    else
      match currentSession s with
      | pleasant => set_currentBlock 0 (set_currentSession unpleasant s1)
      | unpleasant => set_currentBlock 0 (set_currentSession neutral s1)
      | neutral =>
          (* [sessionResults] is the value of the current render *)
          let finalResults := calculateFinalResults (sessionResults s) in
          let accuratelyCalculatedResults := withAccuracies finalResults in
          set_completed (completed s1 ++ [accuratelyCalculatedResults])
            (set_isExperimentActive false
               (set_results accuratelyCalculatedResults s1))
      end
  else if match currentPhase s with phaseTrial => true | _ => false end
          && showFixation s && isExperimentActive s then
    if String.eqb key "n" || String.eqb key "z" then
      set_responseTimers (responseTimers s ++ [currentTrialIndex s])
        (set_responses (recordResponse (currentTrialIndex s) key (responses s)) s)
    else s
  else s.

(** [handleKeyPress(e)], [e_key] being [e.key].  The handler compares
    [key] with [' '], ['n'] and ['z'] and does nothing for another key.
    A key with a character outside ASCII is another key: the strings whose
    lower-case form is [' '], ['n'] or ['z'] are these three, ['N'] and
    ['Z']. *)
Definition handleKeyPress (s : State) (e_key : string) : State :=
  if isPaused s || isLoading s then s
  else
    match JS.toLowerCase e_key with
    | Some key => handleKey s key
    | None => s
    end.

(** The callback of the 500 ms timer of [handleKeyPress];
    [capturedIndex] is the [currentTrialIndex] of the render in which the
    key was pressed. *)
Definition responseTimeout (capturedIndex : Z) (s : State) : State :=
  set_responses (delete (capturedIndex + 1)%Z (responses s))
    (set_currentTrialIndex (currentTrialIndex s + 1)%Z
       (set_showFixation false s)).

(** The guard at the head of the trial-progression effect. *)
Definition progressionRuns (s : State) : bool :=
  initialized s && isExperimentActive s && negb (isPaused s)
  && negb (waitingForSpacebar s) && negb (isLoading s)
  && negb (waitingForSpacebarAfterPMCues s).

(** The state changes the trial-progression effect makes when it runs. *)
Definition progressionEffect (s : State) : State :=
  if negb (progressionRuns s) then s
  else
    match currentPhase s with
    | phasePMCue =>
        if currentPMCueIndex s <? length (pmCues s) then s
        else set_waitingForSpacebarAfterPMCues true s
    | phasePMCueTransitionToTrial => s
    | phaseTrial =>
        if (Z.of_nat (length (trials s)) <=? currentTrialIndex s)%Z
        then set_waitingForSpacebar true (set_currentPhase phaseBlockEnd s)
        else s
    | phaseBlockEnd => s
    end.

(** The callback of the timer the trial-progression effect has armed in
    state [s] ([pmCueTimer], the two [fixationTimer]s or [imageTimer]);
    the effect's cleanup cancels it whenever a dependency changes, so it
    fires in the state that armed it. *)
Definition progressionTimeout (s : State) : State :=
  if negb (progressionRuns s) then s
  else
    match currentPhase s with
    | phasePMCue =>
        if currentPMCueIndex s <? length (pmCues s)
        then set_currentPMCueIndex (currentPMCueIndex s + 1) s
        else s
    | phasePMCueTransitionToTrial =>
        set_currentTrialIndex 0%Z (set_currentPhase phaseTrial (set_showFixation false s))
    | phaseTrial =>
        if (Z.of_nat (length (trials s)) <=? currentTrialIndex s)%Z then s
        else if negb (showFixation s) then set_showFixation true s
        else
          set_responses (delete (currentTrialIndex s + 1)%Z (responses s))
            (set_currentTrialIndex (currentTrialIndex s + 1)%Z
               (set_showFixation false s))
    | phaseBlockEnd => s
    end.

(** [togglePause()] *)
Definition togglePause (s : State) : State := set_isPaused (negb (isPaused s)) s.

(** [finishInitialization()], with the [pmCues] and [trials] that
    [prepareSessionTrials] returned to [initializeBlock]. *)
Definition finishInitialization (blockPMCues blockTrials : list Trial) (s : State) : State :=
  set_isLoading false
    (set_initialized true
       (set_waitingForSpacebarAfterPMCues false
          (set_responses ∅
             (set_currentPhase phasePMCue
                (set_currentTrialIndex (-1)%Z
                   (set_currentPMCueIndex 0
                      (set_trials blockTrials (set_pmCues blockPMCues s)))))))).

(** [endSessionAndShowResults()] *)
Definition endSessionAndShowResults (s : State) : State :=
  let '(updatedSessionResultsData, s0) :=
    if match currentPhase s with phaseTrial => true | _ => false end
       && (0 <=? currentTrialIndex s)%Z
    then
      let (currentBlockPerformance, s0) := scoreBlock s in
      let updated :=
        appendBlock (sessionResults s0) (currentSession s0) currentBlockPerformance in
      (updated, set_sessionResults updated s0)
    else (sessionResults s, s) in
  let finalAggregatedResults := calculateFinalResults updatedSessionResultsData in
  let completeResults := withAccuracies finalAggregatedResults in
  set_completed (completed s0 ++ [completeResults])
    (set_isExperimentActive false (set_results completeResults s0)).

(** What can happen to the mounted component. *)
Inductive Event :=
| KeyDown (e_key : string)
| ProgressionTimeout
| ResponseTimeout (n : nat)
| TogglePause
| EndSession
| FinishInitialization (blockPMCues blockTrials : list Trial).

(** The effect on [currentSession] and [currentBlock]: when either
    changed, [initializeBlock] shows the loading state. *)
Definition initializeBlockEffect (before after : State) : State :=
  if match currentSession before, currentSession after with
     | pleasant, pleasant | neutral, neutral | unpleasant, unpleasant => true
     | _, _ => false
     end && (currentBlock before =? currentBlock after)
  then after
  else set_isLoading true after.

Definition handle (s : State) (ev : Event) : State :=
  match ev with
  | KeyDown e_key => handleKeyPress s e_key
  | ProgressionTimeout => progressionTimeout s
  | ResponseTimeout n =>
      match responseTimers s !! n with
      | Some capturedIndex =>
          responseTimeout capturedIndex
            (set_responseTimers (firstn n (responseTimers s) ++ skipn (S n) (responseTimers s)) s)
      | None => s
      end
  | TogglePause => togglePause s
  | EndSession => endSessionAndShowResults s
  | FinishInitialization blockPMCues blockTrials =>
      finishInitialization blockPMCues blockTrials s
  end.

(** One event, followed by the effects of the render it causes. *)
Definition step (s : State) (ev : Event) : State :=
  progressionEffect (initializeBlockEffect s (handle s ev)).

Definition run (s : State) (evs : list Event) : State := fold_left step evs s.

(** The states the mounted component can be in. *)
Definition reachable (s : State) : Prop := exists evs, s = run initialState evs.

End ExperimentTask.

(** ** The trial generator *)

(** What a call of the generator comes to: it returns, it throws, or it is
    still drawing random numbers when the supply ends. *)
Inductive Outcome (A : Type) : Type :=
| Returned (a : A)
| Threw (error : string)
| Starved.

Arguments Returned {A} a.
Arguments Threw {A} error.
Arguments Starved {A}.

Module Generator.

(** The values of [Math.random()] are supplied by a tape, one entry per
    call.  An entry [r] is only ever observed through
    [Math.floor(Math.random() * k)], which is modelled by [r mod k]: any
    index below [k] can come out, and nothing else ([0] when [k] is [0]). *)
Definition Gen (A : Type) : Type := list nat -> Outcome (A * list nat).

Definition gret {A} (a : A) : Gen A := fun tape => Returned (a, tape).

Definition gbind {A B} (m : Gen A) (k : A -> Gen B) : Gen B :=
  fun tape =>
    match m tape with
    | Returned (a, tape') => k a tape'
    | Threw e => Threw e
    | Starved => Starved
    end.

Notation "'let+' x ':=' m 'in' k" := (gbind m (fun x => k))
  (at level 10, x name, m at level 200, k at level 200, only parsing).

(** [Math.floor(Math.random() * k)] for the tape entry [r]. *)
Definition floorRandom (r k : nat) : nat := if k =? 0 then 0 else r mod k.

(** [[...arr].sort(() => Math.random() - 0.5)]: a comparator that ignores
    its arguments makes the engine return some permutation of the array,
    which one depending on the draws.  The model draws the place of each
    element among those already placed. *)
Fixpoint shuffleInto {A} (placed arr : list A) : Gen (list A) :=
  fun tape =>
    match arr with
    | [] => Returned (placed, tape)
    | x :: rest =>
        match tape with
        | [] => Starved
        | r :: tape' =>
            shuffleInto (JS.splice_insert placed (floorRandom r (length placed + 1)) x)
              rest tape'
        end
    end.

Definition shuffle {A} (arr : list A) : Gen (list A) := shuffleInto [] arr.

(** The string a [SessionType] is. *)
Definition sessionName (sessionType : SessionType) : string :=
  match sessionType with
  | pleasant => "pleasant"
  | neutral => "neutral"
  | unpleasant => "unpleasant"
  end.

(** [generateImagePaths(category, count)] *)
Definition generateImagePaths (category : string) (count : nat) : list string :=
  map (fun i => "/images/" +:+ category +:+ "/" +:+ category +:+ pretty i +:+ ".jpg")
    (seq 1 count).

(** [pleasantImages], [neutralImages], [unpleasantImages] ([count] is 76
    by default). *)
Definition imagesOf (sessionType : SessionType) : list string :=
  generateImagePaths (sessionName sessionType) 76.

Record PMCuesByBlock := mkPMCuesByBlock {
  block1 : list Trial;
  block2 : list Trial;
  block3 : list Trial
}.

(** [Array.from({ length: 6 }, (_, i) => ({ id: ..., ... }))] for the
    block called [block]. *)
Definition blockCues (sessionType : SessionType) (block : string) : list Trial :=
  let category := sessionName sessionType in
  map (fun i =>
         mkTrial ("pmcue-" +:+ category +:+ "-" +:+ block +:+ "-" +:+ pretty (i + 1))
           sessionType true
           ("/images/pmcues/" +:+ category +:+ "cues/" +:+ block +:+ "/" +:+ category
            +:+ "cue" +:+ pretty (i + 1) +:+ ".jpg"))
    (seq 0 6).

(** [generatePMCuesByBlock(category)] *)
Definition generatePMCuesByBlock (sessionType : SessionType) : PMCuesByBlock :=
  mkPMCuesByBlock (blockCues sessionType "block1") (blockCues sessionType "block2")
    (blockCues sessionType "block3").

(** [{ pmCues, trials }] *)
Record TrialSet := mkTrialSet {
  pmCues : list Trial;
  trials : list Trial
}.

(** [const nBackMatchesPerBlock = [23, 20, 25]] *)
Definition nBackMatchesPerBlock : list nat := [23; 20; 25].

(** [while (nBackCount < nBackMatches) { ... }]: the loop that inserts the
    repeats into [arr] ([uniqueImages], or [trials] on the practice path);
    [reference] is the array [findIndex] searches ([regularImages], or
    [practiceImages]).  Reading [.id] of a missing element throws; that
    is what an empty [arr] leads to, in the source (where the position is
    drawn from [length - 1 = -1] and is 0 or 1) as here. *)
Fixpoint insertRepeats (nBackMatches : nat) (reference : list Trial)
    (arr : list Trial) (usedForNBack : gset Z) (nBackCount : nat)
    (tape : list nat) {struct tape} : Outcome ((list Trial * nat) * list nat) :=
  if nBackMatches <=? nBackCount then Returned (arr, nBackCount, tape)
  else
    match tape with
    | [] => Starved
    | r :: tape' =>
        let insertPosition := floorRandom r (length arr - 1) + 1 in
        match arr !! (insertPosition - 1) with
        | None => Threw "TypeError: Cannot read properties of undefined (reading 'id')"
        | Some imageToRepeat =>
            let imageIndex :=
              JS.findIndex (fun img => String.eqb (id img) (id imageToRepeat)) reference in
            if decide (imageIndex ∈ usedForNBack)
            then insertRepeats nBackMatches reference arr usedForNBack nBackCount tape'
            else insertRepeats nBackMatches reference
                   (JS.splice_insert arr insertPosition imageToRepeat)
                   ({[imageIndex]} ∪ usedForNBack) (S nBackCount) tape'
        end
    end.

(** [do { insertPosition = ... } while (...)] and the [splice] after it. *)
Fixpoint insertPMCue (trials : list Trial) (pmCue : Trial) (tape : list nat)
    {struct tape} : Outcome (list Trial * list nat) :=
  match tape with
  | [] => Starved
  | r :: tape' =>
      let insertPosition := floorRandom r (length trials + 1) in
      if ((0 <? insertPosition) && cueAt trials (insertPosition - 1))
         || ((insertPosition <? length trials) && cueAt trials insertPosition)
      then insertPMCue trials pmCue tape'
      else Returned (JS.splice_insert trials insertPosition pmCue, tape')
  end.

(** [for (const pmCue of shuffledPMCues) { ... }] *)
Fixpoint insertPMCues (trials : list Trial) (shuffledPMCues : list Trial) : Gen (list Trial) :=
  match shuffledPMCues with
  | [] => gret trials
  | pmCue :: rest =>
      let+ trials' := insertPMCue trials pmCue in insertPMCues trials' rest
  end.

(** The callback of [imageArray.map((src, index) => ({ ... }))]. *)
Definition regularImage (sessionType : SessionType) (blockIndex : nat)
    (index : nat) (src : string) : Trial :=
  mkTrial (sessionName sessionType +:+ "-" +:+ pretty index +:+ "-" +:+ pretty blockIndex)
    sessionType false src.

Section WithCuePools.

(** [pleasantPMCuesByBlock], [neutralPMCuesByBlock] and
    [unpleasantPMCuesByBlock].  They are read by [prepareSessionTrials]
    through the test on the number of cues of a block; the functions that
    read them are written over the pools, and [prepareSessionTrials] is
    their instance at the pools of the source, [generatePMCuesByBlock]. *)
Variable cuesByBlock : SessionType -> PMCuesByBlock.

(** The cues selected for the block, after the test
    [pmCuesForCurrentBlock.length < 6]. *)
Definition selectPMCues (sessionType : SessionType) (blockIndex : nat) : list Trial :=
  let pmCuesForCurrentBlock :=
    if blockIndex =? 0 then block1 (cuesByBlock sessionType)
    else if blockIndex =? 1 then block2 (cuesByBlock sessionType)
    else block3 (cuesByBlock sessionType) in
  if length pmCuesForCurrentBlock <? 6 then
    if length pmCuesForCurrentBlock =? 0
    then block1 (cuesByBlock sessionType)
    else pmCuesForCurrentBlock
  else pmCuesForCurrentBlock.

(** [prepareSessionTrials(sessionType, blockIndex, isPractice)], the
    console output left out. *)
Definition prepareSessionTrialsWith (sessionType : SessionType) (blockIndex : nat)
    (isPractice : bool) : Gen TrialSet :=
  let+ shuffledImages := shuffle (imagesOf sessionType) in
  let imageArray := firstn 70 shuffledImages in
  let pmCues := selectPMCues sessionType blockIndex in
  let regularImages := imap (regularImage sessionType blockIndex) imageArray in
  if isPractice then
    let+ shuffledRegular := shuffle regularImages in
    let practiceImages := firstn 15 shuffledRegular in
    let+ repeated := insertRepeats 5 practiceImages practiceImages ∅ 0 in
    gret (mkTrialSet pmCues (fst repeated))
  else
    let+ repeated :=
      match nBackMatchesPerBlock !! blockIndex with
      | Some nBackMatches =>
          let uniqueImagesNeeded := 70 - 6 - nBackMatches in
          let uniqueImages := firstn uniqueImagesNeeded regularImages in
          insertRepeats nBackMatches regularImages uniqueImages ∅ 0
      | None =>
          (* [nBackMatches] is [undefined]: [slice(0, NaN)] is empty and
             [0 < undefined] is false *)
          gret ([], 0)
      end in
    let uniqueImages := fst repeated in
    let+ shuffledPMCues := shuffle pmCues in
    let+ trials := insertPMCues uniqueImages shuffledPMCues in
    gret (mkTrialSet pmCues trials).

End WithCuePools.

(** [prepareSessionTrials] on the pools of the source. *)
Definition prepareSessionTrials : SessionType -> nat -> bool -> Gen TrialSet :=
  prepareSessionTrialsWith generatePMCuesByBlock.

End Generator.

(** ** Vocabulary of the statements *)

(** [responses[index] || []] contains [key]. *)
Definition recorded (responses : gmap Z (list string)) (key : string) (index : nat) : bool :=
  JS.includes (default [] (responses !! Z.of_nat index)) key.

(** The number of positions [from <= i < from + n] that satisfy [p]. *)
Definition countFrom (from n : nat) (p : nat -> bool) : nat :=
  length (List.filter p (seq from n)).

(** The number of positions of an array of length [n] that satisfy [p]. *)
Definition countPositions (n : nat) (p : nat -> bool) : nat := countFrom 0 n p.

(** The tallies of a store, the store dropped. *)
Definition tallies (s : Store) : BlockResult := fst (evaluateBlockPerformance s).

(** What the scorer makes of position [i]. *)
Definition nBackHit (trials : list Trial) (responses : gmap Z (list string)) (i : nat) : bool :=
  isOneBackMatch trials (Z.of_nat i) && recorded responses "n" i.

Definition nBackMiss (trials : list Trial) (responses : gmap Z (list string)) (i : nat) : bool :=
  isOneBackMatch trials (Z.of_nat i) && negb (recorded responses "n" i).

Definition nBackFalseAlarm (trials : list Trial) (responses : gmap Z (list string)) (i : nat) : bool :=
  (0 <? i) && negb (isOneBackMatch trials (Z.of_nat i)) && recorded responses "n" i.

Definition cueHit (trials : list Trial) (responses : gmap Z (list string)) (i : nat) : bool :=
  cueAt trials i && recorded responses "z" i.

Definition cueMiss (trials : list Trial) (responses : gmap Z (list string)) (i : nat) : bool :=
  cueAt trials i && negb (recorded responses "z" i).

Definition cueFalseAlarm (trials : list Trial) (responses : gmap Z (list string)) (i : nat) : bool :=
  negb (cueAt trials i) && recorded responses "z" i.

(** A non-cue trial without a ['z'] response. *)
Definition cueUnscored (trials : list Trial) (responses : gmap Z (list string)) (i : nat) : bool :=
  negb (cueAt trials i) && negb (recorded responses "z" i).

(** The counters after the positions [from <= i < from + n] were scored. *)
Definition bump (trials : list Trial) (responses : gmap Z (list string))
    (acc : Counters) (from n : nat) : Counters :=
  mkCounters
    (c_nBackCorrect acc + countFrom from n (nBackHit trials responses))
    (c_nBackMissed acc + countFrom from n (nBackMiss trials responses))
    (c_nBackFalseAlarms acc + countFrom from n (nBackFalseAlarm trials responses))
    (c_pmCueCorrect acc + countFrom from n (cueHit trials responses))
    (c_pmCueMissed acc + countFrom from n (cueMiss trials responses))
    (c_pmCueFalseAlarms acc + countFrom from n (cueFalseAlarm trials responses)).

(** A block result whose totals are the sums of its hits and misses. *)
Definition balanced (b : BlockResult) : Prop :=
  nBackCorrect b + nBackMissed b = totalNBackMatches b /\
  pmCueCorrect b + pmCueMissed b = totalPMCues b.

(** A final result whose two accuracy strings are those of
    [correct / (correct + missed) * 100]. *)
Definition accurate (r : Results) : Prop :=
  r_nBackAccuracy r = accuracy (r_nBackCorrect r) (r_nBackCorrect r + r_nBackMissed r) /\
  r_pmCueAccuracy r = accuracy (r_pmCueCorrect r) (r_pmCueCorrect r + r_pmCueMissed r).

(** The spec's words for the accuracy: [correct / (correct + missed)] as a
    percentage rounded to two decimals, taken over the rationals, a half
    rounding up; ["0.00"] when the denominator is zero. *)
Definition exactPercentage (correct missed : nat) : string :=
  if correct + missed =? 0 then "0.00"
  else
    let c := Z.of_nat correct in
    let t := Z.of_nat (correct + missed) in
    JS.twoDecimals ((2 * 10000 * c + t) / (2 * t))%Z.

Definition isTrialPhase (p : ExperimentPhase) : bool :=
  match p with phaseTrial => true | _ => false end.

Definition isCuePhase (p : ExperimentPhase) : bool :=
  match p with phasePMCue | phasePMCueTransitionToTrial => true | _ => false end.

(** What holds of every state of the mounted component. *)
Record Inv (st : ExperimentTask.State) : Prop := mkInv {
  inv_keys : forall k : Z,
    is_Some (ExperimentTask.responses st !! k) -> (k <= ExperimentTask.currentTrialIndex st)%Z;
  inv_cue_phase :
    isCuePhase (ExperimentTask.currentPhase st) = true -> ExperimentTask.responses st = ∅;
  inv_waiting :
    ExperimentTask.waitingForSpacebarAfterPMCues st = true ->
    ExperimentTask.currentPhase st = phasePMCue;
  inv_balanced : Forall balanced (allBlocks (ExperimentTask.sessionResults st));
  inv_accurate : Forall accurate (ExperimentTask.completed st)
}.

(** The trials presented so far: those up to the current index. *)
Definition presented (st : ExperimentTask.State) : list Trial :=
  firstn (Z.to_nat (ExperimentTask.currentTrialIndex st + 1)) (ExperimentTask.trials st).

(** The key press is one [handleKeyPress] records: the trial phase with the
    fixation cross showing, the experiment active, neither paused nor
    loading, and the key, in lower case, ['n'] or ['z']. *)
Definition recordsResponse (st : ExperimentTask.State) (e_key : string) : bool :=
  negb (ExperimentTask.isPaused st) && negb (ExperimentTask.isLoading st)
  && isTrialPhase (ExperimentTask.currentPhase st)
  && ExperimentTask.showFixation st && ExperimentTask.isExperimentActive st
  && match JS.toLowerCase e_key with
     | Some key => String.eqb key "n" || String.eqb key "z"
     | None => false
     end.

(** The key press is the space bar that closes a block. *)
Definition closesBlock (st : ExperimentTask.State) (e_key : string) : bool :=
  negb (ExperimentTask.isPaused st) && negb (ExperimentTask.isLoading st)
  && negb (ExperimentTask.waitingForSpacebarAfterPMCues st)
  && ExperimentTask.waitingForSpacebar st
  && match JS.toLowerCase e_key with
     | Some key => String.eqb key " "
     | None => false
     end.

(** The spec's words for response capture: the trial phase (image or
    fixation), not paused, and one of the two keys. *)
Definition specRecordsResponse (st : ExperimentTask.State) (e_key : string) : bool :=
  isTrialPhase (ExperimentTask.currentPhase st)
  && negb (ExperimentTask.isPaused st)
  && (String.eqb e_key "n" || String.eqb e_key "z").

(** The string [toFixed(2)] makes of the double
    [correct / (correct + missed) * 100]; ["0.00"] when the denominator is
    zero. *)
Definition doublePercentage (correct missed : nat) : string :=
  if 0 <? correct + missed
  then JS.toFixed2
         (JS.mul (JS.div (JS.ofNat correct) (JS.ofNat (correct + missed))) (JS.ofNat 100))
  else "0.00".

(** No cue trial next to another one. *)
Definition noAdjacentCues (trials : list Trial) : Prop :=
  forall i : nat, cueAt trials i && cueAt trials (S i) = false.

(** The test of the [do ... while] loop that places a cue: the entry before
    or the entry at the drawn position is a cue. *)
Definition blockedPosition (trials : list Trial) (insertPosition : nat) : bool :=
  ((0 <? insertPosition) && cueAt trials (insertPosition - 1))
  || ((insertPosition <? length trials) && cueAt trials insertPosition).

(** The cues of the requested block, before the test on their number. *)
Definition requestedCues (cuesByBlock : SessionType -> Generator.PMCuesByBlock)
    (sessionType : SessionType) (blockIndex : nat) : list Trial :=
  if blockIndex =? 0 then Generator.block1 (cuesByBlock sessionType)
  else if blockIndex =? 1 then Generator.block2 (cuesByBlock sessionType)
  else Generator.block3 (cuesByBlock sessionType).

(** A computation keeps its result when more draws are supplied. *)
Definition extendable {A} (g : Generator.Gen A) : Prop :=
  forall (tape : list nat) (a : A) (rest more : list nat),
    g tape = Returned (a, rest) -> g (tape ++ more) = Returned (a, rest ++ more).

(** Whatever has been drawn so far, some further draws make the
    computation return. *)
Definition canReturn {A} (g : Generator.Gen A) : Prop :=
  forall tape : list nat, exists (more : list nat) (a : A) (rest : list nat),
    g (tape ++ more) = Returned (a, rest).

(** The index [findIndex] gives for the image of a trial. *)
Definition imageIndexIn (reference : list Trial) (t : Trial) : Z :=
  JS.findIndex (fun img => String.eqb (id img) (id t)) reference.

(** The state of the loop that inserts the repeats, [unique] being the
    number of images it started from: the array has grown by one entry per
    repeat, every image it started from is still there, and no more images
    are marked as used than repeats were inserted. *)
Definition repeatsInv (reference : list Trial) (unique : nat)
    (arr : list Trial) (usedForNBack : gset Z) (nBackCount : nat) : Prop :=
  length arr = unique + nBackCount /\
  (forall k : nat, k < unique ->
     exists (q : nat) (t : Trial), arr !! q = Some t /\ imageIndexIn reference t = Z.of_nat k) /\
  size usedForNBack <= nBackCount.

(** The ids of the seventy regular images of a block. *)
Definition regularIds (sessionType : SessionType) (blockIndex : nat) : list string :=
  map (fun index => id (Generator.regularImage sessionType blockIndex index "")) (seq 0 70).

(** [findIndex] by id finds every one of the ids at its own index. *)
Definition idsFoundInPlace (ids : list string) : bool :=
  forallb (fun k =>
             match ids !! k with
             | Some s => (JS.findIndex (fun x => String.eqb x s) ids =? Z.of_nat k)%Z
             | None => false
             end) (seq 0 (length ids)).

(** The double-precision string and the exactly rounded percentage agree
    for every pair of tallies whose sum is below [bound]. *)
Definition agreesBelow (bound : nat) : bool :=
  forallb (fun total =>
             forallb (fun correct =>
                        String.eqb (doublePercentage correct (total - correct))
                          (exactPercentage correct (total - correct)))
               (seq 0 (S total)))
    (seq 0 bound).

(** ** Concrete runs *)

Module Examples.

Import ExperimentTask.

Definition imageA : Trial := mkTrial "pleasant-0-0" pleasant false "/images/pleasant/pleasant7.jpg".
Definition imageB : Trial := mkTrial "pleasant-1-0" pleasant false "/images/pleasant/pleasant3.jpg".
Definition imageD : Trial := mkTrial "pleasant-2-0" pleasant false "/images/pleasant/pleasant9.jpg".
Definition cueC : Trial :=
  mkTrial "pmcue-pleasant-block1-1" pleasant true
    "/images/pmcues/pleasantcues/block1/pleasantcue1.jpg".

(** A block of five trials: a repeat at position 2 and a cue at
    position 3. *)
Definition fiveTrials : list Trial := [imageA; imageB; imageB; cueC; imageD].

(** The block is loaded, the cue display is left with the space bar, the
    fixation before the trials ends: trial 0 is on screen. *)
Definition toFirstImage : list Event :=
  [FinishInitialization [cueC] fiveTrials; ProgressionTimeout; KeyDown " ";
   ProgressionTimeout].

Definition firstImage : State := run initialState toFirstImage.

(** Trial 0 and its fixation pass, trial 1 passes, ['n'] is pressed during
    its fixation and its 500 ms timer advances to trial 2. *)
Definition toThirdImage : list Event :=
  toFirstImage ++
  [ProgressionTimeout; ProgressionTimeout; ProgressionTimeout; KeyDown "n";
   ResponseTimeout 0].

Definition thirdImage : State := run initialState toThirdImage.

(** The fixation of trial 1, with ['n'] just recorded. *)
Definition secondFixation : State :=
  run initialState
    (toFirstImage ++ [ProgressionTimeout; ProgressionTimeout; ProgressionTimeout; KeyDown "n"]).

(** All five trials pass, ['z'] is pressed for the last one: the block
    waits for the space bar. *)
Definition blockEnded : State :=
  run thirdImage
    [ProgressionTimeout; ProgressionTimeout; ProgressionTimeout; ProgressionTimeout;
     ProgressionTimeout; KeyDown "z"; ResponseTimeout 0].

(** A block of 161 presentations of one image: 160 repeat matches. *)
Definition manyRepeats : list Trial := repeat imageA 161.

(** ['n'] is pressed during the fixation of [n] trials in a row, each
    press advancing through its 500 ms timer. *)
Fixpoint respondTo (n : nat) : list Event :=
  match n with
  | 0 => []
  | S n' => [ProgressionTimeout; KeyDown "n"; ResponseTimeout 0] ++ respondTo n'
  end.

(** Trial 0 passes, the next 23 repeats are answered, the session is
    ended with the button. *)
Definition answer23Of160 : list Event :=
  [FinishInitialization [] manyRepeats; KeyDown " "; ProgressionTimeout;
   ProgressionTimeout; ProgressionTimeout]
  ++ respondTo 23 ++ [EndSession].

(** The draws of one call of the generator for block 0: 76 draws shuffle
    the images, 23 draws put a repeat after the trials at positions 0, 2,
    4, ..., 44, 6 draws shuffle the cues, and the cues go to positions 1,
    50, 52, 54, 56 and 58.  Position 1 lies between trial 0 and its
    repeat. *)
Definition splitDraws : list nat :=
  repeat 0 76 ++ map (fun i => 2 * i) (seq 0 23) ++ repeat 0 6 ++ [1; 50; 52; 54; 56; 58].

(** The object that run hands to [onComplete]. *)
Definition resultsOf23Of160 : Results :=
  hd initialResults (completed (run initialState answer23Of160)).

End Examples.

(** Closes the side conditions of [Inv] that a handler leaves as they
    were, or that contradict the phase equations [H1], [H2]. *)
Ltac inv_side H1 H2 :=
  simpl; auto; try (rewrite ?H1, ?H2; discriminate).

(* ================================================================== *)

(** ** The debug controls and the manual start

    The buttons of the debug panel and the button [Click to Initialize] of
    the fallback screen.  As for the buttons [Pause] and [End Session], the
    screen on which a button is rendered is not part of the model: a click
    is taken to be possible in every state. *)

Module DebugControls.

Import ExperimentTask.

(** The [onClick] of the buttons [Pleasant], [Unpleasant] and [Neutral]. *)
Definition selectSession (session : SessionType) (s : State) : State :=
  set_initialized false
    (set_responses ∅
       (set_currentTrialIndex (-1)%Z
          (set_currentPMCueIndex 0
             (set_currentPhase phasePMCue
                (set_currentBlock 0 (set_currentSession session s)))))).

(** The buttons [Block 1], [Block 2] and [Block 3]. *)
Inductive BlockButton := Block1 | Block2 | Block3.

(** The argument of [setCurrentBlock] in the button's [onClick]. *)
Definition blockOf (button : BlockButton) : nat :=
  match button with
  | Block1 => 0
  | Block2 => 1
  | Block3 => 2
  end.

(** The [onClick] of a block button. *)
Definition selectBlock (button : BlockButton) (s : State) : State :=
  set_initialized false
    (set_responses ∅
       (set_currentTrialIndex (-1)%Z
          (set_currentPMCueIndex 0
             (set_currentPhase phasePMCue
                (set_currentBlock (blockOf button) s))))).

(** The [onClick] of [Click to Initialize]: [setIsLoading(true)], then
    [initializeBlock()], whose [finishInitialization] is the event
    [FinishInitialization]. *)
Definition manualInitialize (s : State) : State := set_isLoading true s.

(** What can happen to the mounted component, the debug panel included. *)
Inductive Event :=
| Task (ev : ExperimentTask.Event)
| SelectSession (session : SessionType)
| SelectBlock (button : BlockButton)
| ManualInitialize.

Definition handle (s : State) (ev : Event) : State :=
  match ev with
  | Task ev => ExperimentTask.handle s ev
  | SelectSession session => selectSession session s
  | SelectBlock button => selectBlock button s
  | ManualInitialize => manualInitialize s
  end.

(** One event, followed by the effects of the render it causes. *)
Definition step (s : State) (ev : Event) : State :=
  progressionEffect (initializeBlockEffect s (handle s ev)).

Definition run (s : State) (evs : list Event) : State := fold_left step evs s.

(** The states the mounted component can be in. *)
Definition reachable (s : State) : Prop := exists evs, s = run initialState evs.

End DebugControls.

(** An entry of the response map as [handleKeyPress] builds it: some of
    the two keys, none of them twice. *)
Definition wellFormedEntry (rs : list string) : Prop :=
  rs <> [] /\ NoDup rs /\ Forall (fun key => key = "n" \/ key = "z") rs.

(** The final results are those of their own per-block breakdown. *)
Definition consistent (r : Results) : Prop :=
  r = withAccuracies (calculateFinalResults (r_sessionResults r)) /\
  Forall balanced (allBlocks (r_sessionResults r)).

(** What holds of every state of the mounted component, beyond [Inv]. *)
Record Inv2 (st : ExperimentTask.State) : Prop := mkInv2 {
  inv_block : ExperimentTask.currentBlock st <= 2;
  inv_entries : forall (k : Z) (rs : list string),
    ExperimentTask.responses st !! k = Some rs -> wellFormedEntry rs;
  inv_active :
    ExperimentTask.isExperimentActive st = true <-> ExperimentTask.completed st = [];
  inv_settled : ExperimentTask.progressionEffect st = st;
  inv_consistent : Forall consistent (ExperimentTask.completed st)
}.

(** The part of [Inv2] that a handler has to keep; the effects of the
    render settle the state again. *)
Record Kept (st : ExperimentTask.State) : Prop := mkKept {
  kept_block : ExperimentTask.currentBlock st <= 2;
  kept_entries : forall (k : Z) (rs : list string),
    ExperimentTask.responses st !! k = Some rs -> wellFormedEntry rs;
  kept_active :
    ExperimentTask.isExperimentActive st = true <-> ExperimentTask.completed st = [];
  kept_consistent : Forall consistent (ExperimentTask.completed st)
}.

(** The number of entries of [l] that carry the id of the entry before
    them, [previous] being the id before the first entry. *)
Fixpoint repeatsAfter (previous : option string) (l : list Trial) : nat :=
  match l with
  | [] => 0
  | t :: rest =>
      (match previous with
       | Some p => if String.eqb (id t) p then 1 else 0
       | None => 0
       end) + repeatsAfter (Some (id t)) rest
  end.

(** The number of trials of [l] that carry the id [s]. *)
Definition occurrences (s : string) (l : list Trial) : nat :=
  length (List.filter (fun t => String.eqb (id t) s) l).

(** The trials of [l] that are no cues, in their order. *)
Definition imageTrials (l : list Trial) : list Trial :=
  List.filter (fun t => negb (isPMCue t)) l.

(** The trials of [l] that are cues, in their order. *)
Definition cueTrials (l : list Trial) : list Trial :=
  List.filter (fun t => isPMCue t) l.

(** The name of the cue folder [selectPMCues] takes for a block. *)
Definition blockFolder (blockIndex : nat) : string :=
  if blockIndex =? 0 then "block1" else if blockIndex =? 1 then "block2" else "block3".

(** ** Preloading the images of a block

    The part of [initializeBlock] that runs once [prepareSessionTrials] has
    returned: the images are requested, a timer of 5000 ms is armed, and
    [finishInitialization] is called by the timer and by the [onload] or
    [onerror] that settles the last image. *)

Module Preload.

(** [[...blockPMCues.map(cue => cue.src), ...blockTrials.map(trial => trial.src)].filter(Boolean)]:
    the empty string is the one string that is falsy. *)
Definition imagesToPreload (blockPMCues blockTrials : list Trial) : list string :=
  List.filter (fun path => negb (String.eqb path EmptyString))
    (map src blockPMCues ++ map src blockTrials).

(** The locals the callbacks share, the [Image] objects whose [onload] or
    [onerror] is still to come, and the calls of [finishInitialization]. *)
Record State := mkState {
  toPreload : nat;           (* [imagesToPreload.length] *)
  requested : nat;           (* images requested and not settled *)
  loadedImages : nat;
  successfullyLoaded : nat;
  preloadTimeout : bool;     (* the timer is pending *)
  finished : nat             (* calls of [finishInitialization] *)
}.

(** [finishInitialization()]: [clearTimeout(preloadTimeout)]; the setters
    are the event [FinishInitialization] of the component. *)
Definition finishInitialization (s : State) : State :=
  mkState (toPreload s) (requested s) (loadedImages s) (successfullyLoaded s) false
    (S (finished s)).

(** [if (loadedImages === imagesToPreload.length) finishInitialization()] *)
Definition finishWhenAllLoaded (s : State) : State :=
  if loadedImages s =? toPreload s then finishInitialization s else s.

(** The callback of [imagesToPreload.forEach(src => ...)]. *)
Definition request (s : State) (path : string) : State :=
  if String.eqb path EmptyString then
    finishWhenAllLoaded
      (mkState (toPreload s) (requested s) (loadedImages s + 1) (successfullyLoaded s)
         (preloadTimeout s) (finished s))
  else
    mkState (toPreload s) (requested s + 1) (loadedImages s) (successfullyLoaded s)
      (preloadTimeout s) (finished s).

(** From [let loadedImages = 0] to the end of the [forEach]. *)
Definition start (images : list string) : State :=
  let s := mkState (length images) 0 0 0 true 0 in
  if length images =? 0 then finishInitialization s
  else fold_left request images s.

(** An image loads, an image fails, the timer fires. *)
Inductive Event := Loaded | Failed | TimedOut.

(** [img.onload] *)
Definition onload (s : State) : State :=
  finishWhenAllLoaded
    (mkState (toPreload s) (requested s - 1) (loadedImages s + 1) (successfullyLoaded s + 1)
       (preloadTimeout s) (finished s)).

(** [img.onerror] *)
Definition onerror (s : State) : State :=
  finishWhenAllLoaded
    (mkState (toPreload s) (requested s - 1) (loadedImages s + 1) (successfullyLoaded s)
       (preloadTimeout s) (finished s)).

(** An image settles once, and a cleared timer does not fire. *)
Definition handle (s : State) (ev : Event) : State :=
  match ev with
  | Loaded => if 0 <? requested s then onload s else s
  | Failed => if 0 <? requested s then onerror s else s
  | TimedOut => if preloadTimeout s then finishInitialization s else s
  end.

Definition run (s : State) (evs : list Event) : State := fold_left handle evs s.

End Preload.

(** The number of images that settle in a run. *)
Definition settled (evs : list Preload.Event) : nat :=
  length (List.filter (fun ev => match ev with Preload.TimedOut => false | _ => true end) evs).

(** The timer fires while some of [left] images are still to settle. *)
Fixpoint timesOut (left : nat) (evs : list Preload.Event) : bool :=
  match evs with
  | [] => false
  | Preload.TimedOut :: _ => 0 <? left
  | _ :: rest => timesOut (left - 1) rest
  end.

(** What [onload] and [onerror] do to the state: [success] is 1 for the
    one and 0 for the other. *)
Definition settles (success : nat) (s s1 : Preload.State) : Prop :=
  Preload.toPreload s1 = Preload.toPreload s /\
  Preload.requested s1 = Preload.requested s - 1 /\
  Preload.loadedImages s1 = Preload.loadedImages s + 1 /\
  Preload.successfullyLoaded s1 = Preload.successfullyLoaded s + success /\
  Preload.preloadTimeout s1
  = (if Preload.requested s =? 1 then false else Preload.preloadTimeout s) /\
  Preload.finished s1 = Preload.finished s + (if Preload.requested s =? 1 then 1 else 0).

(** The state a run of the callbacks leads to. *)
Definition preloaded (s s' : Preload.State) (evs : list Preload.Event) : Prop :=
  Preload.loadedImages s' + Preload.requested s' = Preload.toPreload s /\
  Preload.loadedImages s' = Preload.loadedImages s + Nat.min (Preload.requested s) (settled evs) /\
  Preload.successfullyLoaded s' <= Preload.loadedImages s' /\
  Preload.finished s'
  = Preload.finished s
    + (if Preload.preloadTimeout s && timesOut (Preload.requested s) evs then 1 else 0)
    + (if (0 <? Preload.requested s) && (Preload.requested s <=? settled evs) then 1 else 0).

(** ** The revision with the blocks of three sessions

    The other revision of the component in the same file differs in the
    order of the sessions: each of three blocks runs the three sessions in
    an order drawn by [shuffleArray]. *)

Module BlockOrder.

Import Generator.

(** [[newArray[i], newArray[j]] = [newArray[j], newArray[i]]]; both
    indices lie in the array whenever the loop of [shuffleArray] gets
    here, and an index outside leaves the model's array as it is. *)
Definition swap {A} (newArray : list A) (i j : nat) : list A :=
  match newArray !! i, newArray !! j with
  | Some ai, Some aj => <[j := ai]> (<[i := aj]> newArray)
  | _, _ => newArray
  end.

(** [for (let i = ...; i > 0; i--) { const j = Math.floor(Math.random() * (i + 1)); ... }] *)
Fixpoint shuffleFrom {A} (i : nat) (newArray : list A) : Gen (list A) :=
  match i with
  | 0 => gret newArray
  | S i' =>
      fun tape =>
        match tape with
        | [] => Starved
        | r :: tape' => shuffleFrom i' (swap newArray i (floorRandom r (i + 1))) tape'
        end
  end.

(** [shuffleArray(array)] *)
Definition shuffleArray {A} (array : list A) : Gen (list A) :=
  shuffleFrom (length array - 1) array.

(** [Array(3).fill(null).map(() => shuffleArray(['pleasant', 'unpleasant', 'neutral']))] *)
Definition blockSessionOrder : Gen (list (list SessionType)) :=
  let+ first := shuffleArray [pleasant; unpleasant; neutral] in
  let+ second := shuffleArray [pleasant; unpleasant; neutral] in
  let+ third := shuffleArray [pleasant; unpleasant; neutral] in
  gret [first; second; third].

(** [blockSessionOrder[currentBlock][currentSessionIndex]] *)
Definition currentSession (order : list (list SessionType))
    (currentBlock currentSessionIndex : nat) : option SessionType :=
  order !! currentBlock ≫= fun sessions => sessions !! currentSessionIndex.

End BlockOrder.

(** The transposition of [i] and [j]. *)
Definition transpose (i j k : nat) : nat :=
  if k =? i then j else if k =? j then i else k.

(** How often [sessionType] is in [sessions]. *)
Definition sessionCount (sessionType : SessionType) (sessions : list SessionType) : nat :=
  length (List.filter (fun s => String.eqb (Generator.sessionName s)
                                   (Generator.sessionName sessionType)) sessions).

(** ** The scorer and the end of the experiment in the revision with the
    blocks of three sessions

    That revision scores two trials back and by picture, takes a key of
    either kind for a response, and keeps the results of the sessions in one
    array, [blockResults]. *)

Module TwoBack.

(** The type [BlockResult] of this revision. *)
Record BlockResult := mkBlockResult {
  nBackCorrect : nat;
  nBackMissed : nat;
  nBackFalseAlarms : nat;
  pmCueCorrect : nat;
  pmCueMissed : nat;
  pmCueFalseAlarms : nat;
  totalImages : nat;
  totalPMCues : nat;
  totalNBackMatches : nat;
  sessionType : SessionType
}.

(** [const trialResponses = responses[index] || []; const hasResponse = trialResponses.length > 0] *)
Definition hasResponse (responses : gmap Z (list string)) (index : nat) : bool :=
  0 <? length (default [] (responses !! Z.of_nat index)).

(** [arr.forEach((x, index) => body)] on the object [blockResults] the
    body updates. *)
Fixpoint forEach_from {A} (body : BlockResult -> A -> nat -> BlockResult)
    (arr : list A) (index : nat) (blockResults : BlockResult) : BlockResult :=
  match arr with
  | [] => blockResults
  | x :: rest => forEach_from body rest (S index) (body blockResults x index)
  end.

(** The callback of [trials.forEach((trial, index) => ...)]. *)
Definition scoreTrial (trials : list Trial) (responses : gmap Z (list string))
    (b : BlockResult) (trial : Trial) (index : nat) : BlockResult :=
  if 2 <=? index then
    match trials !! (index - 2) with
    | Some earlier =>
        let isMatch := String.eqb (src trial) (src earlier) in
        if isMatch then
          let b1 :=
            mkBlockResult (nBackCorrect b) (nBackMissed b) (nBackFalseAlarms b)
              (pmCueCorrect b) (pmCueMissed b) (pmCueFalseAlarms b)
              (totalImages b) (totalPMCues b) (S (totalNBackMatches b)) (sessionType b) in
          if hasResponse responses index then
            mkBlockResult (S (nBackCorrect b1)) (nBackMissed b1) (nBackFalseAlarms b1)
              (pmCueCorrect b1) (pmCueMissed b1) (pmCueFalseAlarms b1)
              (totalImages b1) (totalPMCues b1) (totalNBackMatches b1) (sessionType b1)
          else
            mkBlockResult (nBackCorrect b1) (S (nBackMissed b1)) (nBackFalseAlarms b1)
              (pmCueCorrect b1) (pmCueMissed b1) (pmCueFalseAlarms b1)
              (totalImages b1) (totalPMCues b1) (totalNBackMatches b1) (sessionType b1)
        else if hasResponse responses index then
          mkBlockResult (nBackCorrect b) (nBackMissed b) (S (nBackFalseAlarms b))
            (pmCueCorrect b) (pmCueMissed b) (pmCueFalseAlarms b)
            (totalImages b) (totalPMCues b) (totalNBackMatches b) (sessionType b)
        else b
    | None => b (* [trials[index - 2]] exists for [2 <= index < length] *)
    end
  else b.

(** The callback of [pmCues.forEach((cue, index) => ...)]. *)
Definition scoreCue (responses : gmap Z (list string))
    (b : BlockResult) (cue : Trial) (index : nat) : BlockResult :=
  if hasResponse responses index then
    mkBlockResult (nBackCorrect b) (nBackMissed b) (nBackFalseAlarms b)
      (S (pmCueCorrect b)) (pmCueMissed b) (pmCueFalseAlarms b)
      (totalImages b) (totalPMCues b) (totalNBackMatches b) (sessionType b)
  else
    mkBlockResult (nBackCorrect b) (nBackMissed b) (nBackFalseAlarms b)
      (pmCueCorrect b) (S (pmCueMissed b)) (pmCueFalseAlarms b)
      (totalImages b) (totalPMCues b) (totalNBackMatches b) (sessionType b).

(** [evaluateBlockPerformance()], on the [trials], [pmCues], [responses]
    and [currentSession] it closes over. *)
Definition evaluateBlockPerformance (trials pmCues : list Trial)
    (responses : gmap Z (list string)) (currentSession : SessionType) : BlockResult :=
  let blockResults :=
    mkBlockResult 0 0 0 0 0 0 (length trials) (length pmCues) 0 currentSession in
  let blockResults := forEach_from (scoreTrial trials responses) trials 0 blockResults in
  forEach_from (scoreCue responses) pmCues 0 blockResults.

(** The object [calculateFinalResults] returns. *)
Record FinalResults := mkFinalResults {
  f_nBackCorrect : nat;
  f_nBackMissed : nat;
  f_nBackFalseAlarms : nat;
  f_pmCueCorrect : nat;
  f_pmCueMissed : nat;
  f_pmCueFalseAlarms : nat;
  f_totalImages : nat;
  f_totalPMCues : nat;
  f_totalNBackMatches : nat;
  f_nBackAccuracy : string;
  f_pmCueAccuracy : string;
  f_sessionResults : list BlockResult
}.

(** The nine [let] totals of [calculateFinalResults]. *)
Record Totals := mkTotals {
  totalNBackCorrect : nat;
  totalNBackMissed : nat;
  totalNBackFalseAlarms : nat;
  totalPMCueCorrect : nat;
  totalPMCueMissed : nat;
  totalPMCueFalseAlarms : nat;
  t_totalImages : nat;
  t_totalPMCues : nat;
  t_totalNBackMatches : nat
}.

(** The callback of [currentSessionData.forEach((block) => ...)]. *)
Definition addBlock (t : Totals) (block : BlockResult) : Totals :=
  mkTotals
    (totalNBackCorrect t + nBackCorrect block)
    (totalNBackMissed t + nBackMissed block)
    (totalNBackFalseAlarms t + nBackFalseAlarms block)
    (totalPMCueCorrect t + pmCueCorrect block)
    (totalPMCueMissed t + pmCueMissed block)
    (totalPMCueFalseAlarms t + pmCueFalseAlarms block)
    (t_totalImages t + totalImages block)
    (t_totalPMCues t + totalPMCues block)
    (t_totalNBackMatches t + totalNBackMatches block).

(** [calculateFinalResults(currentSessionData)] *)
Definition calculateFinalResults (currentSessionData : list BlockResult) : FinalResults :=
  let t := fold_left addBlock currentSessionData (mkTotals 0 0 0 0 0 0 0 0 0) in
  let nBackAccuracy := accuracy (totalNBackCorrect t) (t_totalNBackMatches t) in
  let pmCueAccuracy := accuracy (totalPMCueCorrect t) (t_totalPMCues t) in
  mkFinalResults (totalNBackCorrect t) (totalNBackMissed t) (totalNBackFalseAlarms t)
    (totalPMCueCorrect t) (totalPMCueMissed t) (totalPMCueFalseAlarms t)
    (t_totalImages t) (t_totalPMCues t) (t_totalNBackMatches t)
    nBackAccuracy pmCueAccuracy currentSessionData.

(** The state that [moveToNextSession] and the block-end branch of
    [handleKeyPress] read and set, the phase and the flags of the
    presentation apart; [completed] lists the calls of [onComplete]. *)
Record Progress := mkProgress {
  currentBlock : nat;
  currentSessionIndex : nat;
  blockResults : list BlockResult;
  isExperimentActive : bool;
  completed : list FinalResults
}.

(** The initial values of the state. *)
Definition initialProgress : Progress := mkProgress 0 0 [] true [].

(** [moveToNextSession()] *)
Definition moveToNextSession (p : Progress) : Progress :=
  if currentSessionIndex p <? 2 then
    mkProgress (currentBlock p) (currentSessionIndex p + 1) (blockResults p)
      (isExperimentActive p) (completed p)
  else if currentBlock p <? 2 then
    mkProgress (currentBlock p + 1) 0 (blockResults p) (isExperimentActive p) (completed p)
  else
    let results := calculateFinalResults (blockResults p) in
    mkProgress (currentBlock p) (currentSessionIndex p) (blockResults p) false
      (completed p ++ [results]).

(** The space bar at the end of a session: [setBlockResults(prev =>
    [...prev, currentBlockPerformance])], then [moveToNextSession()], which
    reads the [blockResults] of the render the handler belongs to. *)
Definition closeSession (currentBlockPerformance : BlockResult) (p : Progress) : Progress :=
  let moved := moveToNextSession p in
  mkProgress (currentBlock moved) (currentSessionIndex moved)
    (blockResults p ++ [currentBlockPerformance])
    (isExperimentActive moved) (completed moved).

(** The blocks and session indices the component goes through from [p]
    on, by at most [fuel] calls of [moveToNextSession]. *)
Fixpoint visits (fuel : nat) (p : Progress) : list (nat * nat) :=
  (currentBlock p, currentSessionIndex p) ::
  match fuel with
  | 0 => []
  | S fuel' =>
      let moved := moveToNextSession p in
      if isExperimentActive moved then visits fuel' moved else []
  end.

End TwoBack.

(** The picture of trial [index] is the picture two trials back. *)
Definition isTwoBackMatch (trials : list Trial) (index : nat) : bool :=
  (2 <=? index) &&
  match trials !! index, trials !! (index - 2) with
  | Some t, Some earlier => String.eqb (src t) (src earlier)
  | _, _ => false
  end.

(** ** The page

    [Index] shows the introduction, the task or the results, by its
    [phase].  The task is mounted while the phase is ['task']: it starts
    from its initial state when the phase becomes ['task'], and its state
    is dropped when the phase leaves ['task']. *)

Module Index.

(** ['intro' | 'task' | 'results'] *)
Inductive Phase := phaseIntro | phaseTask | phaseResults.

(** The [results] state: the object literal of [useState] and of
    [restartExperiment], whose [sessionResults] is [{}], or the object the
    task gave to [onComplete]. *)
Inductive ShownResults :=
| placeholder
| handed (experimentResults : Results).

Record State := mkState {
  phase : Phase;
  results : ShownResults;
  mounted : option ExperimentTask.State   (* the state of [<ExperimentTask />] *)
}.

(** The initial values of the [useState] cells; nothing but the
    introduction is rendered. *)
Definition initialState : State := mkState phaseIntro placeholder None.

(** [startExperiment()] *)
Definition startExperiment (s : State) : State :=
  mkState phaseTask (results s) (mounted s).

(** [endExperiment(experimentResults)] *)
Definition endExperiment (experimentResults : Results) (s : State) : State :=
  mkState phaseResults (handed experimentResults) (mounted s).

(** [restartExperiment()] *)
Definition restartExperiment (s : State) : State :=
  mkState phaseIntro placeholder (mounted s).

(** [{phase === 'task' && <ExperimentTask onComplete={endExperiment} />}] *)
Definition render (s : State) : State :=
  match phase s with
  | phaseTask =>
      match mounted s with
      | Some _ => s
      | None => mkState (phase s) (results s) (Some ExperimentTask.initialState)
      end
  | _ => mkState (phase s) (results s) None
  end.

(** The results the task gave to [onComplete] between two of its
    states. *)
Definition handedOver (before after : ExperimentTask.State) : list Results :=
  drop (length (ExperimentTask.completed before)) (ExperimentTask.completed after).

(** A click on [Start] (rendered by the introduction), an event of the
    mounted task, a click on [Try Again] (rendered by the results). *)
Inductive Event :=
| ClickStart
| TaskEvent (ev : DebugControls.Event)
| ClickTryAgain.

Definition handle (s : State) (ev : Event) : State :=
  match ev with
  | ClickStart =>
      match phase s with
      | phaseIntro => startExperiment s
      | _ => s
      end
  | TaskEvent ev =>
      match mounted s with
      | Some st =>
          let st' := DebugControls.step st ev in
          let s' := mkState (phase s) (results s) (Some st') in
          match handedOver st st' with
          | experimentResults :: _ => endExperiment experimentResults s'
          | [] => s'
          end
      | None => s
      end
  | ClickTryAgain =>
      match phase s with
      | phaseResults => restartExperiment s
      | _ => s
      end
  end.

Definition step (s : State) (ev : Event) : State := render (handle s ev).

Definition run (s : State) (evs : list Event) : State := fold_left step evs s.

End Index.

(** What holds of the page whatever happened. *)
Definition PageInv (p : Index.State) : Prop :=
  match Index.phase p with
  | Index.phaseIntro => Index.results p = Index.placeholder /\ Index.mounted p = None
  | Index.phaseTask =>
      Index.results p = Index.placeholder /\
      exists st, Index.mounted p = Some st /\ DebugControls.reachable st /\
                 ExperimentTask.completed st = []
  | Index.phaseResults =>
      Index.mounted p = None /\
      exists r, Index.results p = Index.handed r /\ consistent r
  end.

(** ** The pools of cues and images *)

(** The cues of the three blocks of the three sessions:
    [pleasantPMCuesByBlock], [neutralPMCuesByBlock] and
    [unpleasantPMCuesByBlock]. *)
Definition allCues : list Trial :=
  concat (map (fun sessionType =>
                 let byBlock := Generator.generatePMCuesByBlock sessionType in
                 Generator.block1 byBlock ++ Generator.block2 byBlock
                 ++ Generator.block3 byBlock)
            [pleasant; neutral; unpleasant]).

(** [pleasantImages], [neutralImages] and [unpleasantImages]. *)
Definition allImages : list string :=
  concat (map Generator.imagesOf [pleasant; neutral; unpleasant]).

(** ** States and runs the properties are instantiated at *)

Module Scenarios.

Import ExperimentTask.

(** The debug button [Block 3] is clicked on the fresh component. *)
Definition lastBlockSelected : State :=
  DebugControls.run initialState [DebugControls.SelectBlock DebugControls.Block3].

(** Trial 0 is on screen and [Pause] is clicked. *)
Definition paused : State := step Examples.firstImage TogglePause.

(** The fixation of trial 1, nothing pressed yet. *)
Definition unansweredFixation : State :=
  run initialState
    (Examples.toFirstImage ++ [ProgressionTimeout; ProgressionTimeout; ProgressionTimeout]).


(** From the loading of the block of five trials to the end of the
    block. *)
Definition toBlockEnd : list Event :=
  Examples.toThirdImage ++
  [ProgressionTimeout; ProgressionTimeout; ProgressionTimeout; ProgressionTimeout;
   ProgressionTimeout; KeyDown "z"; ResponseTimeout 0].

(** The last block of the neutral session, chosen with the debug buttons,
    has run to its end and waits for the space bar. *)
Definition lastBlockEnded : State :=
  DebugControls.run initialState
    ([DebugControls.SelectSession neutral; DebugControls.SelectBlock DebugControls.Block3]
     ++ map DebugControls.Task toBlockEnd).

(** The session has been ended with the button. *)
Definition ended : State := run initialState Examples.answer23Of160.

(** ['n'] recorded for trial 2. *)
Definition repeatAnswered : gmap Z (list string) := {[ 2%Z := ["n"] ]}.

(** The same, and an entry for an index the block of five does not have. *)
Definition repeatAnsweredAndStray : gmap Z (list string) :=
  <[ 7%Z := ["z"] ]> repeatAnswered.

(** Eight sessions of the other revision, each scored with one match
    answered and the six cues answered. *)
Definition eightSessions : list TwoBack.BlockResult :=
  repeat (TwoBack.mkBlockResult 1 0 0 6 0 0 70 6 1 pleasant) 8.

(** A ninth session in which the match was missed. *)
Definition ninthSession : TwoBack.BlockResult :=
  TwoBack.mkBlockResult 0 1 0 6 0 0 70 6 1 neutral.

End Scenarios.

(** * Properties *)

(** ** The scorer *)

Section ScorerFacts.

Variable s : Store.

Lemma scoreNBack_store c t index rs :
  snd (scoreNBack c t index rs s) = s.
Proof.
  unfold scoreNBack, bind, read_trial, ret.
  destruct (0 <? index); [|reflexivity].
  destruct (st_trials s !! (index - 1)); [|reflexivity].
  repeat match goal with |- context [if ?b then _ else _] => destruct b end; reflexivity.
Qed.

Lemma scoreTrial_store c t index :
  snd (scoreTrial c t index s) = s.
Proof.
  unfold scoreTrial, bind, read_responses, ret.
  pose proof (scoreNBack_store c t index (default [] (st_responses s !! Z.of_nat index))) as H.
  destruct (scoreNBack c t index _ s) as [c1 s1]. simpl in *. now subst.
Qed.

Lemma forEach_store arr : forall index acc,
  snd (forEach_from scoreTrial arr index acc s) = s.
Proof.
  induction arr as [|x rest IH]; intros index acc; [reflexivity|].
  simpl. unfold bind.
  pose proof (scoreTrial_store acc x index) as H.
  destruct (scoreTrial acc x index s) as [acc' s']. simpl in H. subst s'.
  apply IH.
Qed.

End ScorerFacts.

Lemma countFrom_S from n p :
  countFrom from (S n) p = (if p from then 1 else 0) + countFrom (S from) n p.
Proof. unfold countFrom. simpl. destruct (p from); reflexivity. Qed.

Lemma countFrom_0 from p : countFrom from 0 p = 0.
Proof. reflexivity. Qed.

Lemma countFrom_app from n m p :
  countFrom from (n + m) p = countFrom from n p + countFrom (from + n) m p.
Proof.
  unfold countFrom. rewrite seq_app, List.filter_app, length_app. reflexivity.
Qed.

Lemma countFrom_ext from n p q :
  (forall i, from <= i < from + n -> p i = q i) ->
  countFrom from n p = countFrom from n q.
Proof.
  revert from. induction n as [|n IH]; intros from H; [reflexivity|].
  rewrite !countFrom_S, (H from) by lia. f_equal. apply IH. intros i Hi. apply H. lia.
Qed.

Lemma countFrom_false from n p :
  (forall i, from <= i < from + n -> p i = false) -> countFrom from n p = 0.
Proof.
  revert from. induction n as [|n IH]; intros from H; [reflexivity|].
  rewrite countFrom_S, (H from) by lia. simpl. apply IH. intros i Hi. apply H. lia.
Qed.

Lemma countFrom_le from n p : countFrom from n p <= n.
Proof.
  revert from. induction n as [|n IH]; intros from; [reflexivity|].
  rewrite countFrom_S. specialize (IH (S from)). destruct (p from); lia.
Qed.

(** The match test of the callback is [isOneBackMatch] at that index. *)
Lemma isOneBackMatch_at (trials : list Trial) (index : nat) (t p : Trial) :
  0 < index ->
  trials !! index = Some t ->
  trials !! (index - 1) = Some p ->
  isOneBackMatch trials (Z.of_nat index) = String.eqb (id t) (id p).
Proof.
  intros Hpos Ht Hp. unfold isOneBackMatch.
  pose proof (lookup_lt_Some _ _ _ Ht) as Hlt.
  destruct (Z.leb_spec (Z.of_nat index) 0); [lia|].
  destruct (Z.leb_spec (Z.of_nat (length trials)) (Z.of_nat index)); [lia|].
  simpl. rewrite Nat2Z.id.
  replace (Z.to_nat (Z.of_nat index - 1)) with (index - 1) by lia.
  now rewrite Ht, Hp.
Qed.

Lemma isOneBackMatch_0 (trials : list Trial) : isOneBackMatch trials 0 = false.
Proof. reflexivity. Qed.

(** One run of the callback scores exactly its own position. *)
Lemma scoreTrial_counts (s : Store) (acc : Counters) (t : Trial) (index : nat) :
  st_trials s !! index = Some t ->
  fst (scoreTrial acc t index s) = bump (st_trials s) (st_responses s) acc index 1.
Proof.
  intros Ht. unfold bump. rewrite !countFrom_S, !countFrom_0.
  unfold nBackHit, nBackMiss, nBackFalseAlarm, cueHit, cueMiss, cueFalseAlarm,
    recorded, cueAt.
  rewrite Ht.
  unfold scoreTrial, bind, read_responses, ret, scoreNBack, bind, read_trial, ret, scorePMCue.
  set (rs := default [] (st_responses s !! Z.of_nat index)).
  destruct (Nat.ltb_spec 0 index) as [Hpos|Hz].
  - assert (is_Some (st_trials s !! (index - 1))) as [p Hp].
    { apply lookup_lt_is_Some. apply lookup_lt_Some in Ht. lia. }
    rewrite Hp, (isOneBackMatch_at _ _ _ _ Hpos Ht Hp).
    destruct acc as [a1 a2 a3 a4 a5 a6].
    destruct (String.eqb (id t) (id p)), (JS.includes rs "n"),
      (isPMCue t), (JS.includes rs "z"); simpl; f_equal; lia.
  - assert (index = 0) by lia. subst index. rewrite isOneBackMatch_0.
    destruct acc as [a1 a2 a3 a4 a5 a6].
    destruct (JS.includes rs "n"), (isPMCue t), (JS.includes rs "z"); simpl; f_equal; lia.
Qed.

Lemma bump_bump trials responses acc from n :
  bump trials responses (bump trials responses acc from 1) (S from) n
  = bump trials responses acc from (S n).
Proof.
  unfold bump. simpl.
  rewrite !(countFrom_S from n), !(countFrom_S from 0), !countFrom_0.
  f_equal; lia.
Qed.

(** The whole [forEach], from any position on. *)
Lemma forEach_counts (s : Store) (arr : list Trial) : forall (pre : list Trial) (acc : Counters),
  st_trials s = pre ++ arr ->
  fst (forEach_from scoreTrial arr (length pre) acc s)
  = bump (st_trials s) (st_responses s) acc (length pre) (length arr).
Proof.
  induction arr as [|x rest IH]; intros pre acc Heq.
  - simpl. unfold bump. rewrite !countFrom_0. destruct acc; simpl; f_equal; lia.
  - simpl. unfold bind.
    assert (st_trials s !! length pre = Some x) as Hx.
    { rewrite Heq. rewrite lookup_app_r by lia. now rewrite Nat.sub_diag. }
    pose proof (scoreTrial_counts s acc x (length pre) Hx) as Hc.
    pose proof (scoreTrial_store s acc x (length pre)) as Hs.
    destruct (scoreTrial acc x (length pre) s) as [acc' s']. simpl in Hc, Hs. subst s' acc'.
    specialize (IH (pre ++ [x]) (bump (st_trials s) (st_responses s) acc (length pre) 1)).
    rewrite length_app in IH. simpl in IH. rewrite Nat.add_1_r in IH.
    rewrite IH by (rewrite Heq, <- app_assoc; reflexivity).
    apply bump_bump.
Qed.

Lemma filteri_from_count (trials arr : list Trial) : forall pre : list Trial,
  trials = pre ++ arr ->
  length (JS.filteri_from
            (fun t index =>
               (0 <? index) &&
               match trials !! (index - 1) with
               | Some p => String.eqb (id t) (id p)
               | None => false
               end) arr (length pre))
  = countFrom (length pre) (length arr) (fun i => isOneBackMatch trials (Z.of_nat i)).
Proof.
  induction arr as [|x rest IH]; intros pre Heq; [reflexivity|].
  assert (trials !! length pre = Some x) as Hx.
  { rewrite Heq, lookup_app_r by lia. now rewrite Nat.sub_diag. }
  specialize (IH (pre ++ [x])). rewrite length_app in IH. simpl in IH.
  rewrite Nat.add_1_r in IH.
  simpl JS.filteri_from. change (length (x :: rest)) with (S (length rest)).
  rewrite countFrom_S.
  assert (((0 <? length pre) &&
           match trials !! (length pre - 1) with
           | Some p => String.eqb (id x) (id p)
           | None => false
           end) = isOneBackMatch trials (Z.of_nat (length pre))) as ->.
  { destruct (Nat.ltb_spec 0 (length pre)) as [Hpos|Hz].
    - assert (is_Some (trials !! (length pre - 1))) as [p Hp].
      { apply lookup_lt_is_Some. apply lookup_lt_Some in Hx. lia. }
      rewrite Hp. simpl. symmetry. now apply isOneBackMatch_at.
    - assert (length pre = 0) as -> by lia. reflexivity. }
  destruct (isOneBackMatch trials (Z.of_nat (length pre))); simpl;
    rewrite IH by (rewrite Heq, <- app_assoc; reflexivity); reflexivity.
Qed.

Lemma adjacentRepeats_count (trials : list Trial) :
  adjacentRepeats trials
  = countPositions (length trials) (fun i => isOneBackMatch trials (Z.of_nat i)).
Proof. apply (filteri_from_count trials trials []). reflexivity. Qed.

Lemma filter_count (trials arr : list Trial) (f : Trial -> bool) (p : nat -> bool) :
  forall pre : list Trial,
  trials = pre ++ arr ->
  (forall i t, trials !! i = Some t -> p i = f t) ->
  length (List.filter f arr) = countFrom (length pre) (length arr) p.
Proof.
  induction arr as [|x rest IH]; intros pre Heq Hp; [reflexivity|].
  assert (trials !! length pre = Some x) as Hx.
  { rewrite Heq, lookup_app_r by lia. now rewrite Nat.sub_diag. }
  specialize (IH (pre ++ [x])). rewrite length_app in IH. simpl in IH.
  rewrite Nat.add_1_r in IH.
  simpl List.filter. change (length (x :: rest)) with (S (length rest)).
  rewrite countFrom_S, (Hp _ _ Hx).
  destruct (f x); simpl; rewrite IH; auto; rewrite Heq, <- app_assoc; reflexivity.
Qed.

Lemma pmCueCount_count (trials : list Trial) :
  pmCueCount trials = countPositions (length trials) (cueAt trials).
Proof.
  apply (filter_count trials trials _ _ []); [reflexivity|].
  intros i t Ht. unfold cueAt. now rewrite Ht.
Qed.

(** The scorer leaves the store as it found it. *)
Lemma evaluateBlockPerformance_store (s : Store) :
  snd (evaluateBlockPerformance s) = s.
Proof.
  unfold evaluateBlockPerformance, bind, read_trials, ret.
  pose proof (forEach_store s (st_trials s) 0 zeroCounters) as H.
  destruct (forEach_from scoreTrial (st_trials s) 0 zeroCounters s) as [c s']. exact H.
Qed.

(** The tallies, position by position. *)
Lemma tallies_counts (s : Store) :
  let trials := st_trials s in
  let responses := st_responses s in
  let n := length trials in
  tallies s =
  mkBlockResult
    (countPositions n (nBackHit trials responses))
    (countPositions n (nBackMiss trials responses))
    (countPositions n (nBackFalseAlarm trials responses))
    (countPositions n (cueHit trials responses))
    (countPositions n (cueMiss trials responses))
    (countPositions n (cueFalseAlarm trials responses))
    (length (List.filter (fun t => negb (isPMCue t)) trials))
    (pmCueCount trials)
    (adjacentRepeats trials).
Proof.
  intros trials responses n.
  unfold tallies, evaluateBlockPerformance, bind, read_trials, ret.
  pose proof (forEach_counts s (st_trials s) [] zeroCounters eq_refl) as H.
  change (length (@nil Trial)) with 0 in H.
  destruct (forEach_from scoreTrial (st_trials s) 0 zeroCounters s) as [c s'].
  simpl fst in H. subst c. reflexivity.
Qed.

Lemma evaluateBlockPerformance_eq (s : Store) :
  evaluateBlockPerformance s = (tallies s, s).
Proof.
  unfold tallies. pose proof (evaluateBlockPerformance_store s) as H.
  destruct (evaluateBlockPerformance s) as [r s']. simpl in *. now subst.
Qed.

Lemma recorded_insert_ne responses key (k : Z) (rs : list string) (i : nat) :
  Z.of_nat i <> k ->
  recorded (<[k := rs]> responses) key i = recorded responses key i.
Proof. intros H. unfold recorded. rewrite lookup_insert_ne; [reflexivity|congruence]. Qed.

(** C1. The scorer classifies every position by the 1-back rule: position
    [i] is a repeat match exactly when [i >= 1] and [trials[i].id] equals
    [trials[i-1].id]; [nBackCorrect] counts the matches for which ['n'] was
    recorded, [nBackMissed] the matches for which it was not, and
    [nBackFalseAlarms] the positions [i >= 1] that are no match but have
    ['n'] recorded.  Position 0 is never scored for repeats: what was
    recorded for it changes none of the three counters. *)
Theorem scorer_one_back_rule (s : Store) :
  let trials := st_trials s in
  let responses := st_responses s in
  let n := length trials in
  (forall i : nat,
     isOneBackMatch trials (Z.of_nat i) =
     match trials !! i, trials !! (i - 1) with
     | Some t, Some p => bool_decide (1 <= i /\ id t = id p)
     | _, _ => false
     end) /\
  nBackCorrect (tallies s) =
    countPositions n (fun i => isOneBackMatch trials (Z.of_nat i) && recorded responses "n" i) /\
  nBackMissed (tallies s) =
    countPositions n (fun i => isOneBackMatch trials (Z.of_nat i)
                               && negb (recorded responses "n" i)) /\
  nBackFalseAlarms (tallies s) =
    countPositions n (fun i => (1 <=? i) && negb (isOneBackMatch trials (Z.of_nat i))
                               && recorded responses "n" i) /\
  (forall rs : list string,
     let s0 := mkStore trials (<[0%Z := rs]> responses) in
     nBackCorrect (tallies s0) = nBackCorrect (tallies s) /\
     nBackMissed (tallies s0) = nBackMissed (tallies s) /\
     nBackFalseAlarms (tallies s0) = nBackFalseAlarms (tallies s)).
Proof.
  intros trials responses n. split; [|split; [|split; [|split]]].
  - intros i. unfold isOneBackMatch.
    destruct (Z.leb_spec (Z.of_nat i) 0) as [Hz|Hpos]; simpl.
    + assert (i = 0) as -> by lia.
      change (0 - 1) with 0.
      destruct (trials !! 0); [|reflexivity].
      symmetry. apply bool_decide_eq_false. lia.
    + destruct (Z.leb_spec (Z.of_nat (length trials)) (Z.of_nat i)) as [Hge|Hlt]; simpl.
      * rewrite (lookup_ge_None_2 trials i) by lia. reflexivity.
      * rewrite Nat2Z.id. replace (Z.to_nat (Z.of_nat i - 1)) with (i - 1) by lia.
        destruct (trials !! i) as [t|]; [|reflexivity].
        destruct (trials !! (i - 1)) as [p|]; [|reflexivity].
        destruct (String.eqb_spec (id t) (id p)) as [He|Hne]; symmetry.
        -- apply bool_decide_eq_true. split; [lia|assumption].
        -- apply bool_decide_eq_false. intros [_ He]. contradiction.
  - rewrite tallies_counts. reflexivity.
  - rewrite tallies_counts. reflexivity.
  - rewrite tallies_counts. reflexivity.
  - intros rs s0. rewrite !tallies_counts. simpl.
    unfold countPositions. repeat split; apply countFrom_ext; intros i _;
      unfold nBackHit, nBackMiss, nBackFalseAlarm;
      (destruct i as [|i];
       [rewrite isOneBackMatch_0; reflexivity
       |rewrite recorded_insert_ne by lia; reflexivity]).
Qed.

(** C3. A non-cue trial with ['z'] recorded counts as [pmCueFalseAlarms]; a
    cue trial counts as [pmCueCorrect] when ['z'] was recorded for it and as
    [pmCueMissed] otherwise.  Every position falls under exactly one of the
    four cases (the fourth, a non-cue trial without ['z'], is not counted),
    so the three counters and the uncounted positions add up to the number
    of trials. *)
Theorem scorer_pm_cue_rule (s : Store) :
  let trials := st_trials s in
  let responses := st_responses s in
  let n := length trials in
  pmCueCorrect (tallies s) =
    countPositions n (fun i => cueAt trials i && recorded responses "z" i) /\
  pmCueMissed (tallies s) =
    countPositions n (fun i => cueAt trials i && negb (recorded responses "z" i)) /\
  pmCueFalseAlarms (tallies s) =
    countPositions n (fun i => negb (cueAt trials i) && recorded responses "z" i) /\
  (forall i : nat,
     Nat.b2n (cueHit trials responses i) + Nat.b2n (cueMiss trials responses i)
     + Nat.b2n (cueFalseAlarm trials responses i)
     + Nat.b2n (cueUnscored trials responses i) = 1) /\
  pmCueCorrect (tallies s) + pmCueMissed (tallies s) + pmCueFalseAlarms (tallies s)
  + countPositions n (cueUnscored trials responses) = n.
Proof.
  intros trials responses n. rewrite tallies_counts. simpl.
  split; [reflexivity|]. split; [reflexivity|]. split; [reflexivity|].
  assert (forall i : nat,
     Nat.b2n (cueHit trials responses i) + Nat.b2n (cueMiss trials responses i)
     + Nat.b2n (cueFalseAlarm trials responses i)
     + Nat.b2n (cueUnscored trials responses i) = 1) as Hone.
  { intros i. unfold cueHit, cueMiss, cueFalseAlarm, cueUnscored.
    destruct (cueAt trials i), (recorded responses "z" i); reflexivity. }
  split; [exact Hone|].
  fold trials responses n. unfold countPositions. generalize 0 at 1 2 3 4.
  induction n as [|n IH]; intros from; [reflexivity|].
  rewrite !countFrom_S. specialize (IH (S from)). specialize (Hone from).
  destruct (cueHit trials responses from), (cueMiss trials responses from),
    (cueFalseAlarm trials responses from), (cueUnscored trials responses from);
    simpl in Hone; try discriminate; lia.
Qed.

Lemma scoreBlock_eq (st : ExperimentTask.State) :
  ExperimentTask.scoreBlock st
  = (tallies (mkStore (ExperimentTask.trials st) (ExperimentTask.responses st)), st).
Proof.
  unfold ExperimentTask.scoreBlock. rewrite evaluateBlockPerformance_eq.
  destruct st; reflexivity.
Qed.

(** C10. Scoring is read-only: [evaluateBlockPerformance] returns the store
    of trials and responses it was given, so scoring a second time gives the
    same tallies; in the component, scoring leaves the state as it is, and
    the trials and responses an early exit has scored would be scored the
    same again. *)
Theorem scoring_is_read_only (s : Store) (st : ExperimentTask.State) :
  snd (evaluateBlockPerformance s) = s /\
  fst (evaluateBlockPerformance (snd (evaluateBlockPerformance s)))
  = fst (evaluateBlockPerformance s) /\
  snd (ExperimentTask.scoreBlock st) = st /\
  ExperimentTask.trials (ExperimentTask.endSessionAndShowResults st)
  = ExperimentTask.trials st /\
  ExperimentTask.responses (ExperimentTask.endSessionAndShowResults st)
  = ExperimentTask.responses st /\
  fst (ExperimentTask.scoreBlock (ExperimentTask.endSessionAndShowResults st))
  = fst (ExperimentTask.scoreBlock st).
Proof.
  assert (ExperimentTask.trials (ExperimentTask.endSessionAndShowResults st)
          = ExperimentTask.trials st /\
          ExperimentTask.responses (ExperimentTask.endSessionAndShowResults st)
          = ExperimentTask.responses st) as [Ht Hr].
  { unfold ExperimentTask.endSessionAndShowResults. rewrite scoreBlock_eq.
    destruct (_ && _); split; reflexivity. }
  rewrite !evaluateBlockPerformance_eq. simpl.
  repeat split; try assumption.
  - rewrite scoreBlock_eq. reflexivity.
  - rewrite !scoreBlock_eq. simpl. now rewrite Ht, Hr.
Qed.

(** ** The totals and the accuracy strings *)

Lemma countFrom_split from n (p q : nat -> bool) :
  countFrom from n (fun i => p i && q i) + countFrom from n (fun i => p i && negb (q i))
  = countFrom from n p.
Proof.
  revert from. induction n as [|n IH]; intros from; [reflexivity|].
  rewrite !countFrom_S. specialize (IH (S from)).
  destruct (p from), (q from); simpl; lia.
Qed.

Lemma balanced_tallies (s : Store) : balanced (tallies s).
Proof.
  unfold balanced. rewrite tallies_counts. simpl.
  rewrite adjacentRepeats_count, pmCueCount_count. unfold countPositions.
  split; apply countFrom_split.
Qed.

Lemma balanced_addBlock (acc b : BlockResult) :
  balanced acc -> balanced b -> balanced (addBlock acc b).
Proof. unfold balanced, addBlock. simpl. lia. Qed.

Lemma balanced_fold (blocks : list BlockResult) : forall acc : BlockResult,
  balanced acc -> Forall balanced blocks -> balanced (fold_left addBlock blocks acc).
Proof.
  induction blocks as [|b rest IH]; intros acc Hacc Hall; [exact Hacc|].
  simpl. inversion Hall; subst. apply IH; [now apply balanced_addBlock|assumption].
Qed.

Lemma fixTotal_balanced (correct missed : nat) :
  fixTotal (correct + missed) correct missed = correct + missed.
Proof.
  unfold fixTotal. destruct (Nat.eqb_spec (correct + missed) 0) as [H|H]; [|reflexivity].
  rewrite H. reflexivity.
Qed.

Lemma accurate_final (d : SessionResults) :
  Forall balanced (allBlocks d) -> accurate (withAccuracies (calculateFinalResults d)).
Proof.
  intros Hall.
  assert (balanced (fold_left addBlock (allBlocks d) (mkBlockResult 0 0 0 0 0 0 0 0 0))) as [H1 H2].
  { apply balanced_fold; [split; reflexivity|assumption]. }
  unfold accurate, withAccuracies, calculateFinalResults. simpl.
  rewrite <- H1, <- H2, !fixTotal_balanced. split; reflexivity.
Qed.

Lemma allBlocks_appendBlock (d : SessionResults) (session : SessionType) (b : BlockResult) :
  Forall balanced (allBlocks d) -> balanced b ->
  Forall balanced (allBlocks (appendBlock d session b)).
Proof.
  unfold allBlocks. intros H Hb.
  apply Forall_app in H as [Hp H]. apply Forall_app in H as [Hu Hn].
  destruct session; simpl; repeat (apply Forall_app; split); auto.
Qed.

(** ** The states of the component *)

Lemma Inv_initial : Inv ExperimentTask.initialState.
Proof.
  split; simpl; try constructor; try discriminate; try reflexivity.
  intros k H. rewrite lookup_empty in H. now destruct H.
Qed.

Lemma Inv_finishInitialization pm ts st :
  Inv st -> Inv (ExperimentTask.finishInitialization pm ts st).
Proof.
  intros [Hk Hc Hw Hb Ha]. split; simpl; auto.
  intros k H. rewrite lookup_empty in H. now destruct H.
Qed.

Lemma Inv_togglePause st : Inv st -> Inv (ExperimentTask.togglePause st).
Proof. intros [Hk Hc Hw Hb Ha]. split; simpl; auto. Qed.

Lemma Inv_responseTimeout j timers st :
  Inv st ->
  Inv (ExperimentTask.responseTimeout j (ExperimentTask.set_responseTimers timers st)).
Proof.
  intros [Hk Hc Hw Hb Ha]. split; simpl; auto.
  - intros k H. destruct (decide (k = (j + 1)%Z)) as [->|Hne].
    + rewrite lookup_delete_eq in H. now destruct H.
    + rewrite lookup_delete_ne in H by congruence. specialize (Hk k H). lia.
  - intros H. rewrite (Hc H). apply delete_empty.
Qed.

Lemma progressionRuns_not_waiting st :
  negb (ExperimentTask.progressionRuns st) = false ->
  ExperimentTask.waitingForSpacebarAfterPMCues st = false.
Proof.
  unfold ExperimentTask.progressionRuns. intros Hrun.
  destruct (ExperimentTask.waitingForSpacebarAfterPMCues st); [|reflexivity].
  rewrite !andb_false_r in Hrun. discriminate.
Qed.

Lemma keys_delete (responses : gmap Z (list string)) (bound j : Z) :
  (forall k, is_Some (responses !! k) -> (k <= bound)%Z) ->
  forall k, is_Some (delete j responses !! k) -> (k <= bound + 1)%Z.
Proof.
  intros Hk k H. destruct (decide (j = k)) as [->|Hne].
  - rewrite lookup_delete_eq in H. now destruct H.
  - rewrite lookup_delete_ne in H by congruence. specialize (Hk k H). lia.
Qed.

Lemma Inv_progressionTimeout st : Inv st -> Inv (ExperimentTask.progressionTimeout st).
Proof.
  intros HI. pose proof HI as [Hk Hc Hw Hb Ha].
  unfold ExperimentTask.progressionTimeout.
  destruct (negb (ExperimentTask.progressionRuns st)) eqn:Hrun; [exact HI|].
  pose proof (progressionRuns_not_waiting st Hrun) as Hnw.
  destruct (ExperimentTask.currentPhase st) eqn:Hph.
  - destruct (_ <? _); [|exact HI]. split; inv_side Hph Hnw.
  - destruct (_ <=? _)%Z; [exact HI|].
    destruct (negb (ExperimentTask.showFixation st)); split; inv_side Hph Hnw.
    now apply keys_delete.
  - exact HI.
  - split; inv_side Hph Hnw.
    intros k H. rewrite Hc in H by reflexivity.
    rewrite lookup_empty in H. now destruct H.
Qed.

Lemma Inv_progressionEffect st : Inv st -> Inv (ExperimentTask.progressionEffect st).
Proof.
  intros HI. pose proof HI as [Hk Hc Hw Hb Ha].
  unfold ExperimentTask.progressionEffect.
  destruct (negb (ExperimentTask.progressionRuns st)) eqn:Hrun; [exact HI|].
  pose proof (progressionRuns_not_waiting st Hrun) as Hnw.
  destruct (ExperimentTask.currentPhase st) eqn:Hph; try exact HI.
  - destruct (_ <? _); [exact HI|]. split; inv_side Hph Hnw.
  - destruct (_ <=? _)%Z; [|exact HI]. split; inv_side Hph Hnw.
Qed.

Lemma Inv_initializeBlockEffect before st :
  Inv st -> Inv (ExperimentTask.initializeBlockEffect before st).
Proof.
  intros HI. unfold ExperimentTask.initializeBlockEffect.
  destruct (_ && _); [exact HI|].
  destruct HI as [Hk Hc Hw Hb Ha]. split; simpl; auto.
Qed.

Lemma Inv_endSessionAndShowResults st :
  Inv st -> Inv (ExperimentTask.endSessionAndShowResults st).
Proof.
  intros [Hk Hc Hw Hb Ha]. unfold ExperimentTask.endSessionAndShowResults.
  rewrite scoreBlock_eq.
  destruct (_ && _); split; simpl; auto.
  - apply allBlocks_appendBlock; [assumption|apply balanced_tallies].
  - apply Forall_app. split; [assumption|]. constructor; [|constructor].
    apply accurate_final, allBlocks_appendBlock; [assumption|apply balanced_tallies].
  - apply Forall_app. split; [assumption|]. constructor; [|constructor].
    now apply accurate_final.
Qed.

Lemma lookup_recordResponse_ne (index k : Z) (key : string) (prev : gmap Z (list string)) :
  index <> k ->
  ExperimentTask.recordResponse index key prev !! k = prev !! k.
Proof.
  intros Hne. unfold ExperimentTask.recordResponse.
  destruct (negb _); [|reflexivity]. now rewrite lookup_insert_ne.
Qed.

Lemma Inv_handleKeyPress st e_key : Inv st -> Inv (ExperimentTask.handleKeyPress st e_key).
Proof.
  intros HI. pose proof HI as [Hk Hc Hw Hb Ha].
  unfold ExperimentTask.handleKeyPress.
  destruct (_ || _); [exact HI|].
  destruct (JS.toLowerCase e_key) as [key|]; [|exact HI].
  unfold ExperimentTask.handleKey.
  destruct (ExperimentTask.waitingForSpacebarAfterPMCues st && _) eqn:Hafter.
  { apply andb_prop in Hafter as [Hwait _]. specialize (Hw Hwait).
    split; inv_side Hw Hw. intros _. apply Hc. rewrite Hw. reflexivity. }
  destruct (ExperimentTask.waitingForSpacebar st && _).
  { rewrite scoreBlock_eq.
    assert (Forall balanced (allBlocks
              (appendBlock (ExperimentTask.sessionResults st) (ExperimentTask.currentSession st)
                 (tallies (mkStore (ExperimentTask.trials st) (ExperimentTask.responses st))))))
      as Hb' by (apply allBlocks_appendBlock; [assumption|apply balanced_tallies]).
    assert (forall k : Z, is_Some ((∅ : gmap Z (list string)) !! k) ->
                          (k <= ExperimentTask.currentTrialIndex st)%Z) as Hk'.
    { intros k H. rewrite lookup_empty in H. now destruct H. }
    destruct (_ <? 2); [split; inv_side Hw Hw|].
    destruct (ExperimentTask.currentSession st); split; inv_side Hw Hw.
    apply Forall_app. split; [assumption|]. constructor; [|constructor].
    now apply accurate_final. }
  destruct (_ && _ && _) eqn:Hrec; [|exact HI].
  destruct (_ || _); [|exact HI].
  apply andb_prop in Hrec as [Hrec _]. apply andb_prop in Hrec as [Hph _].
  destruct (ExperimentTask.currentPhase st) eqn:Hphase; try discriminate.
  split; inv_side Hphase Hphase; try (intros H; specialize (Hw H); discriminate).
  intros k H. destruct (decide (ExperimentTask.currentTrialIndex st = k)) as [<-|Hne]; [lia|].
  rewrite lookup_recordResponse_ne in H by assumption. now apply Hk.
Qed.

Lemma Inv_handle st ev : Inv st -> Inv (ExperimentTask.handle st ev).
Proof.
  intros HI. destruct ev as [e_key| |n| | |pm ts]; simpl.
  - now apply Inv_handleKeyPress.
  - now apply Inv_progressionTimeout.
  - destruct (_ !! n); [|assumption]. now apply Inv_responseTimeout.
  - now apply Inv_togglePause.
  - now apply Inv_endSessionAndShowResults.
  - now apply Inv_finishInitialization.
Qed.

Lemma Inv_step st ev : Inv st -> Inv (ExperimentTask.step st ev).
Proof.
  intros HI. unfold ExperimentTask.step.
  now apply Inv_progressionEffect, Inv_initializeBlockEffect, Inv_handle.
Qed.

Lemma Inv_run evs : forall st, Inv st -> Inv (ExperimentTask.run st evs).
Proof.
  induction evs as [|ev evs IH]; intros st HI; [exact HI|].
  simpl. apply IH. now apply Inv_step.
Qed.

Lemma reachable_Inv st : ExperimentTask.reachable st -> Inv st.
Proof. intros [evs ->]. apply Inv_run, Inv_initial. Qed.

Lemma reachable_step st ev :
  ExperimentTask.reachable st -> ExperimentTask.reachable (ExperimentTask.step st ev).
Proof.
  intros [evs ->]. exists (evs ++ [ev]).
  unfold ExperimentTask.run. now rewrite fold_left_app.
Qed.

(** ** Response capture *)

Lemma includes_snoc (arr : list string) (key : string) :
  JS.includes (arr ++ [key]) key = true.
Proof.
  unfold JS.includes. rewrite existsb_app. simpl.
  rewrite String.eqb_refl. now rewrite orb_true_r.
Qed.

Lemma recordResponse_recorded (index : Z) (key : string) (prev : gmap Z (list string)) :
  JS.includes (default [] (ExperimentTask.recordResponse index key prev !! index)) key = true.
Proof.
  unfold ExperimentTask.recordResponse.
  destruct (JS.includes (default [] (prev !! index)) key) eqn:H; simpl.
  - exact H.
  - rewrite lookup_insert_eq. simpl. apply includes_snoc.
Qed.

Lemma recordResponse_others (index : Z) (key : string) (prev : gmap Z (list string)) :
  delete index (ExperimentTask.recordResponse index key prev) = delete index prev.
Proof.
  unfold ExperimentTask.recordResponse.
  destruct (negb _); [|reflexivity]. apply delete_insert_eq.
Qed.

(** C6, as the code has it.  [handleKeyPress] records a response exactly
    when the component is in the trial phase with the fixation cross showing
    (not while the image is on), the experiment is active, neither paused
    nor loading, and the pressed key is, in lower case, ['n'] or ['z']; the
    key then is in the entry of the current index and every other entry is
    as before.  The space bar that closes a block empties the map; any other
    key press leaves it unchanged. *)
Theorem response_capture (st : ExperimentTask.State) (e_key : string) :
  ExperimentTask.responses (ExperimentTask.handleKeyPress st e_key) =
    (if recordsResponse st e_key
     then match JS.toLowerCase e_key with
          | Some key =>
              ExperimentTask.recordResponse (ExperimentTask.currentTrialIndex st)
                key (ExperimentTask.responses st)
          | None => ExperimentTask.responses st
          end
     else if closesBlock st e_key then ∅
     else ExperimentTask.responses st) /\
  (recordsResponse st e_key = true ->
   JS.toLowerCase e_key = Some "n" \/ JS.toLowerCase e_key = Some "z") /\
  (forall (index : Z) (key : string) (prev : gmap Z (list string)),
     JS.includes (default [] (ExperimentTask.recordResponse index key prev !! index)) key = true /\
     delete index (ExperimentTask.recordResponse index key prev) = delete index prev).
Proof.
  split; [|split].
  - unfold ExperimentTask.handleKeyPress, recordsResponse, closesBlock, isTrialPhase.
    destruct (ExperimentTask.isPaused st), (ExperimentTask.isLoading st); simpl; try reflexivity.
    destruct (JS.toLowerCase e_key) as [key|]; [|now rewrite !andb_false_r].
    unfold ExperimentTask.handleKey.
    destruct (ExperimentTask.waitingForSpacebarAfterPMCues st) eqn:Hw;
      destruct (String.eqb_spec key " ") as [Hsp|Hsp]; simpl.
    + rewrite Hsp. simpl. now rewrite !andb_false_r.
    + rewrite !andb_false_r. simpl.
      destruct (match ExperimentTask.currentPhase st with phaseTrial => true | _ => false end
                && ExperimentTask.showFixation st && ExperimentTask.isExperimentActive st);
        simpl; [|reflexivity].
      destruct (_ || _); reflexivity.
    + rewrite Hsp. simpl. rewrite !andb_false_r, !andb_true_r.
      destruct (ExperimentTask.waitingForSpacebar st); simpl.
      * rewrite scoreBlock_eq. destruct (_ <? 2); [reflexivity|].
        destruct (ExperimentTask.currentSession st); reflexivity.
      * destruct (_ && _ && _); reflexivity.
    + rewrite !andb_false_r. simpl.
      destruct (match ExperimentTask.currentPhase st with phaseTrial => true | _ => false end
                && ExperimentTask.showFixation st && ExperimentTask.isExperimentActive st);
        simpl; [|reflexivity].
      destruct (_ || _); reflexivity.
  - unfold recordsResponse. intros H. apply andb_prop in H as [_ H].
    destruct (JS.toLowerCase e_key) as [key|]; [|discriminate].
    apply orb_prop in H as [H|H]; apply String.eqb_eq in H; subst; auto.
  - intros index key prev. split.
    + apply recordResponse_recorded.
    + apply recordResponse_others.
Qed.

(** C6, as the claim has it, fails while the image is on: in the trial
    phase, not paused, with trial 0 on screen, pressing ['n'] records
    nothing.  It also fails for the space bar at the end of a block, which is
    another key and empties the map. *)
Lemma image_phase_press_not_recorded :
  specRecordsResponse Examples.firstImage "n" = true /\
  ExperimentTask.showFixation Examples.firstImage = false /\
  ExperimentTask.responses (ExperimentTask.handleKeyPress Examples.firstImage "n")
  = ExperimentTask.responses Examples.firstImage /\
  recorded (ExperimentTask.responses (ExperimentTask.handleKeyPress Examples.firstImage "n"))
    "n" 0 = false /\
  ExperimentTask.responses Examples.blockEnded <> ∅ /\
  ExperimentTask.responses (ExperimentTask.handleKeyPress Examples.blockEnded " ") = ∅.
Proof.
  repeat split; try (vm_compute; reflexivity).
  intros H. apply (f_equal (fun m : gmap Z (list string) => m !! 1%Z)) in H.
  vm_compute in H. discriminate.
Qed.

(** ** Response isolation *)




Lemma handleKeyPress_index st e_key :
  ExperimentTask.currentTrialIndex (ExperimentTask.handleKeyPress st e_key)
  = ExperimentTask.currentTrialIndex st.
Proof.
  unfold ExperimentTask.handleKeyPress.
  destruct (_ || _); [reflexivity|].
  destruct (JS.toLowerCase e_key) as [key|]; [|reflexivity].
  unfold ExperimentTask.handleKey.
  destruct (ExperimentTask.waitingForSpacebarAfterPMCues st && _); [reflexivity|].
  destruct (ExperimentTask.waitingForSpacebar st && _).
  { rewrite scoreBlock_eq. destruct (_ <? 2); [reflexivity|].
    destruct (ExperimentTask.currentSession st); reflexivity. }
  destruct (_ && _ && _); [|reflexivity].
  destruct (_ || _); reflexivity.
Qed.

Lemma endSessionAndShowResults_index st :
  ExperimentTask.currentTrialIndex (ExperimentTask.endSessionAndShowResults st)
  = ExperimentTask.currentTrialIndex st.
Proof.
  unfold ExperimentTask.endSessionAndShowResults. rewrite scoreBlock_eq.
  destruct (_ && _); reflexivity.
Qed.

Lemma beyond_index_None st (k : Z) :
  Inv st -> (ExperimentTask.currentTrialIndex st < k)%Z ->
  ExperimentTask.responses st !! k = None.
Proof.
  intros HI Hlt. destruct (ExperimentTask.responses st !! k) eqn:H; [|reflexivity].
  pose proof (inv_keys st HI k (mk_is_Some _ _ H)). lia.
Qed.

Lemma handle_index_change st ev :
  Inv st ->
  ExperimentTask.currentTrialIndex (ExperimentTask.handle st ev)
  = ExperimentTask.currentTrialIndex st \/
  ExperimentTask.responses (ExperimentTask.handle st ev)
    !! ExperimentTask.currentTrialIndex (ExperimentTask.handle st ev) = None.
Proof.
  intros HI. destruct ev as [e_key| |n| | |pm ts]; simpl.
  - left. apply handleKeyPress_index.
  - unfold ExperimentTask.progressionTimeout.
    destruct (negb _); [now left|].
    destruct (ExperimentTask.currentPhase st) eqn:Hph.
    + destruct (_ <? _); now left.
    + destruct (_ <=? _)%Z; [now left|].
      destruct (negb _); [now left|]. right. simpl. apply lookup_delete_eq.
    + now left.
    + right. simpl. rewrite (inv_cue_phase st HI) by (rewrite Hph; reflexivity).
      apply lookup_empty.
  - destruct (_ !! n) as [j|]; [|now left]. right. simpl.
    destruct (decide ((j + 1)%Z = (ExperimentTask.currentTrialIndex st + 1)%Z)) as [->|Hne].
    + apply lookup_delete_eq.
    + rewrite lookup_delete_ne by assumption. apply beyond_index_None; [assumption|lia].
  - now left.
  - left. apply endSessionAndShowResults_index.
  - right. simpl. apply lookup_empty.
Qed.




(** ** Ending the session early *)

Lemma isOneBackMatch_take (trials : list Trial) (k i : nat) :
  i < k -> isOneBackMatch (take k trials) (Z.of_nat i) = isOneBackMatch trials (Z.of_nat i).
Proof.
  intros Hik. unfold isOneBackMatch. rewrite length_take.
  destruct (Z.leb_spec (Z.of_nat i) 0) as [Hz|Hpos]; [reflexivity|]. simpl.
  destruct (Z.leb_spec (Z.of_nat (length trials)) (Z.of_nat i)) as [Hge|Hlt].
  - destruct (Z.leb_spec (Z.of_nat (k `min` length trials)) (Z.of_nat i)); [reflexivity|lia].
  - destruct (Z.leb_spec (Z.of_nat (k `min` length trials)) (Z.of_nat i)); [lia|].
    rewrite !lookup_take_lt by lia. reflexivity.
Qed.

Lemma cueAt_take (trials : list Trial) (k i : nat) :
  i < k -> cueAt (take k trials) i = cueAt trials i.
Proof. intros Hik. unfold cueAt. now rewrite lookup_take_lt. Qed.

Lemma recorded_beyond st (key : string) (i : nat) :
  Inv st -> (ExperimentTask.currentTrialIndex st < Z.of_nat i)%Z ->
  recorded (ExperimentTask.responses st) key i = false.
Proof.
  intros HI Hlt. unfold recorded. now rewrite (beyond_index_None st _ HI Hlt).
Qed.

Lemma countFrom_cut (k n : nat) (p : nat -> bool) :
  k <= n -> countFrom 0 n p = countFrom 0 k p + countFrom k (n - k) p.
Proof.
  intros Hk. replace n with (k + (n - k)) at 1 by lia. apply countFrom_app.
Qed.

(** Scoring the whole block against scoring its first [k] trials, when
    nothing is recorded from position [k] on. *)
Lemma tallies_take (trials : list Trial) (responses : gmap Z (list string)) (k : nat) :
  k <= length trials ->
  (forall (key : string) (i : nat), k <= i -> recorded responses key i = false) ->
  let whole := tallies (mkStore trials responses) in
  let seen := tallies (mkStore (take k trials) responses) in
  nBackCorrect whole = nBackCorrect seen /\
  nBackFalseAlarms whole = nBackFalseAlarms seen /\
  pmCueCorrect whole = pmCueCorrect seen /\
  pmCueFalseAlarms whole = pmCueFalseAlarms seen /\
  nBackMissed whole
  = nBackMissed seen
    + countFrom k (length trials - k) (fun i => isOneBackMatch trials (Z.of_nat i)) /\
  pmCueMissed whole = pmCueMissed seen + countFrom k (length trials - k) (cueAt trials).
Proof.
  intros Hk Hnone whole seen. unfold whole, seen. rewrite !tallies_counts. simpl.
  rewrite length_take_le by assumption. unfold countPositions.
  rewrite !(countFrom_cut k (length trials)) by assumption.
  assert (forall p q : nat -> bool,
            (forall i, i < k -> p i = q i) -> countFrom 0 k p = countFrom 0 k q) as Hpre.
  { intros p q H. apply countFrom_ext. intros i Hi. apply H. lia. }
  repeat split.
  - rewrite (countFrom_false k); [rewrite Nat.add_0_r; apply Hpre|].
    + intros i Hi. unfold nBackHit. now rewrite isOneBackMatch_take.
    + intros i Hi. unfold nBackHit. rewrite Hnone by lia. apply andb_false_r.
  - rewrite (countFrom_false k); [rewrite Nat.add_0_r; apply Hpre|].
    + intros i Hi. unfold nBackFalseAlarm. now rewrite isOneBackMatch_take.
    + intros i Hi. unfold nBackFalseAlarm. rewrite Hnone by lia. apply andb_false_r.
  - rewrite (countFrom_false k); [rewrite Nat.add_0_r; apply Hpre|].
    + intros i Hi. unfold cueHit. now rewrite cueAt_take.
    + intros i Hi. unfold cueHit. rewrite Hnone by lia. apply andb_false_r.
  - rewrite (countFrom_false k); [rewrite Nat.add_0_r; apply Hpre|].
    + intros i Hi. unfold cueFalseAlarm. now rewrite cueAt_take.
    + intros i Hi. unfold cueFalseAlarm. rewrite Hnone by lia. apply andb_false_r.
  - f_equal.
    + apply Hpre. intros i Hi. unfold nBackMiss. now rewrite isOneBackMatch_take.
    + apply countFrom_ext. intros i Hi. unfold nBackMiss.
      rewrite Hnone by lia. apply andb_true_r.
  - f_equal.
    + apply Hpre. intros i Hi. unfold cueMiss. now rewrite cueAt_take.
    + apply countFrom_ext. intros i Hi. unfold cueMiss.
      rewrite Hnone by lia. apply andb_true_r.
Qed.

(** C5, as the code has it.  When the session is ended during the trials of
    a block, the block appended to the session results is the score of the
    whole trial list against the responses captured so far, and the final
    results are computed from it.  Its hits and false alarms are those of
    the trials presented so far; its missed counters are those of the trials
    presented so far plus every repeat match and every cue at a position
    not yet visited. *)
Theorem early_exit_scores_whole_block (st : ExperimentTask.State) :
  ExperimentTask.reachable st ->
  ExperimentTask.currentPhase st = phaseTrial ->
  (0 <= ExperimentTask.currentTrialIndex st)%Z ->
  let st' := ExperimentTask.endSessionAndShowResults st in
  let trials := ExperimentTask.trials st in
  let whole := tallies (mkStore trials (ExperimentTask.responses st)) in
  let seen := tallies (mkStore (presented st) (ExperimentTask.responses st)) in
  let k := length (presented st) in
  ExperimentTask.sessionResults st'
  = appendBlock (ExperimentTask.sessionResults st) (ExperimentTask.currentSession st) whole /\
  ExperimentTask.results st'
  = withAccuracies (calculateFinalResults (ExperimentTask.sessionResults st')) /\
  ExperimentTask.completed st' = ExperimentTask.completed st ++ [ExperimentTask.results st'] /\
  nBackCorrect whole = nBackCorrect seen /\
  nBackFalseAlarms whole = nBackFalseAlarms seen /\
  pmCueCorrect whole = pmCueCorrect seen /\
  pmCueFalseAlarms whole = pmCueFalseAlarms seen /\
  nBackMissed whole
  = nBackMissed seen
    + countFrom k (length trials - k) (fun i => isOneBackMatch trials (Z.of_nat i)) /\
  pmCueMissed whole = pmCueMissed seen + countFrom k (length trials - k) (cueAt trials).
Proof.
  intros Hreach Hph Hidx st' trials whole seen k.
  pose proof (reachable_Inv st Hreach) as HI.
  assert (ExperimentTask.sessionResults st'
          = appendBlock (ExperimentTask.sessionResults st) (ExperimentTask.currentSession st) whole
          /\ ExperimentTask.results st'
             = withAccuracies (calculateFinalResults (ExperimentTask.sessionResults st'))
          /\ ExperimentTask.completed st'
             = ExperimentTask.completed st ++ [ExperimentTask.results st']) as (H1 & H2 & H3).
  { unfold st', ExperimentTask.endSessionAndShowResults. rewrite scoreBlock_eq, Hph.
    destruct (Z.leb_spec 0 (ExperimentTask.currentTrialIndex st)) as [_|]; [|lia].
    simpl. repeat split; reflexivity. }
  split; [exact H1|]. split; [exact H2|]. split; [exact H3|].
  unfold seen, k, presented. fold trials. rewrite length_take.
  set (a := Z.to_nat (ExperimentTask.currentTrialIndex st + 1)).
  destruct (Nat.le_gt_cases a (length trials)) as [Hle|Hgt].
  - rewrite Nat.min_l by assumption. apply tallies_take; [assumption|].
    intros key i Hi. apply recorded_beyond; [assumption|]. unfold a in Hi. lia.
  - rewrite Nat.min_r by lia. rewrite (take_ge trials a) by lia.
    rewrite Nat.sub_diag, !countFrom_0. fold whole. repeat split; lia.
Qed.

(** A state the component reaches, for the theorem on early exits: trial 2
    of five is on screen. *)
Lemma early_exit_scores_whole_block_witness :
  ExperimentTask.reachable Examples.thirdImage /\
  ExperimentTask.currentPhase Examples.thirdImage = phaseTrial /\
  (0 <= ExperimentTask.currentTrialIndex Examples.thirdImage)%Z /\
  ExperimentTask.sessionResults (ExperimentTask.endSessionAndShowResults Examples.thirdImage)
  = appendBlock (ExperimentTask.sessionResults Examples.thirdImage)
      (ExperimentTask.currentSession Examples.thirdImage)
      (tallies (mkStore (ExperimentTask.trials Examples.thirdImage)
                  (ExperimentTask.responses Examples.thirdImage))).
Proof.
  assert (ExperimentTask.reachable Examples.thirdImage) as Hreach by (eexists; reflexivity).
  assert (ExperimentTask.currentPhase Examples.thirdImage = phaseTrial) as Hph
    by (vm_compute; reflexivity).
  assert (0 <= ExperimentTask.currentTrialIndex Examples.thirdImage)%Z as Hidx
    by (vm_compute; discriminate).
  split; [exact Hreach|]. split; [exact Hph|]. split; [exact Hidx|].
  exact (proj1 (early_exit_scores_whole_block Examples.thirdImage Hreach Hph Hidx)).
Defined.

(** C5, as the claim has it, fails: with trial 0 of five on screen and
    nothing answered, ending the session scores the repeat at position 2 and
    the cue at position 3, neither yet visited, as missed, where the trials
    presented so far have no miss. *)
Lemma early_exit_counts_unvisited_trials :
  ExperimentTask.reachable Examples.firstImage /\
  ExperimentTask.currentPhase Examples.firstImage = phaseTrial /\
  ExperimentTask.currentTrialIndex Examples.firstImage = 0%Z /\
  presented Examples.firstImage = [Examples.imageA] /\
  exists b : BlockResult,
    blocksOf (ExperimentTask.sessionResults
                (ExperimentTask.step Examples.firstImage ExperimentTask.EndSession)) pleasant
    = [b] /\
    nBackMissed b = 1 /\ pmCueMissed b = 1 /\
    b <> tallies (mkStore (presented Examples.firstImage)
                    (ExperimentTask.responses Examples.firstImage)) /\
    nBackMissed (tallies (mkStore (presented Examples.firstImage)
                            (ExperimentTask.responses Examples.firstImage))) = 0 /\
    pmCueMissed (tallies (mkStore (presented Examples.firstImage)
                            (ExperimentTask.responses Examples.firstImage))) = 0.
Proof.
  split; [eexists; reflexivity|].
  repeat (split; [vm_compute; reflexivity|]).
  eexists. split; [vm_compute; reflexivity|].
  repeat split; try (vm_compute; reflexivity).
  vm_compute. discriminate.
Qed.

(** ** The accuracy strings *)

Lemma accurate_double (r : Results) :
  accurate r ->
  r_nBackAccuracy r = doublePercentage (r_nBackCorrect r) (r_nBackMissed r) /\
  r_pmCueAccuracy r = doublePercentage (r_pmCueCorrect r) (r_pmCueMissed r).
Proof. intros [H1 H2]. split; assumption. Qed.

Lemma agreement_below_160 : agreesBelow 160 = true.
Proof. vm_compute. reflexivity. Qed.

(** Below 160 scored targets the double-precision string is the exactly
    rounded percentage. *)
Lemma double_is_exact_below_160 (correct missed : nat) :
  correct + missed < 160 ->
  doublePercentage correct missed = exactPercentage correct missed.
Proof.
  intros Hlt. pose proof agreement_below_160 as H. unfold agreesBelow in H.
  rewrite forallb_forall in H. specialize (H (correct + missed)).
  rewrite forallb_forall in H.
  specialize (H ltac:(apply in_seq; lia) correct ltac:(apply in_seq; lia)).
  replace (correct + missed - correct) with missed in H by lia.
  now apply String.eqb_eq.
Qed.

(** C4, as the code has it.  In every object the component passes to
    [onComplete], at the end of the last block or on an early exit, each of
    the two accuracy strings is [toFixed(2)] of the double-precision value of
    [correct / (correct + missed) * 100], and ["0.00"] when
    [correct + missed] is zero; [correct = 8], [missed = 2] gives
    ["80.00"].  While [correct + missed] stays below 160 the string is the
    exact percentage rounded to two decimals. *)
Theorem final_accuracy_strings (st : ExperimentTask.State) (r : Results) :
  ExperimentTask.reachable st ->
  In r (ExperimentTask.completed st) ->
  r_nBackAccuracy r = doublePercentage (r_nBackCorrect r) (r_nBackMissed r) /\
  r_pmCueAccuracy r = doublePercentage (r_pmCueCorrect r) (r_pmCueMissed r) /\
  doublePercentage 8 2 = "80.00" /\
  doublePercentage 0 0 = "0.00" /\
  (forall correct missed : nat,
     correct + missed < 160 ->
     doublePercentage correct missed = exactPercentage correct missed).
Proof.
  intros Hreach Hin. pose proof (reachable_Inv st Hreach) as HI.
  pose proof (inv_accurate st HI) as Hall.
  rewrite List.Forall_forall in Hall. specialize (Hall r Hin).
  destruct (accurate_double r Hall) as [H1 H2].
  split; [exact H1|]. split; [exact H2|].
  split; [vm_compute; reflexivity|]. split; [vm_compute; reflexivity|].
  exact double_is_exact_below_160.
Qed.

(** A completed run, for the theorem on the accuracy strings. *)
Lemma final_accuracy_strings_witness :
  ExperimentTask.reachable (ExperimentTask.run ExperimentTask.initialState Examples.answer23Of160) /\
  In Examples.resultsOf23Of160
    (ExperimentTask.completed
       (ExperimentTask.run ExperimentTask.initialState Examples.answer23Of160)) /\
  r_nBackAccuracy Examples.resultsOf23Of160
  = doublePercentage (r_nBackCorrect Examples.resultsOf23Of160)
      (r_nBackMissed Examples.resultsOf23Of160).
Proof.
  assert (ExperimentTask.reachable
            (ExperimentTask.run ExperimentTask.initialState Examples.answer23Of160)) as Hreach
    by (eexists; reflexivity).
  assert (In Examples.resultsOf23Of160
            (ExperimentTask.completed
               (ExperimentTask.run ExperimentTask.initialState Examples.answer23Of160))) as Hin
    by (vm_compute; left; reflexivity).
  split; [exact Hreach|]. split; [exact Hin|].
  exact (proj1 (final_accuracy_strings _ _ Hreach Hin)).
Defined.

(** C4, as the claim has it, fails on a rounding tie: 23 correct and 137
    missed are 14.375 percent, which rounds to two decimals as 14.38; the
    double [23 / 160 * 100] is [8092405580431359 * 2^-49], just below
    14.375, and the component reports ["14.37"]. *)
Lemma accuracy_string_misses_tie :
  ExperimentTask.reachable (ExperimentTask.run ExperimentTask.initialState Examples.answer23Of160) /\
  ExperimentTask.completed (ExperimentTask.run ExperimentTask.initialState Examples.answer23Of160)
  = [Examples.resultsOf23Of160] /\
  r_nBackCorrect Examples.resultsOf23Of160 = 23 /\
  r_nBackMissed Examples.resultsOf23Of160 = 137 /\
  JS.mul (JS.div (JS.ofNat 23) (JS.ofNat (23 + 137))) (JS.ofNat 100)
  = S754_finite false 8092405580431359 (-49) /\
  r_nBackAccuracy Examples.resultsOf23Of160 = "14.37" /\
  exactPercentage 23 137 = "14.38" /\
  r_nBackAccuracy Examples.resultsOf23Of160
  <> exactPercentage (r_nBackCorrect Examples.resultsOf23Of160)
       (r_nBackMissed Examples.resultsOf23Of160).
Proof.
  split; [eexists; reflexivity|].
  repeat (split; [vm_compute; reflexivity|]).
  vm_compute. discriminate.
Qed.

(** ** The trial generator *)

Lemma length_splice_insert {A} (arr : list A) (pos : nat) (x : A) :
  length (JS.splice_insert arr pos x) = S (length arr).
Proof.
  unfold JS.splice_insert. rewrite length_app. simpl.
  rewrite length_take, length_drop. lia.
Qed.

Lemma lookup_splice_insert {A} (arr : list A) (pos : nat) (x : A) (i : nat) :
  pos <= length arr ->
  JS.splice_insert arr pos x !! i =
  if i <? pos then arr !! i else if i =? pos then Some x else arr !! (i - 1).
Proof.
  intros Hpos. unfold JS.splice_insert.
  destruct (Nat.ltb_spec i pos) as [Hlt|Hge].
  - rewrite lookup_app_l by (rewrite length_take; lia). now apply lookup_take_lt.
  - rewrite lookup_app_r by (rewrite length_take; lia).
    rewrite length_take, Nat.min_l by assumption.
    destruct (Nat.eqb_spec i pos) as [->|Hne].
    + now rewrite Nat.sub_diag.
    + destruct (i - pos) as [|d] eqn:Hd; [lia|]. simpl.
      rewrite lookup_drop. f_equal. lia.
Qed.

Lemma Forall_splice_insert {A} (P : A -> Prop) (arr : list A) (pos : nat) (x : A) :
  Forall P arr -> P x -> Forall P (JS.splice_insert arr pos x).
Proof.
  intros Harr Hx. unfold JS.splice_insert. apply Forall_app. split.
  - now apply Forall_take.
  - constructor; [assumption|now apply Forall_drop].
Qed.

Lemma splice_insert_perm {A} (arr : list A) (pos : nat) (x : A) :
  JS.splice_insert arr pos x ≡ₚ x :: arr.
Proof.
  unfold JS.splice_insert. rewrite <- Permutation_middle.
  now rewrite (take_drop pos arr).
Qed.

Lemma pmCueCount_perm (l1 l2 : list Trial) : l1 ≡ₚ l2 -> pmCueCount l1 = pmCueCount l2.
Proof.
  intros H. unfold pmCueCount. induction H; simpl; try congruence.
  - destruct (isPMCue x); simpl; congruence.
  - destruct (isPMCue x), (isPMCue y); reflexivity.
Qed.

Lemma pmCueCount_none (l : list Trial) :
  Forall (fun t => isPMCue t = false) l -> pmCueCount l = 0.
Proof.
  unfold pmCueCount. induction 1 as [|t l Ht _ IH]; [reflexivity|].
  simpl. now rewrite Ht.
Qed.

Lemma cueAt_none (l : list Trial) (i : nat) :
  Forall (fun t => isPMCue t = false) l -> cueAt l i = false.
Proof.
  intros H. unfold cueAt. destruct (l !! i) as [t|] eqn:Hi; [|reflexivity].
  rewrite Forall_lookup in H. exact (H i t Hi).
Qed.

(** What a returning shuffle returns is a permutation of what it was given. *)
Lemma shuffleInto_perm {A} (arr : list A) : forall (placed : list A) tape res rest,
  Generator.shuffleInto placed arr tape = Returned (res, rest) ->
  res ≡ₚ placed ++ arr.
Proof.
  induction arr as [|x arr IH]; intros placed tape res rest H; simpl in H.
  - injection H as <- _. now rewrite app_nil_r.
  - destruct tape as [|r tape]; [discriminate|].
    apply IH in H. rewrite H, splice_insert_perm. apply Permutation_middle.
Qed.

Lemma shuffle_perm {A} (arr : list A) tape res rest :
  Generator.shuffle arr tape = Returned (res, rest) -> res ≡ₚ arr.
Proof. intros H. now apply shuffleInto_perm in H. Qed.

Lemma shuffleInto_not_thrown {A} (arr : list A) : forall (placed : list A) tape e,
  Generator.shuffleInto placed arr tape <> Threw e.
Proof.
  induction arr as [|x arr IH]; intros placed tape e; simpl; [discriminate|].
  destruct tape; [discriminate|apply IH].
Qed.

Lemma shuffle_not_thrown {A} (arr : list A) tape e :
  Generator.shuffle arr tape = Threw e -> False.
Proof. apply shuffleInto_not_thrown. Qed.

(** The loop that inserts the repeats: what it returns. *)
Lemma insertRepeats_returned (P : Trial -> Prop) nBackMatches reference tape :
  forall arr used nBackCount arr' count' rest,
  Generator.insertRepeats nBackMatches reference arr used nBackCount tape
  = Returned (arr', count', rest) ->
  nBackCount <= nBackMatches ->
  Forall P arr ->
  count' = nBackMatches /\
  length arr' = length arr + (nBackMatches - nBackCount) /\
  Forall P arr'.
Proof.
  induction tape as [|r tape IH]; intros arr used nBackCount arr' count' rest H Hle HP;
    simpl in H.
  - destruct (Nat.leb_spec nBackMatches nBackCount); [|discriminate].
    injection H as <- <- _. repeat split; [lia|lia|assumption].
  - destruct (Nat.leb_spec nBackMatches nBackCount).
    { injection H as <- <- _. repeat split; [lia|lia|assumption]. }
    destruct (arr !! _) as [imageToRepeat|] eqn:Hsrc; [|discriminate].
    destruct (decide _).
    + now apply IH in H.
    + apply IH in H; [|lia|].
      * rewrite length_splice_insert in H. destruct H as (-> & -> & HP').
        repeat split; [lia|assumption].
      * apply Forall_splice_insert; [assumption|].
        rewrite Forall_lookup in HP. exact (HP _ _ Hsrc).
Qed.

(** The loop that places one cue: what it returns. *)
Lemma insertPMCue_returned tape : forall trials pmCue trials' rest,
  Generator.insertPMCue trials pmCue tape = Returned (trials', rest) ->
  exists insertPosition : nat,
    insertPosition <= length trials /\
    blockedPosition trials insertPosition = false /\
    trials' = JS.splice_insert trials insertPosition pmCue.
Proof.
  induction tape as [|r tape IH]; intros trials pmCue trials' rest H; simpl in H;
    [discriminate|].
  set (insertPosition := Generator.floorRandom r (length trials + 1)) in *.
  fold (blockedPosition trials insertPosition) in H.
  destruct (blockedPosition trials insertPosition) eqn:Hb.
  - now apply IH in H.
  - injection H as <- _. exists insertPosition. repeat split; [|assumption].
    unfold insertPosition, Generator.floorRandom.
    destruct (Nat.eqb_spec (length trials + 1) 0); [lia|].
    pose proof (Nat.mod_upper_bound r (length trials + 1)). lia.
Qed.

Lemma insertPMCue_not_thrown tape : forall trials pmCue e,
  Generator.insertPMCue trials pmCue tape <> Threw e.
Proof.
  induction tape as [|r tape IH]; intros trials pmCue e; simpl; [discriminate|].
  destruct (_ || _); [apply IH|discriminate].
Qed.

(** A cue placed at a position that passed the test keeps cues apart. *)
Lemma noAdjacentCues_splice (trials : list Trial) (pos : nat) (pmCue : Trial) :
  pos <= length trials ->
  blockedPosition trials pos = false ->
  noAdjacentCues trials ->
  noAdjacentCues (JS.splice_insert trials pos pmCue).
Proof.
  intros Hpos Hb Hno i. unfold blockedPosition in Hb.
  apply orb_false_elim in Hb as [Hbefore Hat].
  unfold cueAt. rewrite !lookup_splice_insert by assumption.
  destruct (Nat.ltb_spec i pos) as [Hi|Hi].
  - destruct (Nat.ltb_spec (S i) pos) as [Hsi|Hsi].
    + apply (Hno i).
    + assert (S i = pos) as Heq by lia. rewrite <- Heq, Nat.eqb_refl.
      rewrite <- Heq in Hbefore. simpl in Hbefore. rewrite Nat.sub_0_r in Hbefore.
      unfold cueAt in Hbefore. destruct (trials !! i); [|reflexivity].
      rewrite Hbefore. reflexivity.
  - destruct (Nat.ltb_spec (S i) pos); [lia|].
    destruct (Nat.eqb_spec (S i) pos); [lia|].
    replace (S i - 1) with i by lia.
    destruct (Nat.eqb_spec i pos) as [->|Hne].
    + destruct (Nat.ltb_spec pos (length trials)) as [Hlt|Hge].
      * simpl in Hat. unfold cueAt in Hat. rewrite Hat. apply andb_false_r.
      * rewrite (lookup_ge_None_2 trials pos) by lia. apply andb_false_r.
    + specialize (Hno (i - 1)). unfold cueAt in Hno.
      replace (S (i - 1)) with i in Hno by lia. exact Hno.
Qed.

Lemma pmCueCount_splice (trials : list Trial) (pos : nat) (pmCue : Trial) :
  pmCueCount (JS.splice_insert trials pos pmCue)
  = Nat.b2n (isPMCue pmCue) + pmCueCount trials.
Proof.
  rewrite (pmCueCount_perm _ _ (splice_insert_perm trials pos pmCue)).
  unfold pmCueCount. simpl. destruct (isPMCue pmCue); reflexivity.
Qed.

(** The [for] loop over the shuffled cues: what it returns. *)
Lemma insertPMCues_returned cues : forall trials tape trials' rest,
  Generator.insertPMCues trials cues tape = Returned (trials', rest) ->
  noAdjacentCues trials ->
  noAdjacentCues trials' /\
  length trials' = length trials + length cues /\
  pmCueCount trials' = pmCueCount trials + pmCueCount cues.
Proof.
  induction cues as [|c cues IH]; intros trials tape trials' rest H Hno; simpl in H.
  - injection H as <- _. repeat split; [assumption|simpl; lia|unfold pmCueCount; simpl; lia].
  - unfold Generator.gbind in H.
    destruct (Generator.insertPMCue trials c tape) as [[trials1 tape1]| |] eqn:H1;
      try discriminate.
    apply insertPMCue_returned in H1 as (pos & Hpos & Hb & ->).
    apply IH in H; [|now apply noAdjacentCues_splice].
    destruct H as (Hno' & Hlen & Hcount). split; [assumption|].
    rewrite length_splice_insert in Hlen. rewrite pmCueCount_splice in Hcount.
    split; [simpl; lia|].
    rewrite Hcount. unfold pmCueCount. simpl.
    destruct (isPMCue c); simpl; lia.
Qed.

Lemma insertPMCues_not_thrown cues : forall trials tape e,
  Generator.insertPMCues trials cues tape <> Threw e.
Proof.
  induction cues as [|c cues IH]; intros trials tape e; simpl; [discriminate|].
  unfold Generator.gbind.
  pose proof (insertPMCue_not_thrown tape trials c) as Hc.
  destruct (Generator.insertPMCue trials c tape) as [[trials1 tape1]|e'|];
    [apply IH|now destruct (Hc e')|discriminate].
Qed.

(** [regularImages]: seventy objects, none of them a cue. *)
Lemma regularImages_shape (sessionType : SessionType) (blockIndex : nat)
    (imageArray : list string) :
  let regularImages := imap (Generator.regularImage sessionType blockIndex) imageArray in
  length regularImages = length imageArray /\
  Forall (fun t => isPMCue t = false) regularImages.
Proof.
  intros regularImages. split; [apply length_imap|].
  apply Forall_lookup. intros i t Hi. unfold regularImages in Hi.
  rewrite list_lookup_imap in Hi. destruct (imageArray !! i); [|discriminate].
  simpl in Hi. injection Hi as <-. reflexivity.
Qed.

Lemma imagesOf_length (sessionType : SessionType) :
  length (Generator.imagesOf sessionType) = 76.
Proof.
  unfold Generator.imagesOf, Generator.generateImagePaths.
  now rewrite length_map, length_seq.
Qed.

Lemma noAdjacentCues_none (l : list Trial) :
  Forall (fun t => isPMCue t = false) l -> noAdjacentCues l.
Proof. intros H i. now rewrite (cueAt_none l i H). Qed.

(** What the main path of the generator returns, for any pools. *)
Lemma prepareSessionTrialsWith_returned cuesByBlock sessionType blockIndex tape ts rest :
  Generator.prepareSessionTrialsWith cuesByBlock sessionType blockIndex false tape
  = Returned (ts, rest) ->
  Generator.pmCues ts = Generator.selectPMCues cuesByBlock sessionType blockIndex /\
  noAdjacentCues (Generator.trials ts) /\
  pmCueCount (Generator.trials ts) = pmCueCount (Generator.pmCues ts) /\
  length (Generator.trials ts)
  = match Generator.nBackMatchesPerBlock !! blockIndex with
    | Some _ => 64 + length (Generator.pmCues ts)
    | None => length (Generator.pmCues ts)
    end.
Proof.
  unfold Generator.prepareSessionTrialsWith, Generator.gbind. intros H.
  destruct (Generator.shuffle (Generator.imagesOf sessionType) tape)
    as [[shuffledImages tape1]| |] eqn:Hsh; try discriminate.
  apply shuffle_perm in Hsh. apply Permutation_length in Hsh.
  rewrite imagesOf_length in Hsh.
  destruct (regularImages_shape sessionType blockIndex (firstn 70 shuffledImages))
    as [Hlen Hreg].
  rewrite length_take, Hsh in Hlen. simpl in Hlen.
  set (regularImages := imap _ (firstn 70 shuffledImages)) in *.
  set (selected := Generator.selectPMCues cuesByBlock sessionType blockIndex) in *.
  match type of H with
  | context [match ?m tape1 with Returned _ => _ | Threw _ => _ | Starved => _ end] =>
      destruct (m tape1) as [[[uniqueImages count] tape2]| |] eqn:Hrep; try discriminate
  end.
  assert (Forall (fun t => isPMCue t = false) uniqueImages /\
          length uniqueImages
          = match Generator.nBackMatchesPerBlock !! blockIndex with
            | Some _ => 64 | None => 0 end) as [Huniq Hulen].
  { destruct (Generator.nBackMatchesPerBlock !! blockIndex) as [nBackMatches|] eqn:Htab.
    - apply (insertRepeats_returned (fun t => isPMCue t = false)) in Hrep;
        [|lia|now apply Forall_take].
      destruct Hrep as (_ & Hl & HP). split; [assumption|].
      rewrite Hl, length_take, Hlen.
      destruct blockIndex as [|[|[|b]]]; simpl in Htab; try discriminate;
        injection Htab as <-; reflexivity.
    - injection Hrep as <- _ _. split; [constructor|reflexivity]. }
  simpl fst in H.
  destruct (Generator.shuffle selected tape2) as [[shuffledPMCues tape3]| |] eqn:Hsh2;
    try discriminate.
  apply shuffle_perm in Hsh2.
  destruct (Generator.insertPMCues uniqueImages shuffledPMCues tape3)
    as [[trials tape4]| |] eqn:Hins; try discriminate.
  injection H as <- _. simpl.
  apply insertPMCues_returned in Hins; [|now apply noAdjacentCues_none].
  destruct Hins as (Hno & Hl & Hc).
  rewrite (pmCueCount_none _ Huniq), (pmCueCount_perm _ _ Hsh2) in Hc.
  rewrite (Permutation_length Hsh2), Hulen in Hl.
  repeat split; try assumption.
  destruct (Generator.nBackMatchesPerBlock !! blockIndex); exact Hl.
Qed.

Lemma prepareSessionTrials_unfold (sessionType : SessionType) (blockIndex : nat)
    (isPractice : bool) :
  Generator.prepareSessionTrials sessionType blockIndex isPractice
  = Generator.prepareSessionTrialsWith Generator.generatePMCuesByBlock sessionType blockIndex
      isPractice.
Proof. reflexivity. Qed.

(** C7. In every trial list the main path of the generator returns, no two
    adjacent positions both hold cue trials: every position a cue is
    inserted at has no cue before it and no cue at it, and an insertion at
    such a position keeps the cues already placed apart. *)
Theorem generated_cues_not_adjacent (sessionType : SessionType) (blockIndex : nat)
    (tape : list nat) (ts : Generator.TrialSet) (rest : list nat) :
  Generator.prepareSessionTrials sessionType blockIndex false tape = Returned (ts, rest) ->
  (forall i : nat, cueAt (Generator.trials ts) i && cueAt (Generator.trials ts) (S i) = false) /\
  (forall (trials : list Trial) (pmCue : Trial) (draws : list nat)
          (trials' : list Trial) (left : list nat),
     Generator.insertPMCue trials pmCue draws = Returned (trials', left) ->
     exists insertPosition : nat,
       insertPosition <= length trials /\
       trials' = JS.splice_insert trials insertPosition pmCue /\
       (0 <? insertPosition) && cueAt trials (insertPosition - 1) = false /\
       cueAt trials insertPosition = false /\
       (noAdjacentCues trials -> noAdjacentCues trials')).
Proof.
  intros H. split.
  - rewrite prepareSessionTrials_unfold in H.
    apply prepareSessionTrialsWith_returned in H as (_ & Hno & _). exact Hno.
  - intros trials pmCue draws trials' left Hins.
    apply insertPMCue_returned in Hins as (pos & Hpos & Hb & ->).
    exists pos. split; [exact Hpos|]. split; [reflexivity|].
    pose proof Hb as Hb'. unfold blockedPosition in Hb'.
    apply orb_false_elim in Hb' as [Hbefore Hat].
    split; [exact Hbefore|]. split.
    + destruct (Nat.ltb_spec pos (length trials)) as [Hlt|Hge]; [exact Hat|].
      unfold cueAt. now rewrite (lookup_ge_None_2 trials pos) by lia.
    + now apply noAdjacentCues_splice.
Qed.

(** A returning call of the generator, for C7. *)
Lemma generated_cues_not_adjacent_witness :
  exists ts : Generator.TrialSet,
    Generator.prepareSessionTrials pleasant 0 false Examples.splitDraws = Returned (ts, []) /\
    forall i : nat, cueAt (Generator.trials ts) i && cueAt (Generator.trials ts) (S i) = false.
Proof.
  assert (exists ts, Generator.prepareSessionTrials pleasant 0 false Examples.splitDraws
                     = Returned (ts, [])) as [ts Hts].
  { eexists. vm_compute. reflexivity. }
  exists ts. split; [exact Hts|].
  exact (proj1 (generated_cues_not_adjacent pleasant 0 Examples.splitDraws ts [] Hts)).
Defined.

(** C2 at a concrete call: for block 0, whose configured repeat count is
    23, the generator returns 70 trials of which 6 are cues, but only 22
    positions repeat the id before them, because the first cue was spliced
    in between trial 0 and its repeat. *)
Theorem generator_splits_a_repeat_pair :
  exists ts : Generator.TrialSet,
    Generator.prepareSessionTrials pleasant 0 false Examples.splitDraws = Returned (ts, []) /\
    Generator.nBackMatchesPerBlock !! 0 = Some 23 /\
    length (Generator.trials ts) = 70 /\
    pmCueCount (Generator.trials ts) = 6 /\
    id <$> Generator.trials ts !! 0 = Some "pleasant-0-0" /\
    id <$> Generator.trials ts !! 1 = Some "pmcue-pleasant-block1-6" /\
    id <$> Generator.trials ts !! 2 = Some "pleasant-0-0" /\
    adjacentRepeats (Generator.trials ts) = 22.
Proof.
  eexists. split; [vm_compute; reflexivity|].
  repeat split; vm_compute; reflexivity.
Qed.


(** ** The generator returns *)

Lemma extendable_gret {A} (a : A) : extendable (Generator.gret a).
Proof. intros tape a' rest more H. injection H as <- <-. reflexivity. Qed.

Lemma extendable_gbind {A B} (m : Generator.Gen A) (k : A -> Generator.Gen B) :
  extendable m -> (forall a, extendable (k a)) -> extendable (Generator.gbind m k).
Proof.
  intros Hm Hk tape b rest more H. unfold Generator.gbind in *.
  destruct (m tape) as [[a tape1]| |] eqn:Hmt; try discriminate.
  rewrite (Hm _ _ _ more Hmt). now apply Hk.
Qed.

Lemma canReturn_gret {A} (a : A) : canReturn (Generator.gret a).
Proof. intros tape. exists [], a, (tape ++ []). reflexivity. Qed.

Lemma canReturn_gbind {A B} (m : Generator.Gen A) (k : A -> Generator.Gen B) :
  extendable m -> canReturn m ->
  (forall tape a rest, m tape = Returned (a, rest) -> canReturn (k a)) ->
  canReturn (Generator.gbind m k).
Proof.
  intros Hext Hm Hk tape.
  destruct (Hm tape) as (more1 & a & rest1 & H1).
  destruct (Hk _ _ _ H1 rest1) as (more2 & b & rest2 & H2).
  exists (more1 ++ more2), b, rest2. unfold Generator.gbind.
  rewrite app_assoc, (Hext _ _ _ more2 H1). exact H2.
Qed.

Lemma shuffleInto_extendable {A} (arr : list A) : forall placed,
  extendable (Generator.shuffleInto placed arr).
Proof.
  induction arr as [|x arr IH]; intros placed tape a rest more H; simpl in *.
  - injection H as <- <-. reflexivity.
  - destruct tape as [|r tape]; [discriminate|]. simpl. now apply IH.
Qed.

Lemma shuffleInto_canReturn {A} (arr : list A) : forall placed,
  canReturn (Generator.shuffleInto placed arr).
Proof.
  induction arr as [|x arr IH]; intros placed tape.
  - exists [], placed, (tape ++ []). reflexivity.
  - destruct tape as [|r tape].
    + destruct (IH (JS.splice_insert placed (Generator.floorRandom 0 (length placed + 1)) x) [])
        as (more & a & rest & H).
      exists (0 :: more), a, rest. exact H.
    + destruct (IH (JS.splice_insert placed (Generator.floorRandom r (length placed + 1)) x) tape)
        as (more & a & rest & H).
      exists more, a, rest. exact H.
Qed.

Lemma insertPMCue_extendable trials pmCue : extendable (Generator.insertPMCue trials pmCue).
Proof.
  intros tape. induction tape as [|r tape IH]; intros a rest more H; simpl in *;
    [discriminate|].
  destruct (_ || _); [now apply IH|]. injection H as <- <-. reflexivity.
Qed.

Lemma insertPMCues_extendable cues : forall trials,
  extendable (Generator.insertPMCues trials cues).
Proof.
  induction cues as [|c cues IH]; intros trials; simpl.
  - apply extendable_gret.
  - apply extendable_gbind; [apply insertPMCue_extendable|intros a; apply IH].
Qed.

Lemma insertRepeats_extendable nBackMatches reference : forall arr used nBackCount,
  extendable (Generator.insertRepeats nBackMatches reference arr used nBackCount).
Proof.
  intros arr used nBackCount tape. revert arr used nBackCount.
  induction tape as [|r tape IH]; intros arr used nBackCount a rest more H; simpl in H.
  - destruct (nBackMatches <=? nBackCount) eqn:Hle; [|discriminate].
    injection H as <- <-. destruct more; simpl; rewrite Hle; reflexivity.
  - simpl. destruct (nBackMatches <=? nBackCount); [injection H as <- <-; reflexivity|].
    destruct (arr !! _); [|discriminate].
    destruct (decide _); now apply IH.
Qed.

Lemma countFrom_or from n (p q : nat -> bool) :
  countFrom from n (fun i => p i || q i) <= countFrom from n p + countFrom from n q.
Proof.
  revert from. induction n as [|n IH]; intros from; [reflexivity|].
  rewrite !countFrom_S. specialize (IH (S from)). destruct (p from), (q from); simpl; lia.
Qed.

Lemma countFrom_shift from n (p : nat -> bool) :
  countFrom (S from) n (fun i => p (i - 1)) = countFrom from n p.
Proof.
  revert from. induction n as [|n IH]; intros from; [reflexivity|].
  rewrite !countFrom_S, IH. simpl. now rewrite Nat.sub_0_r.
Qed.

Lemma countFrom_free from n (p : nat -> bool) :
  countFrom from n p < n -> exists i, from <= i < from + n /\ p i = false.
Proof.
  revert from. induction n as [|n IH]; intros from H; [lia|].
  rewrite countFrom_S in H. destruct (p from) eqn:Hp.
  - destruct (IH (S from)) as (i & Hi & Hpi); [simpl in H; lia|].
    exists i. split; [lia|assumption].
  - exists from. split; [lia|assumption].
Qed.

(** At most two positions are closed per cue. *)
Lemma blocked_positions (trials : list Trial) :
  countFrom 0 (S (length trials)) (blockedPosition trials) <= 2 * pmCueCount trials.
Proof.
  unfold blockedPosition.
  etransitivity; [apply countFrom_or|].
  rewrite pmCueCount_count. unfold countPositions.
  assert (countFrom 0 (S (length trials))
            (fun i => (0 <? i) && cueAt trials (i - 1)) = countFrom 0 (length trials) (cueAt trials))
    as ->.
  { rewrite countFrom_S. simpl.
    rewrite <- (countFrom_shift 0 (length trials) (cueAt trials)).
    apply countFrom_ext. intros i Hi.
    destruct (Nat.ltb_spec 0 i); [reflexivity|lia]. }
  assert (countFrom 0 (S (length trials))
            (fun i => (i <? length trials) && cueAt trials i)
          <= countFrom 0 (length trials) (cueAt trials)); [|lia].
  replace (S (length trials)) with (length trials + 1) by lia.
  rewrite countFrom_app. simpl. rewrite countFrom_S, countFrom_0, Nat.ltb_irrefl. simpl.
  rewrite Nat.add_0_r.
  erewrite countFrom_ext; [reflexivity|].
  intros i Hi. simpl. destruct (Nat.ltb_spec i (length trials)); [reflexivity|lia].
Qed.

Lemma free_position (trials : list Trial) :
  2 * pmCueCount trials <= length trials ->
  exists pos : nat, pos <= length trials /\ blockedPosition trials pos = false.
Proof.
  intros H. pose proof (blocked_positions trials) as Hb.
  destruct (countFrom_free 0 (S (length trials)) (blockedPosition trials)) as (i & Hi & Hp);
    [lia|].
  exists i. split; [lia|assumption].
Qed.

Lemma insertPMCue_canReturn (trials : list Trial) (pmCue : Trial) :
  2 * pmCueCount trials <= length trials ->
  canReturn (Generator.insertPMCue trials pmCue).
Proof.
  intros Hfree tape. induction tape as [|r tape IH].
  - destruct (free_position trials Hfree) as (pos & Hpos & Hb).
    exists [pos], (JS.splice_insert trials pos pmCue), []. simpl.
    assert (Generator.floorRandom pos (length trials + 1) = pos) as ->.
    { unfold Generator.floorRandom.
      destruct (Nat.eqb_spec (length trials + 1) 0); [lia|].
      apply Nat.mod_small. lia. }
    fold (blockedPosition trials pos). now rewrite Hb.
  - simpl. fold (blockedPosition trials (Generator.floorRandom r (length trials + 1))).
    destruct (blockedPosition trials _).
    + exact IH.
    + now exists [], (JS.splice_insert trials
                     (Generator.floorRandom r (length trials + 1)) pmCue), (tape ++ []).
Qed.

Lemma insertPMCues_canReturn (cues : list Trial) : forall trials : list Trial,
  2 * pmCueCount trials + length cues <= length trials ->
  canReturn (Generator.insertPMCues trials cues).
Proof.
  induction cues as [|c cues IH]; intros trials Hfree; simpl.
  - apply canReturn_gret.
  - apply canReturn_gbind.
    + apply insertPMCue_extendable.
    + apply insertPMCue_canReturn. simpl in Hfree. lia.
    + intros tape trials1 rest H.
      apply insertPMCue_returned in H as (pos & Hpos & Hb & ->).
      apply IH. rewrite length_splice_insert, pmCueCount_splice.
      simpl in Hfree. destruct (isPMCue c); simpl; lia.
Qed.

Lemma floorRandom_small (q k : nat) : q < k -> Generator.floorRandom q k = q.
Proof.
  intros H. unfold Generator.floorRandom.
  destruct (Nat.eqb_spec k 0); [lia|]. now apply Nat.mod_small.
Qed.

Lemma floorRandom_bound (r k : nat) : Generator.floorRandom r k <= k - 1.
Proof.
  unfold Generator.floorRandom. destruct (Nat.eqb_spec k 0); [lia|].
  pose proof (Nat.mod_upper_bound r k). lia.
Qed.

Section RepeatLoop.

Variable reference : list Trial.
Variables unique nBackMatches : nat.
Hypothesis Hroom : nBackMatches + 1 <= unique.

(** Two images are left that no repeat was made of. *)
Lemma two_unused (used : gset Z) :
  size used + 2 <= unique ->
  exists k1 k2 : nat,
    k1 < unique /\ k2 < unique /\ k1 <> k2 /\ (Z.of_nat k1 ∉ used) /\ (Z.of_nat k2 ∉ used).
Proof.
  intros Hsize.
  set (N := list_to_set (Z.of_nat <$> seq 0 unique) : gset Z).
  assert (size N = unique) as HN.
  { unfold N. rewrite size_list_to_set.
    - now rewrite length_fmap, length_seq.
    - apply NoDup_fmap_2; [intros a b; apply Nat2Z.inj|apply NoDup_seq]. }
  assert (forall x, x ∈ N -> exists k, k < unique /\ x = Z.of_nat k) as HinN.
  { intros x Hx. unfold N in Hx. rewrite elem_of_list_to_set, list_elem_of_fmap in Hx.
    destruct Hx as (k & -> & Hk). apply elem_of_seq in Hk. exists k. split; [lia|reflexivity]. }
  assert (2 <= size (N ∖ used)) as HD.
  { pose proof (size_union_alt used N) as Hu.
    assert (size N <= size (used ∪ N)) by (apply subseteq_size; set_solver). lia. }
  destruct (size_pos_elem_of (N ∖ used)) as [x Hx]; [lia|].
  assert (1 <= size ((N ∖ used) ∖ {[x]})) as HD'.
  { pose proof (size_union_alt ({[x]} : gset Z) (N ∖ used)) as Hu.
    rewrite size_singleton in Hu.
    assert (size (N ∖ used) <= size ({[x]} ∪ (N ∖ used))) by (apply subseteq_size; set_solver).
    lia. }
  destruct (size_pos_elem_of ((N ∖ used) ∖ {[x]})) as [y Hy]; [lia|].
  destruct (HinN x) as (k1 & Hk1 & ->); [set_solver|].
  destruct (HinN y) as (k2 & Hk2 & ->); [set_solver|].
  exists k1, k2. repeat split; try assumption; [|set_solver|set_solver].
  intros ->. set_solver.
Qed.

Lemma repeatsInv_progress arr used nBackCount :
  repeatsInv reference unique arr used nBackCount ->
  nBackCount < nBackMatches ->
  exists (q : nat) (t : Trial),
    q < length arr - 1 /\ arr !! q = Some t /\ imageIndexIn reference t ∉ used.
Proof.
  intros (Hlen & Hall & Hsize) Hlt.
  destruct (two_unused used) as (k1 & k2 & Hk1 & Hk2 & Hne & Hu1 & Hu2); [lia|].
  destruct (Hall k1 Hk1) as (q1 & t1 & Hq1 & Ht1).
  destruct (Hall k2 Hk2) as (q2 & t2 & Hq2 & Ht2).
  assert (q1 <> q2) as Hq.
  { intros ->. rewrite Hq1 in Hq2. injection Hq2 as ->. lia. }
  pose proof (lookup_lt_Some _ _ _ Hq1). pose proof (lookup_lt_Some _ _ _ Hq2).
  destruct (Nat.lt_ge_cases q1 (length arr - 1)).
  - exists q1, t1. rewrite Ht1. repeat split; assumption.
  - exists q2, t2. rewrite Ht2. repeat split; [lia|assumption|assumption].
Qed.

Lemma repeatsInv_step arr used nBackCount (q : nat) (t : Trial) :
  repeatsInv reference unique arr used nBackCount ->
  arr !! q = Some t ->
  repeatsInv reference unique (JS.splice_insert arr (q + 1) t)
    ({[imageIndexIn reference t]} ∪ used) (S nBackCount).
Proof.
  intros (Hlen & Hall & Hsize) Hq. pose proof (lookup_lt_Some _ _ _ Hq) as Hlt.
  repeat split.
  - rewrite length_splice_insert. lia.
  - intros k Hk. destruct (Hall k Hk) as (q0 & t0 & Hq0 & Ht0).
    exists (if q0 <? q + 1 then q0 else S q0), t0. split; [|assumption].
    rewrite lookup_splice_insert by lia.
    destruct (Nat.ltb_spec q0 (q + 1)) as [Hl|Hg].
    + destruct (Nat.ltb_spec q0 (q + 1)); [assumption|lia].
    + destruct (Nat.ltb_spec (S q0) (q + 1)); [lia|].
      destruct (Nat.eqb_spec (S q0) (q + 1)); [lia|].
      simpl. now rewrite Nat.sub_0_r.
  - pose proof (size_union_alt ({[imageIndexIn reference t]} : gset Z) used) as Hu.
    rewrite size_singleton in Hu.
    assert (size (used ∖ {[imageIndexIn reference t]}) <= size used)
      by (apply subseteq_size; set_solver).
    lia.
Qed.

(** With no draw left, the loop can be fed draws that finish it. *)
Lemma insertRepeats_finish (n : nat) : forall arr used nBackCount,
  repeatsInv reference unique arr used nBackCount ->
  nBackMatches - nBackCount = n ->
  exists more a,
    Generator.insertRepeats nBackMatches reference arr used nBackCount more = Returned (a, []).
Proof.
  induction n as [|n IH]; intros arr used nBackCount HJ Hn.
  - exists [], (arr, nBackCount). simpl.
    destruct (Nat.leb_spec nBackMatches nBackCount); [reflexivity|lia].
  - destruct (repeatsInv_progress arr used nBackCount HJ) as (q & t & Hq & Hqt & Hunused); [lia|].
    destruct (IH _ _ _ (repeatsInv_step _ _ _ q t HJ Hqt)) as (more & a & H); [lia|].
    exists (q :: more), a. simpl.
    destruct (Nat.leb_spec nBackMatches nBackCount); [lia|].
    rewrite (floorRandom_small q (length arr - 1) Hq), Nat.add_sub, Hqt.
    fold (imageIndexIn reference t).
    destruct (decide (imageIndexIn reference t ∈ used)); [contradiction|exact H].
Qed.

Lemma insertRepeats_canReturn arr used nBackCount :
  repeatsInv reference unique arr used nBackCount ->
  canReturn (Generator.insertRepeats nBackMatches reference arr used nBackCount).
Proof.
  intros HJ tape. revert arr used nBackCount HJ.
  induction tape as [|r tape IH]; intros arr used nBackCount HJ.
  - destruct (insertRepeats_finish _ arr used nBackCount HJ eq_refl) as (more & a & H).
    exists more, a, []. exact H.
  - simpl.
    destruct (Nat.leb_spec nBackMatches nBackCount).
    { exists [], (arr, nBackCount), ((r :: tape) ++ []). reflexivity. }
    assert (is_Some (arr !! (Generator.floorRandom r (length arr - 1) + 1 - 1))) as [t Ht].
    { apply lookup_lt_is_Some. destruct HJ as (Hlen & _).
      pose proof (floorRandom_bound r (length arr - 1)). lia. }
    rewrite Ht. destruct (decide _).
    + now apply IH.
    + apply IH. rewrite Nat.add_sub in Ht.
      now apply repeatsInv_step.
Qed.

End RepeatLoop.

Lemma insertRepeats_not_thrown nBackMatches reference tape : forall arr used nBackCount e,
  arr <> [] ->
  Generator.insertRepeats nBackMatches reference arr used nBackCount tape <> Threw e.
Proof.
  induction tape as [|r tape IH]; intros arr used nBackCount e Hne; simpl.
  - destruct (_ <=? _); discriminate.
  - destruct (_ <=? _); [discriminate|].
    assert (is_Some (arr !! (Generator.floorRandom r (length arr - 1) + 1 - 1))) as [t Ht].
    { apply lookup_lt_is_Some. destruct arr; [contradiction|]. simpl.
      pose proof (floorRandom_bound r (length arr - 0)). lia. }
    rewrite Ht. destruct (decide _); apply IH; [assumption|].
    unfold JS.splice_insert. intros H. apply app_eq_nil in H as [_ H]. discriminate.
Qed.

Lemma findIndex_from_ids (l : list Trial) (s : string) : forall i : Z,
  JS.findIndex_from (fun img => String.eqb (id img) s) l i
  = JS.findIndex_from (fun x => String.eqb x s) (map id l) i.
Proof.
  induction l as [|t l IH]; intros i; [reflexivity|].
  simpl. destruct (String.eqb (id t) s); [reflexivity|apply IH].
Qed.

Lemma regularImages_ids (sessionType : SessionType) (blockIndex : nat)
    (imageArray : list string) :
  length imageArray = 70 ->
  map id (imap (Generator.regularImage sessionType blockIndex) imageArray)
  = regularIds sessionType blockIndex.
Proof.
  intros Hlen. unfold regularIds. apply list_eq. intros i.
  change (map id ?l) with (id <$> l). rewrite list_lookup_fmap, list_lookup_imap.
  change (map ?f ?l) with (f <$> l). rewrite list_lookup_fmap.
  destruct (Nat.lt_ge_cases i 70) as [Hlt|Hge].
  - rewrite lookup_seq_lt by assumption.
    destruct (lookup_lt_is_Some_2 imageArray i) as [src ->]; [lia|]. reflexivity.
  - rewrite lookup_seq_ge by assumption.
    rewrite (lookup_ge_None_2 imageArray i) by lia. reflexivity.
Qed.

Lemma regularIds_found (sessionType : SessionType) (blockIndex : nat) :
  blockIndex < 3 -> idsFoundInPlace (regularIds sessionType blockIndex) = true.
Proof.
  intros Hb. destruct blockIndex as [|[|[|b]]]; [| | |lia];
    destruct sessionType; vm_compute; reflexivity.
Qed.

(** [findIndex] by id finds each regular image at its own index. *)
Lemma regularImages_index (sessionType : SessionType) (blockIndex : nat)
    (imageArray : list string) (k : nat) (t : Trial) :
  blockIndex < 3 ->
  length imageArray = 70 ->
  imap (Generator.regularImage sessionType blockIndex) imageArray !! k = Some t ->
  imageIndexIn (imap (Generator.regularImage sessionType blockIndex) imageArray) t
  = Z.of_nat k.
Proof.
  intros Hb Hlen Hk. unfold imageIndexIn, JS.findIndex.
  rewrite findIndex_from_ids, (regularImages_ids _ _ _ Hlen).
  pose proof (regularIds_found sessionType blockIndex Hb) as Hfound.
  unfold idsFoundInPlace in Hfound. rewrite forallb_forall in Hfound.
  assert (k < 70) as Hk70.
  { apply lookup_lt_Some in Hk. rewrite length_imap in Hk. lia. }
  assert (length (regularIds sessionType blockIndex) = 70) as Hl
    by (unfold regularIds; now rewrite length_map, length_seq).
  specialize (Hfound k). rewrite Hl in Hfound.
  assert (regularIds sessionType blockIndex !! k = Some (id t)) as Hid.
  { rewrite <- (regularImages_ids _ _ imageArray Hlen).
    change (map id ?l) with (id <$> l). rewrite list_lookup_fmap, Hk. reflexivity. }
  rewrite Hid in Hfound. apply Z.eqb_eq. apply Hfound.
  apply in_seq. lia.
Qed.

Lemma repeatsInv_initial (reference : list Trial) (unique : nat) :
  unique <= length reference ->
  (forall k t, reference !! k = Some t -> imageIndexIn reference t = Z.of_nat k) ->
  repeatsInv reference unique (firstn unique reference) ∅ 0.
Proof.
  intros Hlen Hkey. repeat split.
  - rewrite length_take. lia.
  - intros k Hk. destruct (lookup_lt_is_Some_2 reference k) as [t Ht]; [lia|].
    exists k, t. split; [now rewrite lookup_take_lt|now apply Hkey].
  - rewrite size_empty. lia.
Qed.

Lemma table_rows (blockIndex nBackMatches : nat) :
  Generator.nBackMatchesPerBlock !! blockIndex = Some nBackMatches ->
  nBackMatches + 1 <= 70 - 6 - nBackMatches /\ 70 - 6 - nBackMatches <= 70.
Proof.
  destruct blockIndex as [|[|[|b]]]; simpl; intros H; try discriminate;
    injection H as <-; lia.
Qed.

(** The main path of the generator never throws, whatever the pools, the
    block and the draws. *)
Lemma prepareSessionTrialsWith_not_thrown cuesByBlock sessionType blockIndex tape e :
  Generator.prepareSessionTrialsWith cuesByBlock sessionType blockIndex false tape <> Threw e.
Proof.
  unfold Generator.prepareSessionTrialsWith, Generator.gbind.
  destruct (Generator.shuffle (Generator.imagesOf sessionType) tape)
    as [[shuffledImages tape1]|e1|] eqn:Hsh;
    [|exfalso; exact (shuffle_not_thrown _ _ _ Hsh)|discriminate].
  apply shuffle_perm in Hsh. apply Permutation_length in Hsh.
  rewrite imagesOf_length in Hsh.
  destruct (regularImages_shape sessionType blockIndex (firstn 70 shuffledImages))
    as [Hlen _].
  rewrite length_take, Hsh in Hlen. change (70 `min` 76) with 70 in Hlen.
  set (regularImages := imap _ (firstn 70 shuffledImages)) in *.
  match goal with
  | |- context [match ?m tape1 with Returned _ => _ | Threw _ => _ | Starved => _ end] =>
      destruct (m tape1) as [[[uniqueImages count] tape2]|e2|] eqn:Hrep;
        [| |discriminate]
  end.
  2:{ exfalso. destruct (Generator.nBackMatchesPerBlock !! blockIndex) as [m|] eqn:Htab;
        [|discriminate].
      revert Hrep. apply insertRepeats_not_thrown. apply table_rows in Htab.
      intros Hnil. apply (f_equal length) in Hnil. rewrite length_take, Hlen in Hnil.
      change (length (@nil Trial)) with 0 in Hnil. lia. }
  cbn [fst].
  destruct (Generator.shuffle (Generator.selectPMCues cuesByBlock sessionType blockIndex) tape2)
    as [[shuffledPMCues tape3]|e3|] eqn:Hsh2;
    [|exfalso; exact (shuffle_not_thrown _ _ _ Hsh2)|discriminate].
  destruct (Generator.insertPMCues uniqueImages shuffledPMCues tape3)
    as [[trials tape4]|e4|] eqn:Hc; [discriminate| |discriminate].
  exfalso. exact (insertPMCues_not_thrown _ _ _ _ Hc).
Qed.

(** Whatever has been drawn, the main path of the generator can still
    return, for a block of the table and no more cues than regular
    trials. *)
Lemma prepareSessionTrialsWith_canReturn cuesByBlock sessionType blockIndex :
  blockIndex < 3 ->
  length (Generator.selectPMCues cuesByBlock sessionType blockIndex) <= 64 ->
  canReturn (Generator.prepareSessionTrialsWith cuesByBlock sessionType blockIndex false).
Proof.
  intros Hb Hcues. unfold Generator.prepareSessionTrialsWith.
  apply canReturn_gbind;
    [apply shuffleInto_extendable|apply shuffleInto_canReturn|].
  intros tape shuffledImages tape1 Hsh.
  apply shuffle_perm in Hsh. apply Permutation_length in Hsh.
  rewrite imagesOf_length in Hsh.
  destruct (regularImages_shape sessionType blockIndex (firstn 70 shuffledImages))
    as [Hlen Hreg].
  assert (length (firstn 70 shuffledImages) = 70) as Hlen70
    by (rewrite length_take, Hsh; reflexivity).
  rewrite Hlen70 in Hlen. cbv zeta.
  set (regularImages := imap _ (firstn 70 shuffledImages)) in *.
  destruct (Generator.nBackMatchesPerBlock !! blockIndex) as [nBackMatches|] eqn:Htab;
    [|destruct blockIndex as [|[|[|b]]]; simpl in Htab; try discriminate; lia].
  destruct (table_rows _ _ Htab) as [Hroom Hmax].
  apply canReturn_gbind.
  - apply insertRepeats_extendable.
  - apply (insertRepeats_canReturn regularImages (70 - 6 - nBackMatches) nBackMatches Hroom).
    apply repeatsInv_initial; [lia|].
    intros k t Hk. now apply regularImages_index.
  - intros tape2 [uniqueImages count] tape3 Hrep.
    apply (insertRepeats_returned (fun t => isPMCue t = false)) in Hrep;
      [|lia|now apply Forall_take].
    destruct Hrep as (_ & Hl & HP). rewrite length_take in Hl. simpl fst.
    apply canReturn_gbind;
      [apply shuffleInto_extendable|apply shuffleInto_canReturn|].
    intros tape4 shuffledPMCues tape5 Hsh2.
    apply shuffle_perm in Hsh2. apply Permutation_length in Hsh2.
    apply canReturn_gbind.
    + apply insertPMCues_extendable.
    + apply insertPMCues_canReturn. rewrite (pmCueCount_none _ HP), Hl, Hsh2. lia.
    + intros. apply canReturn_gret.
Qed.

Lemma selectPMCues_requested cuesByBlock sessionType blockIndex :
  Generator.selectPMCues cuesByBlock sessionType blockIndex =
  if 6 <=? length (requestedCues cuesByBlock sessionType blockIndex)
  then requestedCues cuesByBlock sessionType blockIndex
  else if length (requestedCues cuesByBlock sessionType blockIndex) =? 0
       then Generator.block1 (cuesByBlock sessionType)
       else requestedCues cuesByBlock sessionType blockIndex.
Proof.
  unfold Generator.selectPMCues. fold (requestedCues cuesByBlock sessionType blockIndex).
  destruct (Nat.ltb_spec (length (requestedCues cuesByBlock sessionType blockIndex)) 6),
    (Nat.leb_spec 6 (length (requestedCues cuesByBlock sessionType blockIndex)));
    try lia; reflexivity.
Qed.

(** On the pools of the source the main path never throws and, for the
    three blocks of the table, can always still return. *)
Lemma prepareSessionTrials_returns (sessionType : SessionType) (blockIndex : nat) :
  blockIndex < 3 ->
  (forall tape e,
     Generator.prepareSessionTrials sessionType blockIndex false tape <> Threw e) /\
  canReturn (Generator.prepareSessionTrials sessionType blockIndex false).
Proof.
  intros Hb. split.
  - intros tape e. rewrite prepareSessionTrials_unfold.
    apply prepareSessionTrialsWith_not_thrown.
  - intros tape.
    destruct (prepareSessionTrialsWith_canReturn Generator.generatePMCuesByBlock
                sessionType blockIndex Hb) with (tape := tape) as (more & ts & rest & H).
    { rewrite selectPMCues_requested. unfold requestedCues, Generator.generatePMCuesByBlock.
      destruct blockIndex as [|[|[|b]]]; try lia; simpl; lia. }
    exists more, ts, rest. now rewrite prepareSessionTrials_unfold.
Qed.



(** * Further properties of the code *)

Lemma countFrom_le_sum from n (p q : nat -> bool) :
  (forall i, p i && q i = false) ->
  countFrom from n p + countFrom from n q <= n.
Proof.
  intros H. revert from. induction n as [|n IH]; intros from; [reflexivity|].
  rewrite !countFrom_S. specialize (IH (S from)). specialize (H from).
  destruct (p from), (q from); simpl in *; try discriminate; lia.
Qed.

Lemma countFrom_shift1 n (p : nat -> bool) :
  p 0 = false -> countFrom 0 n p = countFrom 1 (n - 1) p.
Proof.
  intros H. destruct n as [|n]; [reflexivity|].
  rewrite countFrom_S, H. simpl. now rewrite Nat.sub_0_r.
Qed.

Lemma countFrom_complement from n (p : nat -> bool) :
  countFrom from n p + countFrom from n (fun i => negb (p i)) = n.
Proof.
  revert from. induction n as [|n IH]; intros from; [reflexivity|].
  rewrite !countFrom_S. specialize (IH (S from)). destruct (p from); simpl; lia.
Qed.

(** X1. The tallies [evaluateBlockPerformance] returns add up: the images
    and the cues make up the trials; the repeat matches are those answered
    and those missed; the cues are those answered and those missed; the
    repeat matches and the false alarms for ['n'] are together at most the
    trials after the first; and the false alarms for ['z'] are at most the
    images. *)
Theorem scorer_totals (s : Store) :
  let b := tallies s in
  let n := length (st_trials s) in
  totalImages b + totalPMCues b = n /\
  nBackCorrect b + nBackMissed b = totalNBackMatches b /\
  pmCueCorrect b + pmCueMissed b = totalPMCues b /\
  totalNBackMatches b + nBackFalseAlarms b <= n - 1 /\
  pmCueFalseAlarms b <= totalImages b.
Proof.
  intros b n. subst b. rewrite tallies_counts. cbn [totalImages totalPMCues nBackCorrect
    nBackMissed totalNBackMatches pmCueCorrect pmCueMissed nBackFalseAlarms pmCueFalseAlarms].
  fold n.
  assert (length (List.filter (fun t => negb (isPMCue t)) (st_trials s))
          = countPositions n (fun i => negb (cueAt (st_trials s) i))) as Himg.
  { apply (filter_count (st_trials s) (st_trials s) _ _ []); [reflexivity|].
    intros i t Ht. unfold cueAt. now rewrite Ht. }
  rewrite Himg, adjacentRepeats_count, pmCueCount_count. fold n. unfold countPositions.
  split; [|split; [|split; [|split]]].
  - rewrite Nat.add_comm. apply countFrom_complement.
  - apply countFrom_split.
  - apply countFrom_split.
  - rewrite (countFrom_shift1 n (fun i => isOneBackMatch (st_trials s) (Z.of_nat i)))
      by apply isOneBackMatch_0.
    rewrite (countFrom_shift1 n (nBackFalseAlarm (st_trials s) (st_responses s)))
      by reflexivity.
    apply countFrom_le_sum. intros i. unfold nBackFalseAlarm.
    destruct (isOneBackMatch _ _); [|reflexivity]. simpl. now rewrite andb_false_r.
  - clear Himg. generalize 0. induction n as [|n IH]; intros from; [reflexivity|].
    rewrite !countFrom_S. specialize (IH (S from)). unfold cueFalseAlarm at 1.
    destruct (cueAt _ from); simpl; [lia|]. destruct (recorded _ _ _); simpl; lia.
Qed.


Lemma countFrom_add from n (p q r : nat -> bool) :
  (forall i, from <= i < from + n -> Nat.b2n (p i) + Nat.b2n (q i) = Nat.b2n (r i)) ->
  countFrom from n p + countFrom from n q = countFrom from n r.
Proof.
  revert from. induction n as [|n IH]; intros from H; [reflexivity|].
  rewrite !countFrom_S. specialize (IH (S from)).
  pose proof (H from ltac:(lia)) as H0.
  rewrite <- IH by (intros i Hi; apply H; lia).
  destruct (p from), (q from), (r from); simpl in H0; try discriminate; lia.
Qed.

(** X2. Every ['n'] recorded for a position after the first is counted once,
    as correct or as a false alarm, and so is every ['z'] recorded for a
    position of the block: the two sums are the numbers of positions that
    have the key recorded. *)
Theorem scorer_counts_each_response_once (s : Store) :
  let b := tallies s in
  let n := length (st_trials s) in
  nBackCorrect b + nBackFalseAlarms b = countFrom 1 (n - 1) (recorded (st_responses s) "n") /\
  pmCueCorrect b + pmCueFalseAlarms b = countPositions n (recorded (st_responses s) "z").
Proof.
  intros b n. subst b. rewrite tallies_counts.
  cbn [nBackCorrect nBackFalseAlarms pmCueCorrect pmCueFalseAlarms].
  fold n. unfold countPositions. split.
  - rewrite (countFrom_shift1 n (nBackHit _ _)) by reflexivity.
    rewrite (countFrom_shift1 n (nBackFalseAlarm _ _)) by reflexivity.
    apply countFrom_add. intros i Hi. unfold nBackHit, nBackFalseAlarm.
    destruct (Nat.ltb_spec 0 i); [|lia].
    destruct (isOneBackMatch _ _), (recorded _ _ _); reflexivity.
  - apply countFrom_add. intros i _. unfold cueHit, cueFalseAlarm.
    destruct (cueAt _ _), (recorded _ _ _); reflexivity.
Qed.

(** X3. The scorer reads of the response map only whether ['n'] and ['z']
    are recorded for the positions of the block: two maps that agree on that
    give the same tallies, whatever else they hold (other keys, entries for
    other indices, another order of the keys). *)
Theorem scorer_reads_recorded_keys_in_range
    (trials : list Trial) (r1 r2 : gmap Z (list string)) :
  (forall i : nat, i < length trials ->
     recorded r1 "n" i = recorded r2 "n" i /\ recorded r1 "z" i = recorded r2 "z" i) ->
  tallies (mkStore trials r1) = tallies (mkStore trials r2).
Proof.
  intros H. rewrite !tallies_counts. cbn [st_trials st_responses]. unfold countPositions.
  f_equal; apply countFrom_ext; intros i Hi; destruct (H i ltac:(lia)) as [Hn Hz];
    unfold nBackHit, nBackMiss, nBackFalseAlarm, cueHit, cueMiss, cueFalseAlarm;
    rewrite ?Hn, ?Hz; reflexivity.
Qed.

(** A block of five trials and two response maps that differ in an entry
    beyond the block. *)
Lemma scorer_reads_recorded_keys_in_range_witness :
  tallies (mkStore Examples.fiveTrials Scenarios.repeatAnswered)
  = tallies (mkStore Examples.fiveTrials Scenarios.repeatAnsweredAndStray).
Proof.
  apply (scorer_reads_recorded_keys_in_range Examples.fiveTrials
           Scenarios.repeatAnswered Scenarios.repeatAnsweredAndStray).
  intros i Hi. do 5 (destruct i as [|i]; [vm_compute; split; reflexivity|]).
  simpl in Hi. lia.
Defined.

(** X4. With no response recorded nothing is correct and nothing is a false
    alarm: every repeat match and every cue is missed.  A block without
    trials has zero tallies whatever was recorded. *)
Theorem scorer_without_responses (trials : list Trial) :
  let b := tallies (mkStore trials ∅) in
  nBackCorrect b = 0 /\ nBackFalseAlarms b = 0 /\
  pmCueCorrect b = 0 /\ pmCueFalseAlarms b = 0 /\
  nBackMissed b = adjacentRepeats trials /\
  pmCueMissed b = pmCueCount trials /\
  forall responses : gmap Z (list string),
    tallies (mkStore [] responses) = mkBlockResult 0 0 0 0 0 0 0 0 0.
Proof.
  intros b. subst b. rewrite tallies_counts. cbn -[countPositions adjacentRepeats pmCueCount].
  assert (forall key i, recorded (∅ : gmap Z (list string)) key i = false) as Hrec.
  { intros key i. unfold recorded. rewrite lookup_empty. reflexivity. }
  rewrite adjacentRepeats_count, pmCueCount_count. unfold countPositions.
  repeat split; try (apply countFrom_false; intros i _;
    unfold nBackHit, nBackFalseAlarm, cueHit, cueFalseAlarm; rewrite Hrec;
    now rewrite ?andb_false_r).
  - apply countFrom_ext. intros i _. unfold nBackMiss. rewrite Hrec. apply andb_true_r.
  - apply countFrom_ext. intros i _. unfold cueMiss. rewrite Hrec. apply andb_true_r.
Qed.

(** ** The states of the component, the debug panel included *)

Lemma progressionEffect_settles st :
  ExperimentTask.progressionEffect st = st \/
  ExperimentTask.progressionRuns (ExperimentTask.progressionEffect st) = false.
Proof.
  unfold ExperimentTask.progressionEffect.
  destruct (negb (ExperimentTask.progressionRuns st)) eqn:Hrun; [now left|].
  destruct (ExperimentTask.currentPhase st); try (now left).
  - destruct (_ <? _); [now left|right].
    unfold ExperimentTask.progressionRuns. simpl. now rewrite !andb_false_r.
  - destruct (_ <=? _)%Z; [right|now left].
    unfold ExperimentTask.progressionRuns. simpl. now rewrite !andb_false_r.
Qed.

Lemma progressionEffect_idem st :
  ExperimentTask.progressionEffect (ExperimentTask.progressionEffect st)
  = ExperimentTask.progressionEffect st.
Proof.
  destruct (progressionEffect_settles st) as [H|H]; [now rewrite H|].
  unfold ExperimentTask.progressionEffect at 1. now rewrite H.
Qed.

(** The two effects of a render leave the rest of the state alone. *)
Lemma effects_frame before st :
  let st' := ExperimentTask.progressionEffect (ExperimentTask.initializeBlockEffect before st) in
  ExperimentTask.currentSession st' = ExperimentTask.currentSession st /\
  ExperimentTask.currentBlock st' = ExperimentTask.currentBlock st /\
  ExperimentTask.responses st' = ExperimentTask.responses st /\
  ExperimentTask.isExperimentActive st' = ExperimentTask.isExperimentActive st /\
  ExperimentTask.completed st' = ExperimentTask.completed st /\
  ExperimentTask.sessionResults st' = ExperimentTask.sessionResults st /\
  ExperimentTask.responseTimers st' = ExperimentTask.responseTimers st /\
  ExperimentTask.isPaused st' = ExperimentTask.isPaused st /\
  ExperimentTask.trials st' = ExperimentTask.trials st /\
  ExperimentTask.currentTrialIndex st' = ExperimentTask.currentTrialIndex st.
Proof.
  unfold ExperimentTask.progressionEffect, ExperimentTask.initializeBlockEffect.
  destruct (_ && _); cbv zeta;
    (destruct (negb _); [repeat split|]);
    match goal with
    | |- context [match ?p with phasePMCue => _ | _ => _ end] => destruct p
    end;
    repeat match goal with |- context [if ?b then _ else _] => destruct b end;
    repeat split.
Qed.

Lemma includes_In (arr : list string) (key : string) :
  JS.includes arr key = true <-> In key arr.
Proof.
  unfold JS.includes. rewrite existsb_exists. split.
  - intros (x & Hin & Heq). apply String.eqb_eq in Heq. now subst.
  - intros Hin. exists key. split; [assumption|apply String.eqb_refl].
Qed.

Lemma wellFormedEntry_record (key : string) (rs : list string) :
  key = "n" \/ key = "z" ->
  rs = [] \/ wellFormedEntry rs ->
  JS.includes rs key = false ->
  wellFormedEntry (rs ++ [key]).
Proof.
  intros Hkey Hrs Hnew.
  assert (~ In key rs) as Hnotin.
  { intros Hin. apply includes_In in Hin. congruence. }
  split; [|split].
  - now destruct rs.
  - destruct Hrs as [->|(_ & Hnd & _)].
    + simpl. apply NoDup_singleton.
    + apply NoDup_app. split; [assumption|]. split; [|apply NoDup_singleton].
      intros x Hx Hx'. apply list_elem_of_singleton in Hx'. subst x.
      apply Hnotin. now apply list_elem_of_In.
  - apply Forall_app. split; [|constructor; [assumption|constructor]].
    destruct Hrs as [->|(_ & _ & Hall)]; [constructor|assumption].
Qed.

Lemma entries_recordResponse (index : Z) (key : string) (prev : gmap Z (list string)) :
  key = "n" \/ key = "z" ->
  (forall k rs, prev !! k = Some rs -> wellFormedEntry rs) ->
  forall k rs, ExperimentTask.recordResponse index key prev !! k = Some rs -> wellFormedEntry rs.
Proof.
  intros Hkey Hprev k rs. unfold ExperimentTask.recordResponse.
  destruct (JS.includes (default [] (prev !! index)) key) eqn:Hinc; simpl.
  - apply Hprev.
  - destruct (decide (index = k)) as [->|Hne].
    + rewrite lookup_insert_eq. intros [= <-].
      apply wellFormedEntry_record; [assumption| |assumption].
      destruct (prev !! k) as [rs0|] eqn:Hk; simpl; [right; now apply (Hprev k)|now left].
    + rewrite lookup_insert_ne by assumption. apply Hprev.
Qed.

Lemma entries_delete (j : Z) (prev : gmap Z (list string)) :
  (forall k rs, prev !! k = Some rs -> wellFormedEntry rs) ->
  forall k rs, delete j prev !! k = Some rs -> wellFormedEntry rs.
Proof.
  intros Hprev k rs H. destruct (decide (j = k)) as [->|Hne].
  - rewrite lookup_delete_eq in H. discriminate.
  - rewrite lookup_delete_ne in H by assumption. now apply (Hprev k).
Qed.

Lemma entries_empty :
  forall (k : Z) (rs : list string), (∅ : gmap Z (list string)) !! k = Some rs -> wellFormedEntry rs.
Proof. intros k rs H. rewrite lookup_empty in H. discriminate. Qed.

Lemma consistent_final (d : SessionResults) :
  Forall balanced (allBlocks d) -> consistent (withAccuracies (calculateFinalResults d)).
Proof. intros H. split; [reflexivity|exact H]. Qed.

Lemma Inv2_Kept st : Inv2 st -> Kept st.
Proof. intros [H1 H2 H3 _ H5]. now split. Qed.

Lemma snoc_not_nil {A} (l : list A) (x : A) : l ++ [x] = [] <-> False.
Proof. split; [|tauto]. now destruct l. Qed.

Lemma Kept_handleKeyPress st e_key :
  Inv st -> Kept st -> Kept (ExperimentTask.handleKeyPress st e_key).
Proof.
  intros HI HK. pose proof HK as [Hb He Ha Hc]. pose proof HI as [_ _ _ Hbal _].
  unfold ExperimentTask.handleKeyPress.
  destruct (_ || _); [exact HK|].
  destruct (JS.toLowerCase e_key) as [key|]; [|exact HK].
  unfold ExperimentTask.handleKey.
  destruct (ExperimentTask.waitingForSpacebarAfterPMCues st && _); [now split|].
  destruct (ExperimentTask.waitingForSpacebar st && _).
  { rewrite scoreBlock_eq.
    destruct (Nat.ltb_spec (ExperimentTask.currentBlock st) 2).
    - split; simpl; try exact entries_empty; auto. lia.
    - destruct (ExperimentTask.currentSession st); split; simpl; try exact entries_empty; auto; try lia.
      + rewrite snoc_not_nil. split; [discriminate|tauto].
      + apply Forall_app. split; [assumption|]. constructor; [|constructor].
        now apply consistent_final. }
  destruct (_ && _ && _); [|exact HK].
  destruct (String.eqb_spec key "n") as [Hn|Hn]; simpl.
  { split; simpl; auto. apply entries_recordResponse; auto. }
  destruct (String.eqb_spec key "z") as [Hz|Hz]; simpl; [|exact HK].
  split; simpl; auto. apply entries_recordResponse; auto.
Qed.

Lemma Kept_progressionTimeout st : Kept st -> Kept (ExperimentTask.progressionTimeout st).
Proof.
  intros HK. pose proof HK as [Hb He Ha Hc]. unfold ExperimentTask.progressionTimeout.
  destruct (negb _); [exact HK|].
  destruct (ExperimentTask.currentPhase st).
  - destruct (_ <? _); [now split|exact HK].
  - destruct (_ <=? _)%Z; [exact HK|]. destruct (negb _); split; simpl; auto.
    now apply entries_delete.
  - exact HK.
  - now split.
Qed.

Lemma Kept_endSessionAndShowResults st :
  Inv st -> Kept st -> Kept (ExperimentTask.endSessionAndShowResults st).
Proof.
  intros HI [Hb He Ha Hc]. pose proof HI as [_ _ _ Hbal _].
  unfold ExperimentTask.endSessionAndShowResults. rewrite scoreBlock_eq.
  destruct (_ && _); split; simpl; auto;
    try (rewrite snoc_not_nil; split; [discriminate|tauto]);
    apply Forall_app; (split; [assumption|]); (constructor; [|constructor]);
    apply consistent_final; [|assumption].
  apply allBlocks_appendBlock; [assumption|apply balanced_tallies].
Qed.

Lemma Kept_handle st ev : Inv st -> Kept st -> Kept (ExperimentTask.handle st ev).
Proof.
  intros HI HK. destruct ev as [e_key| |n| | |pm ts]; simpl.
  - now apply Kept_handleKeyPress.
  - now apply Kept_progressionTimeout.
  - destruct (_ !! n); [|assumption]. destruct HK as [Hb He Ha Hc]. split; simpl; auto.
    now apply entries_delete.
  - destruct HK. now split.
  - now apply Kept_endSessionAndShowResults.
  - destruct HK. split; simpl; try exact entries_empty; auto.
Qed.

Lemma Kept_debug_handle st ev : Inv st -> Kept st -> Kept (DebugControls.handle st ev).
Proof.
  intros HI HK. destruct ev as [ev|session|button|]; simpl.
  - now apply Kept_handle.
  - destruct HK. split; simpl; try exact entries_empty; auto; lia.
  - destruct HK. split; simpl; try exact entries_empty; auto. destruct button; simpl; lia.
  - destruct HK. now split.
Qed.

Lemma Inv_debug_handle st ev : Inv st -> Inv (DebugControls.handle st ev).
Proof.
  intros HI. destruct ev as [ev|session|button|]; simpl.
  - now apply Inv_handle.
  - destruct HI as [Hk Hc Hw Hb Ha]. split; simpl; auto.
    intros k H. rewrite lookup_empty in H. now destruct H.
  - destruct HI as [Hk Hc Hw Hb Ha]. split; simpl; auto.
    intros k H. rewrite lookup_empty in H. now destruct H.
  - destruct HI as [Hk Hc Hw Hb Ha]. now split.
Qed.

Lemma Inv_debug_step st ev : Inv st -> Inv (DebugControls.step st ev).
Proof.
  intros HI. unfold DebugControls.step.
  now apply Inv_progressionEffect, Inv_initializeBlockEffect, Inv_debug_handle.
Qed.

Lemma Inv2_debug_step st ev : Inv st -> Inv2 st -> Inv2 (DebugControls.step st ev).
Proof.
  intros HI HI2. pose proof (Kept_debug_handle st ev HI (Inv2_Kept st HI2)) as [Hb He Ha Hc].
  unfold DebugControls.step.
  destruct (effects_frame st (DebugControls.handle st ev))
    as (_ & Eb & Er & Ea & Ec & _).
  split.
  - now rewrite Eb.
  - now rewrite Er.
  - now rewrite Ea, Ec.
  - apply progressionEffect_idem.
  - now rewrite Ec.
Qed.

Lemma Inv2_initial : Inv2 ExperimentTask.initialState.
Proof.
  split; try exact entries_empty; try (vm_compute; lia); try reflexivity.
  - split; reflexivity.
  - constructor.
Qed.

Lemma debug_run_Inv evs : forall st,
  Inv st -> Inv2 st -> Inv (DebugControls.run st evs) /\ Inv2 (DebugControls.run st evs).
Proof.
  induction evs as [|ev evs IH]; intros st HI HI2; [now split|].
  simpl. apply IH; [now apply Inv_debug_step|now apply Inv2_debug_step].
Qed.

Lemma debug_reachable_Inv st : DebugControls.reachable st -> Inv st /\ Inv2 st.
Proof. intros [evs ->]. apply debug_run_Inv; [apply Inv_initial|apply Inv2_initial]. Qed.

Lemma run_as_debug_run evs : forall st,
  ExperimentTask.run st evs = DebugControls.run st (map DebugControls.Task evs).
Proof. induction evs as [|ev evs IH]; intros st; [reflexivity|]. simpl. apply IH. Qed.

Lemma reachable_debug_reachable st : ExperimentTask.reachable st -> DebugControls.reachable st.
Proof. intros [evs ->]. eexists. apply run_as_debug_run. Qed.

Lemma table_defined (blockIndex : nat) :
  blockIndex <= 2 -> is_Some (Generator.nBackMatchesPerBlock !! blockIndex).
Proof.
  intros H. destruct blockIndex as [|[|[|b]]]; try lia; eexists; reflexivity.
Qed.

(** X5. In every state the component reaches, the debug buttons included,
    [currentBlock] is at most 2, so the table of repeat counts has a row for
    it, and the generator called for the current session and block never
    throws and can always return. *)
Theorem block_index_stays_in_table (st : ExperimentTask.State) :
  DebugControls.reachable st ->
  let sessionType := ExperimentTask.currentSession st in
  let blockIndex := ExperimentTask.currentBlock st in
  blockIndex <= 2 /\
  is_Some (Generator.nBackMatchesPerBlock !! blockIndex) /\
  (forall tape e,
     Generator.prepareSessionTrials sessionType blockIndex false tape <> Threw e) /\
  canReturn (Generator.prepareSessionTrials sessionType blockIndex false).
Proof.
  intros Hreach sessionType blockIndex.
  destruct (debug_reachable_Inv st Hreach) as [_ [Hb _ _ _ _]]. fold blockIndex in Hb.
  split; [exact Hb|]. split; [now apply table_defined|].
  apply prepareSessionTrials_returns. lia.
Qed.

(** The state after a click on [Block 3]. *)
Lemma block_index_stays_in_table_witness :
  DebugControls.reachable Scenarios.lastBlockSelected /\
  ExperimentTask.currentBlock Scenarios.lastBlockSelected <= 2 /\
  is_Some (Generator.nBackMatchesPerBlock !! ExperimentTask.currentBlock Scenarios.lastBlockSelected).
Proof.
  assert (DebugControls.reachable Scenarios.lastBlockSelected) as Hreach
    by (eexists; reflexivity).
  split; [exact Hreach|].
  destruct (block_index_stays_in_table Scenarios.lastBlockSelected Hreach) as (Hle & Hsome & _).
  split; [exact Hle|exact Hsome].
Defined.

Lemma short_entry (rs : list string) : wellFormedEntry rs -> length rs <= 2.
Proof.
  intros (_ & Hnd & Hall).
  destruct rs as [|a [|b [|c rest]]]; simpl; try lia.
  exfalso.
  inversion Hnd as [|? ? Ha Hnd1]; subst. inversion Hnd1 as [|? ? Hb _]; subst.
  inversion Hall as [|? ? Pa Hall1]; subst. inversion Hall1 as [|? ? Pb Hall2]; subst.
  inversion Hall2 as [|? ? Pc _]; subst.
  apply not_elem_of_cons in Ha as [Hab Ha]. apply not_elem_of_cons in Ha as [Hac _].
  apply not_elem_of_cons in Hb as [Hbc _].
  destruct Pa, Pb, Pc; subst; congruence.
Qed.

(** X6. In every reachable state each entry of the response map is a
    non-empty list of the keys ['n'] and ['z'] that holds no key twice, so
    at most two keys, and it belongs to an index not beyond the current one. *)
Theorem response_entries_are_well_formed
    (st : ExperimentTask.State) (k : Z) (rs : list string) :
  DebugControls.reachable st ->
  ExperimentTask.responses st !! k = Some rs ->
  rs <> [] /\ NoDup rs /\ Forall (fun key => key = "n" \/ key = "z") rs /\
  length rs <= 2 /\ (k <= ExperimentTask.currentTrialIndex st)%Z.
Proof.
  intros Hreach Hk. destruct (debug_reachable_Inv st Hreach) as [HI [_ He _ _ _]].
  pose proof (He k rs Hk) as Hwf. pose proof Hwf as (H1 & H2 & H3).
  repeat split; try assumption.
  - now apply short_entry.
  - apply (inv_keys st HI). rewrite Hk. now eexists.
Qed.

(** The entry of trial 1 after ['n'] was pressed in its fixation. *)
Lemma response_entries_are_well_formed_witness :
  DebugControls.reachable Examples.secondFixation /\
  ExperimentTask.responses Examples.secondFixation !! 1%Z = Some ["n"] /\
  NoDup ["n"] /\ (1 <= ExperimentTask.currentTrialIndex Examples.secondFixation)%Z.
Proof.
  assert (DebugControls.reachable Examples.secondFixation) as Hreach
    by (apply reachable_debug_reachable; eexists; reflexivity).
  assert (ExperimentTask.responses Examples.secondFixation !! 1%Z = Some ["n"]) as Hentry
    by (vm_compute; reflexivity).
  split; [exact Hreach|]. split; [exact Hentry|].
  destruct (response_entries_are_well_formed Examples.secondFixation 1%Z ["n"] Hreach Hentry)
    as (_ & Hnodup & _ & _ & Hle).
  split; [exact Hnodup|exact Hle].
Defined.

Lemma handle_stays_inactive st ev :
  ExperimentTask.isExperimentActive st = false ->
  ExperimentTask.isExperimentActive (DebugControls.handle st ev) = false.
Proof.
  intros H. destruct ev as [[e_key| |n| | |pm ts]|session|button|]; simpl; try assumption.
  - unfold ExperimentTask.handleKeyPress.
    destruct (_ || _); [assumption|].
    destruct (JS.toLowerCase e_key) as [key|]; [|assumption].
    unfold ExperimentTask.handleKey.
    destruct (ExperimentTask.waitingForSpacebarAfterPMCues st && _); [assumption|].
    destruct (ExperimentTask.waitingForSpacebar st && _).
    { rewrite scoreBlock_eq. destruct (_ <? 2); [assumption|].
      destruct (ExperimentTask.currentSession st); simpl; auto. }
    destruct (_ && _ && _); [|assumption]. destruct (_ || _); assumption.
  - unfold ExperimentTask.progressionTimeout, ExperimentTask.progressionRuns.
    rewrite H, andb_false_r. simpl. assumption.
  - destruct (_ !! n); assumption.
  - unfold ExperimentTask.endSessionAndShowResults. rewrite scoreBlock_eq.
    destruct (_ && _); reflexivity.
Qed.

Lemma handle_completed_grows st ev :
  exists more, ExperimentTask.completed (DebugControls.handle st ev)
               = ExperimentTask.completed st ++ more.
Proof.
  destruct ev as [[e_key| |n| | |pm ts]|session|button|]; simpl;
    try (exists []; now rewrite app_nil_r).
  - unfold ExperimentTask.handleKeyPress.
    destruct (_ || _); [exists []; now rewrite app_nil_r|].
    destruct (JS.toLowerCase e_key) as [key|]; [|exists []; now rewrite app_nil_r].
    unfold ExperimentTask.handleKey.
    destruct (ExperimentTask.waitingForSpacebarAfterPMCues st && _);
      [exists []; now rewrite app_nil_r|].
    destruct (ExperimentTask.waitingForSpacebar st && _).
    { rewrite scoreBlock_eq. destruct (_ <? 2); [exists []; now rewrite app_nil_r|].
      destruct (ExperimentTask.currentSession st); simpl;
        try (exists []; now rewrite app_nil_r). eexists. reflexivity. }
    destruct (_ && _ && _); [|exists []; now rewrite app_nil_r].
    destruct (_ || _); exists []; now rewrite app_nil_r.
  - unfold ExperimentTask.progressionTimeout.
    destruct (negb _); [exists []; now rewrite app_nil_r|].
    destruct (ExperimentTask.currentPhase st);
      repeat match goal with |- context [if ?b then _ else _] => destruct b end;
      exists []; now rewrite app_nil_r.
  - destruct (_ !! n); exists []; now rewrite app_nil_r.
  - unfold ExperimentTask.endSessionAndShowResults. rewrite scoreBlock_eq.
    destruct (_ && _); eexists; reflexivity.
Qed.

(** X7. [isExperimentActive] is false exactly when results have been handed
    to [onComplete]; the results handed over are never taken back; and once
    the experiment is inactive it stays so under every event, the
    progression timers change nothing and no key press records a response. *)
Theorem completion_stops_the_experiment
    (st : ExperimentTask.State) (ev : DebugControls.Event) :
  DebugControls.reachable st ->
  (ExperimentTask.isExperimentActive st = false <-> ExperimentTask.completed st <> []) /\
  (exists more, ExperimentTask.completed (DebugControls.step st ev)
                = ExperimentTask.completed st ++ more) /\
  (ExperimentTask.isExperimentActive st = false ->
   ExperimentTask.isExperimentActive (DebugControls.step st ev) = false /\
   ExperimentTask.progressionTimeout st = st /\
   forall e_key : string, recordsResponse st e_key = false).
Proof.
  intros Hreach. destruct (debug_reachable_Inv st Hreach) as [_ [_ _ Ha _ _]].
  destruct (effects_frame st (DebugControls.handle st ev)) as (_ & _ & _ & Ea & Ec & _).
  split; [|split].
  - destruct (ExperimentTask.isExperimentActive st).
    + split; [discriminate|]. intros H. destruct H. now apply Ha.
    + split; [|reflexivity]. intros _ H. apply Ha in H. discriminate.
  - unfold DebugControls.step. rewrite Ec. apply handle_completed_grows.
  - intros Hoff. split; [|split].
    + unfold DebugControls.step. rewrite Ea. now apply handle_stays_inactive.
    + unfold ExperimentTask.progressionTimeout, ExperimentTask.progressionRuns.
      rewrite Hoff, andb_false_r. reflexivity.
    + intros e_key. unfold recordsResponse. rewrite Hoff, andb_false_r. reflexivity.
Qed.

(** The session was ended with the button; a key is pressed afterwards. *)
Lemma completion_stops_the_experiment_witness :
  DebugControls.reachable Scenarios.ended /\
  ExperimentTask.isExperimentActive Scenarios.ended = false /\
  ExperimentTask.isExperimentActive
    (DebugControls.step Scenarios.ended (DebugControls.Task (ExperimentTask.KeyDown "n")))
  = false.
Proof.
  assert (DebugControls.reachable Scenarios.ended) as Hreach
    by (apply reachable_debug_reachable; eexists; reflexivity).
  assert (ExperimentTask.isExperimentActive Scenarios.ended = false) as Hoff
    by (vm_compute; reflexivity).
  split; [exact Hreach|]. split; [exact Hoff|].
  destruct (completion_stops_the_experiment Scenarios.ended
              (DebugControls.Task (ExperimentTask.KeyDown "n")) Hreach) as (_ & _ & Hstay).
  exact (proj1 (Hstay Hoff)).
Defined.

Lemma initializeBlockEffect_same st st' :
  ExperimentTask.currentSession st' = ExperimentTask.currentSession st ->
  ExperimentTask.currentBlock st' = ExperimentTask.currentBlock st ->
  ExperimentTask.initializeBlockEffect st st' = st'.
Proof.
  intros Hs Hb. unfold ExperimentTask.initializeBlockEffect. rewrite Hs, Hb, Nat.eqb_refl.
  destruct (ExperimentTask.currentSession st); reflexivity.
Qed.

Lemma progressionEffect_off st :
  ExperimentTask.progressionRuns st = false -> ExperimentTask.progressionEffect st = st.
Proof. intros H. unfold ExperimentTask.progressionEffect. now rewrite H. Qed.

Lemma paused_not_running st :
  ExperimentTask.isPaused st = true -> ExperimentTask.progressionRuns st = false.
Proof.
  intros H. unfold ExperimentTask.progressionRuns. rewrite H. simpl.
  now rewrite !andb_false_r.
Qed.

(** X8. While the task is paused, no key press and no progression timer
    changes the state.  A 500 ms response timer armed before the pause is
    not cancelled: when it fires, the trial index advances, the fixation
    ends and the entry after the captured index is deleted, the task staying
    paused. *)
Theorem pause_freezes_keys_and_progression (st : ExperimentTask.State) :
  ExperimentTask.isPaused st = true ->
  (forall e_key : string, ExperimentTask.step st (ExperimentTask.KeyDown e_key) = st) /\
  ExperimentTask.step st ExperimentTask.ProgressionTimeout = st /\
  (forall (n : nat) (capturedIndex : Z),
     ExperimentTask.responseTimers st !! n = Some capturedIndex ->
     let st' := ExperimentTask.step st (ExperimentTask.ResponseTimeout n) in
     ExperimentTask.currentTrialIndex st' = (ExperimentTask.currentTrialIndex st + 1)%Z /\
     ExperimentTask.showFixation st' = false /\
     ExperimentTask.responses st'
     = delete (capturedIndex + 1)%Z (ExperimentTask.responses st) /\
     ExperimentTask.isPaused st' = true).
Proof.
  intros Hp. pose proof (paused_not_running st Hp) as Hoff.
  split; [|split].
  - intros e_key. unfold ExperimentTask.step. simpl.
    unfold ExperimentTask.handleKeyPress. rewrite Hp. simpl.
    rewrite initializeBlockEffect_same by reflexivity. now apply progressionEffect_off.
  - unfold ExperimentTask.step. simpl.
    unfold ExperimentTask.progressionTimeout. rewrite Hoff. simpl.
    rewrite initializeBlockEffect_same by reflexivity. now apply progressionEffect_off.
  - intros n j Hn st'. subst st'. unfold ExperimentTask.step. simpl. rewrite Hn.
    rewrite initializeBlockEffect_same by reflexivity.
    rewrite progressionEffect_off by (apply paused_not_running; exact Hp).
    repeat split; try reflexivity; assumption.
Qed.

(** Trial 0 is on screen and the task is paused. *)
Lemma pause_freezes_keys_and_progression_witness :
  ExperimentTask.isPaused Scenarios.paused = true /\
  ExperimentTask.step Scenarios.paused ExperimentTask.ProgressionTimeout = Scenarios.paused.
Proof.
  assert (ExperimentTask.isPaused Scenarios.paused = true) as Hpaused
    by (vm_compute; reflexivity).
  split; [exact Hpaused|].
  exact (proj1 (proj2 (pause_freezes_keys_and_progression Scenarios.paused Hpaused))).
Defined.

Lemma set_isPaused_back st :
  ExperimentTask.isPaused st = false ->
  ExperimentTask.set_isPaused false (ExperimentTask.set_isPaused true st) = st.
Proof. intros H. destruct st. simpl in *. now subst. Qed.

(** X9. In a reachable state that is not paused, a click on [Pause] sets
    [isPaused] and nothing else, and a second click gives the state back as
    it was. *)
Theorem pause_resume_round_trip (st : ExperimentTask.State) :
  DebugControls.reachable st ->
  ExperimentTask.isPaused st = false ->
  ExperimentTask.step st ExperimentTask.TogglePause = ExperimentTask.set_isPaused true st /\
  ExperimentTask.run st [ExperimentTask.TogglePause; ExperimentTask.TogglePause] = st.
Proof.
  intros Hreach Hp. destruct (debug_reachable_Inv st Hreach) as [_ [_ _ _ Hs _]].
  assert (ExperimentTask.step st ExperimentTask.TogglePause
          = ExperimentTask.set_isPaused true st) as Hstep.
  { unfold ExperimentTask.step. simpl. unfold ExperimentTask.togglePause. rewrite Hp. simpl.
    rewrite initializeBlockEffect_same by reflexivity.
    now apply progressionEffect_off, paused_not_running. }
  split; [exact Hstep|].
  unfold ExperimentTask.run. simpl. rewrite Hstep.
  unfold ExperimentTask.step. simpl. unfold ExperimentTask.togglePause. simpl.
  rewrite set_isPaused_back by assumption.
  rewrite initializeBlockEffect_same by reflexivity. exact Hs.
Qed.

(** Trial 0 is on screen; [Pause] is clicked twice. *)
Lemma pause_resume_round_trip_witness :
  DebugControls.reachable Examples.firstImage /\
  ExperimentTask.isPaused Examples.firstImage = false /\
  ExperimentTask.run Examples.firstImage
    [ExperimentTask.TogglePause; ExperimentTask.TogglePause] = Examples.firstImage.
Proof.
  assert (DebugControls.reachable Examples.firstImage) as Hreach
    by (apply reachable_debug_reachable; eexists; reflexivity).
  assert (ExperimentTask.isPaused Examples.firstImage = false) as Hrunning
    by (vm_compute; reflexivity).
  split; [exact Hreach|]. split; [exact Hrunning|].
  exact (proj2 (pause_resume_round_trip Examples.firstImage Hreach Hrunning)).
Defined.

Lemma recordsResponse_lowered st e_key :
  recordsResponse st e_key = true -> exists key, JS.toLowerCase e_key = Some key.
Proof.
  unfold recordsResponse. intros H. apply andb_prop in H as [_ H].
  destruct (JS.toLowerCase e_key) as [key|]; [eauto|discriminate].
Qed.

Lemma handleKeyPress_records st e_key key :
  JS.toLowerCase e_key = Some key ->
  recordsResponse st e_key = true ->
  ExperimentTask.handleKeyPress st e_key
  = ExperimentTask.set_responseTimers
      (ExperimentTask.responseTimers st ++ [ExperimentTask.currentTrialIndex st])
      (ExperimentTask.set_responses
         (ExperimentTask.recordResponse (ExperimentTask.currentTrialIndex st)
            key (ExperimentTask.responses st)) st).
Proof.
  intros Hkey Hrec. unfold recordsResponse, isTrialPhase in Hrec. rewrite Hkey in Hrec.
  repeat (apply andb_prop in Hrec as [Hrec ?]).
  unfold ExperimentTask.handleKeyPress. rewrite Hkey.
  destruct (ExperimentTask.isPaused st); [discriminate|].
  destruct (ExperimentTask.isLoading st); [discriminate|]. simpl.
  unfold ExperimentTask.handleKey.
  assert (String.eqb key " " = false) as ->.
  { destruct (String.eqb_spec key " ") as [He|]; [|reflexivity].
    rewrite He in *. discriminate. }
  rewrite !andb_false_r.
  destruct (ExperimentTask.currentPhase st); try discriminate.
  destruct (ExperimentTask.showFixation st); [|discriminate].
  destruct (ExperimentTask.isExperimentActive st); [|discriminate]. simpl.
  destruct (_ || _); [reflexivity|discriminate].
Qed.

Lemma progressionEffect_recorded st timers responses :
  ExperimentTask.progressionEffect st = st ->
  ExperimentTask.progressionEffect
    (ExperimentTask.set_responseTimers timers (ExperimentTask.set_responses responses st))
  = ExperimentTask.set_responseTimers timers (ExperimentTask.set_responses responses st).
Proof.
  intros Hs.
  destruct (progressionEffect_settles st) as [_|Hoff].
  2: { rewrite Hs in Hoff. apply progressionEffect_off. exact Hoff. }
  revert Hs. unfold ExperimentTask.progressionEffect, ExperimentTask.progressionRuns. simpl.
  destruct (negb _); [reflexivity|].
  destruct (ExperimentTask.currentPhase st); try reflexivity.
  - destruct (_ <? _); [reflexivity|]. intros H. rewrite <- H at 2. reflexivity.
  - destruct (_ <=? _)%Z; [|reflexivity]. intros H. rewrite <- H at 2. reflexivity.
Qed.

Lemma step_records st e_key key :
  ExperimentTask.progressionEffect st = st ->
  JS.toLowerCase e_key = Some key ->
  recordsResponse st e_key = true ->
  ExperimentTask.step st (ExperimentTask.KeyDown e_key)
  = ExperimentTask.set_responseTimers
      (ExperimentTask.responseTimers st ++ [ExperimentTask.currentTrialIndex st])
      (ExperimentTask.set_responses
         (ExperimentTask.recordResponse (ExperimentTask.currentTrialIndex st)
            key (ExperimentTask.responses st)) st).
Proof.
  intros Hs Hkey Hrec. unfold ExperimentTask.step. simpl.
  rewrite (handleKeyPress_records st e_key key Hkey Hrec).
  rewrite initializeBlockEffect_same by reflexivity.
  now apply progressionEffect_recorded.
Qed.

Lemma step_responseTimeout st (before after : list Z) (capturedIndex : Z) :
  ExperimentTask.responseTimers st = before ++ capturedIndex :: after ->
  let st' := ExperimentTask.step st (ExperimentTask.ResponseTimeout (length before)) in
  ExperimentTask.currentTrialIndex st' = (ExperimentTask.currentTrialIndex st + 1)%Z /\
  ExperimentTask.responseTimers st' = before ++ after /\
  ExperimentTask.responses st' = delete (capturedIndex + 1)%Z (ExperimentTask.responses st).
Proof.
  intros Ht st'. subst st'. unfold ExperimentTask.step.
  destruct (effects_frame st (ExperimentTask.handle st
              (ExperimentTask.ResponseTimeout (length before))))
    as (_ & _ & Er & _ & _ & _ & Et & _ & _ & Ei).
  rewrite Ei, Et, Er. simpl. rewrite Ht.
  rewrite (list_lookup_middle before after capturedIndex (length before) eq_refl). simpl.
  split; [reflexivity|]. split; [|reflexivity].
  rewrite firstn_app, Nat.sub_diag, firstn_all. simpl. rewrite app_nil_r.
  change (capturedIndex :: after) with ([capturedIndex] ++ after).
  rewrite app_assoc, skipn_app.
  rewrite skipn_all2 by (rewrite length_app; simpl; lia).
  rewrite length_app. simpl. replace (S (length before) - (length before + 1)) with 0 by lia.
  reflexivity.
Qed.

(** X10. Two recorded key presses during one fixation arm two response
    timers that both capture the current index.  The response map gets both
    keys (the same key pressed twice is recorded once), and when both timers
    have fired the trial index has advanced by two: the next trial is
    skipped. *)
Theorem two_presses_in_one_fixation_skip_a_trial
    (st : ExperimentTask.State) (key1 key2 : string) :
  DebugControls.reachable st ->
  recordsResponse st key1 = true ->
  recordsResponse st key2 = true ->
  let i := ExperimentTask.currentTrialIndex st in
  let n := length (ExperimentTask.responseTimers st) in
  let pressed := ExperimentTask.run st [ExperimentTask.KeyDown key1; ExperimentTask.KeyDown key2] in
  let fired :=
    ExperimentTask.run pressed [ExperimentTask.ResponseTimeout n; ExperimentTask.ResponseTimeout n] in
  ExperimentTask.responseTimers pressed = ExperimentTask.responseTimers st ++ [i; i] /\
  (exists lowered1 lowered2 : string,
     JS.toLowerCase key1 = Some lowered1 /\ JS.toLowerCase key2 = Some lowered2 /\
     ExperimentTask.responses pressed
     = ExperimentTask.recordResponse i lowered2
         (ExperimentTask.recordResponse i lowered1 (ExperimentTask.responses st))) /\
  (JS.toLowerCase key1 = JS.toLowerCase key2 ->
   ExperimentTask.responses pressed
   = ExperimentTask.responses (ExperimentTask.step st (ExperimentTask.KeyDown key1))) /\
  ExperimentTask.currentTrialIndex fired = (i + 2)%Z /\
  ExperimentTask.responseTimers fired = ExperimentTask.responseTimers st.
Proof.
  intros Hreach H1 H2 i n pressed fired.
  destruct (debug_reachable_Inv st Hreach) as [_ [_ _ _ Hs _]].
  destruct (recordsResponse_lowered st key1 H1) as [lowered1 Hk1].
  destruct (recordsResponse_lowered st key2 H2) as [lowered2 Hk2].
  pose proof (step_records st key1 lowered1 Hs Hk1 H1) as E1.
  set (s1 := ExperimentTask.step st (ExperimentTask.KeyDown key1)) in *.
  assert (ExperimentTask.progressionEffect s1 = s1) as Hs1.
  { rewrite E1. now apply progressionEffect_recorded. }
  assert (recordsResponse s1 key2 = true) as H2'.
  { rewrite E1. exact H2. }
  pose proof (step_records s1 key2 lowered2 Hs1 Hk2 H2') as E2.
  assert (pressed = ExperimentTask.step s1 (ExperimentTask.KeyDown key2)) as Hpressed by reflexivity.
  assert (ExperimentTask.currentTrialIndex s1 = i) as Hi1 by (rewrite E1; reflexivity).
  assert (ExperimentTask.responseTimers s1 = ExperimentTask.responseTimers st ++ [i]) as Ht1
    by (rewrite E1; reflexivity).
  assert (ExperimentTask.responses s1
          = ExperimentTask.recordResponse i lowered1 (ExperimentTask.responses st))
    as Hr1 by (rewrite E1; reflexivity).
  assert (ExperimentTask.responseTimers pressed = ExperimentTask.responseTimers st ++ [i; i])
    as Ht2.
  { rewrite Hpressed, E2. simpl. rewrite Ht1, Hi1, <- app_assoc. reflexivity. }
  assert (ExperimentTask.responses pressed
          = ExperimentTask.recordResponse i lowered2
              (ExperimentTask.recordResponse i lowered1
                 (ExperimentTask.responses st))) as Hr2.
  { rewrite Hpressed, E2. simpl. now rewrite Hr1, Hi1. }
  assert (ExperimentTask.currentTrialIndex pressed = i) as Hi2.
  { rewrite Hpressed, E2. simpl. exact Hi1. }
  split; [exact Ht2|]. split; [exists lowered1, lowered2; auto|]. split.
  { intros Hsame. rewrite Hk1, Hk2 in Hsame. injection Hsame as Hsame.
    rewrite Hr2, Hr1, Hsame.
    unfold ExperimentTask.recordResponse at 1.
    now rewrite recordResponse_recorded. }
  destruct (step_responseTimeout pressed (ExperimentTask.responseTimers st) [i] i Ht2)
    as (Ei3 & Et3 & _).
  fold n in Ei3, Et3.
  set (s3 := ExperimentTask.step pressed (ExperimentTask.ResponseTimeout n)) in *.
  destruct (step_responseTimeout s3 (ExperimentTask.responseTimers st) [] i Et3)
    as (Ei4 & Et4 & _).
  fold n in Ei4, Et4.
  assert (fired = ExperimentTask.step s3 (ExperimentTask.ResponseTimeout n)) as -> by reflexivity.
  split.
  - rewrite Ei4, Ei3, Hi2. lia.
  - rewrite Et4. apply app_nil_r.
Qed.

(** ['n'] and ['z'] are pressed in the fixation of trial 1: after the two
    timers trial 3 is current. *)
Lemma two_presses_in_one_fixation_skip_a_trial_witness :
  DebugControls.reachable Scenarios.unansweredFixation /\
  recordsResponse Scenarios.unansweredFixation "n" = true /\
  recordsResponse Scenarios.unansweredFixation "z" = true /\
  ExperimentTask.currentTrialIndex Scenarios.unansweredFixation = 1%Z /\
  ExperimentTask.currentTrialIndex
    (ExperimentTask.run
       (ExperimentTask.run Scenarios.unansweredFixation
          [ExperimentTask.KeyDown "n"; ExperimentTask.KeyDown "z"])
       [ExperimentTask.ResponseTimeout
          (length (ExperimentTask.responseTimers Scenarios.unansweredFixation));
        ExperimentTask.ResponseTimeout
          (length (ExperimentTask.responseTimers Scenarios.unansweredFixation))])
  = (ExperimentTask.currentTrialIndex Scenarios.unansweredFixation + 2)%Z.
Proof.
  assert (DebugControls.reachable Scenarios.unansweredFixation) as Hreach
    by (apply reachable_debug_reachable; eexists; reflexivity).
  assert (recordsResponse Scenarios.unansweredFixation "n" = true) as Hn
    by (vm_compute; reflexivity).
  assert (recordsResponse Scenarios.unansweredFixation "z" = true) as Hz
    by (vm_compute; reflexivity).
  split; [exact Hreach|]. split; [exact Hn|]. split; [exact Hz|].
  split; [vm_compute; reflexivity|].
  destruct (two_presses_in_one_fixation_skip_a_trial Scenarios.unansweredFixation "n" "z"
              Hreach Hn Hz) as (_ & _ & _ & Hindex & _).
  exact Hindex.
Defined.

(** ** The totals of the final results *)

Lemma fold_addBlock (blocks : list BlockResult) : forall acc : BlockResult,
  fold_left addBlock blocks acc
  = mkBlockResult
      (nBackCorrect acc + list_sum (map nBackCorrect blocks))
      (nBackMissed acc + list_sum (map nBackMissed blocks))
      (nBackFalseAlarms acc + list_sum (map nBackFalseAlarms blocks))
      (pmCueCorrect acc + list_sum (map pmCueCorrect blocks))
      (pmCueMissed acc + list_sum (map pmCueMissed blocks))
      (pmCueFalseAlarms acc + list_sum (map pmCueFalseAlarms blocks))
      (totalImages acc + list_sum (map totalImages blocks))
      (totalPMCues acc + list_sum (map totalPMCues blocks))
      (totalNBackMatches acc + list_sum (map totalNBackMatches blocks)).
Proof.
  induction blocks as [|b rest IH]; intros acc.
  - simpl. destruct acc. simpl. f_equal; lia.
  - simpl fold_left. rewrite IH. unfold addBlock. simpl. f_equal; lia.
Qed.

Lemma list_sum_allBlocks_append (f : BlockResult -> nat) (d : SessionResults)
    (session : SessionType) (b : BlockResult) :
  list_sum (map f (allBlocks (appendBlock d session b)))
  = list_sum (map f (allBlocks d)) + f b.
Proof.
  unfold allBlocks. destruct session; simpl;
    rewrite !map_app, !list_sum_app; simpl; lia.
Qed.

(** X11. [calculateFinalResults] sums the blocks: appending a block to a
    session adds its nine counts to the nine totals, the breakdown returned
    is the data given, and data without blocks gives zero totals and the
    accuracy strings 0.00. *)
Theorem final_results_grow_by_the_block
    (d : SessionResults) (session : SessionType) (b : BlockResult) :
  let r := calculateFinalResults d in
  let r' := calculateFinalResults (appendBlock d session b) in
  r_nBackCorrect r' = r_nBackCorrect r + nBackCorrect b /\
  r_nBackMissed r' = r_nBackMissed r + nBackMissed b /\
  r_nBackFalseAlarms r' = r_nBackFalseAlarms r + nBackFalseAlarms b /\
  r_pmCueCorrect r' = r_pmCueCorrect r + pmCueCorrect b /\
  r_pmCueMissed r' = r_pmCueMissed r + pmCueMissed b /\
  r_pmCueFalseAlarms r' = r_pmCueFalseAlarms r + pmCueFalseAlarms b /\
  r_totalImages r' = r_totalImages r + totalImages b /\
  r_totalPMCues r' = r_totalPMCues r + totalPMCues b /\
  r_totalNBackMatches r' = r_totalNBackMatches r + totalNBackMatches b /\
  r_sessionResults r' = appendBlock d session b /\
  calculateFinalResults (mkSessionResults [] [] [])
  = mkResults 0 0 0 0 0 0 0 0 0 "0.00" "0.00" (mkSessionResults [] [] []).
Proof.
  intros r r'. subst r r'. unfold calculateFinalResults. rewrite !fold_addBlock.
  cbn [r_nBackCorrect r_nBackMissed r_nBackFalseAlarms r_pmCueCorrect r_pmCueMissed
       r_pmCueFalseAlarms r_totalImages r_totalPMCues r_totalNBackMatches r_sessionResults
       nBackCorrect nBackMissed nBackFalseAlarms pmCueCorrect pmCueMissed pmCueFalseAlarms
       totalImages totalPMCues totalNBackMatches].
  rewrite !list_sum_allBlocks_append.
  repeat split; reflexivity.
Qed.

Lemma calculateFinalResults_append (d : SessionResults) (session : SessionType) (b : BlockResult) :
  let r := calculateFinalResults d in
  let r' := calculateFinalResults (appendBlock d session b) in
  r_nBackCorrect r' = r_nBackCorrect r + nBackCorrect b /\
  r_nBackMissed r' = r_nBackMissed r + nBackMissed b /\
  r_pmCueCorrect r' = r_pmCueCorrect r + pmCueCorrect b /\
  r_pmCueMissed r' = r_pmCueMissed r + pmCueMissed b /\
  r_totalImages r' = r_totalImages r + totalImages b /\
  r_totalPMCues r' = r_totalPMCues r + totalPMCues b /\
  r_totalNBackMatches r' = r_totalNBackMatches r + totalNBackMatches b.
Proof.
  intros r r'. subst r r'. unfold calculateFinalResults. rewrite !fold_addBlock.
  cbn [r_nBackCorrect r_nBackMissed r_nBackFalseAlarms r_pmCueCorrect r_pmCueMissed
       r_pmCueFalseAlarms r_totalImages r_totalPMCues r_totalNBackMatches r_sessionResults
       nBackCorrect nBackMissed nBackFalseAlarms pmCueCorrect pmCueMissed pmCueFalseAlarms
       totalImages totalPMCues totalNBackMatches].
  rewrite !list_sum_allBlocks_append.
  repeat split; reflexivity.
Qed.

Lemma handleKeyPress_closes st e_key :
  closesBlock st e_key = true ->
  ExperimentTask.handleKeyPress st e_key
  = let (blockResults, s0) := ExperimentTask.scoreBlock st in
    let s1 :=
      ExperimentTask.set_responses ∅
        (ExperimentTask.set_sessionResults
           (appendBlock (ExperimentTask.sessionResults s0) (ExperimentTask.currentSession s0)
              blockResults)
           (ExperimentTask.set_waitingForSpacebar false s0)) in
    if ExperimentTask.currentBlock st <? 2
    then ExperimentTask.set_currentBlock (ExperimentTask.currentBlock s1 + 1) s1
    else
      match ExperimentTask.currentSession st with
      | pleasant => ExperimentTask.set_currentBlock 0 (ExperimentTask.set_currentSession unpleasant s1)
      | unpleasant => ExperimentTask.set_currentBlock 0 (ExperimentTask.set_currentSession neutral s1)
      | neutral =>
          let accuratelyCalculatedResults :=
            withAccuracies (calculateFinalResults (ExperimentTask.sessionResults st)) in
          ExperimentTask.set_completed
            (ExperimentTask.completed s1 ++ [accuratelyCalculatedResults])
            (ExperimentTask.set_isExperimentActive false
               (ExperimentTask.set_results accuratelyCalculatedResults s1))
      end.
Proof.
  intros H. unfold closesBlock in H. repeat (apply andb_prop in H as [H ?]).
  unfold ExperimentTask.handleKeyPress.
  destruct (ExperimentTask.isPaused st); [discriminate|].
  destruct (ExperimentTask.isLoading st); [discriminate|].
  destruct (JS.toLowerCase e_key) as [key|]; [|discriminate].
  unfold ExperimentTask.handleKey.
  destruct (ExperimentTask.waitingForSpacebarAfterPMCues st); [discriminate|].
  destruct (ExperimentTask.waitingForSpacebar st); [|discriminate].
  simpl. match goal with H : String.eqb _ " " = true |- _ => rewrite H end. reflexivity.
Qed.

(** X12. When the space bar closes the last block of the neutral session,
    the results handed to [onComplete] are computed from [sessionResults] as
    it was before the key press: the block just finished is appended to
    [sessionResults] but is no part of the results, whose counts fall short
    of the stored blocks' by that block's tallies. *)
Theorem regular_end_leaves_out_the_last_block
    (st : ExperimentTask.State) (e_key : string) :
  closesBlock st e_key = true ->
  ExperimentTask.currentSession st = neutral ->
  2 <= ExperimentTask.currentBlock st ->
  let st' := ExperimentTask.handleKeyPress st e_key in
  let lastBlock :=
    tallies (mkStore (ExperimentTask.trials st) (ExperimentTask.responses st)) in
  let reported := withAccuracies (calculateFinalResults (ExperimentTask.sessionResults st)) in
  let stored := calculateFinalResults (ExperimentTask.sessionResults st') in
  ExperimentTask.completed st' = ExperimentTask.completed st ++ [reported] /\
  ExperimentTask.results st' = reported /\
  ExperimentTask.isExperimentActive st' = false /\
  ExperimentTask.sessionResults st'
  = appendBlock (ExperimentTask.sessionResults st) neutral lastBlock /\
  r_sessionResults reported = ExperimentTask.sessionResults st /\
  r_totalImages stored = r_totalImages reported + totalImages lastBlock /\
  r_nBackCorrect stored = r_nBackCorrect reported + nBackCorrect lastBlock /\
  r_nBackMissed stored = r_nBackMissed reported + nBackMissed lastBlock /\
  r_pmCueCorrect stored = r_pmCueCorrect reported + pmCueCorrect lastBlock /\
  r_pmCueMissed stored = r_pmCueMissed reported + pmCueMissed lastBlock.
Proof.
  intros Hclose Hsession Hblock st' lastBlock reported stored.
  assert (st' = ExperimentTask.set_completed
                  (ExperimentTask.completed st ++ [reported])
                  (ExperimentTask.set_isExperimentActive false
                     (ExperimentTask.set_results reported
                        (ExperimentTask.set_responses ∅
                           (ExperimentTask.set_sessionResults
                              (appendBlock (ExperimentTask.sessionResults st) neutral lastBlock)
                              (ExperimentTask.set_waitingForSpacebar false st)))))) as Hst'.
  { subst st'. rewrite (handleKeyPress_closes st e_key Hclose), scoreBlock_eq.
    destruct (Nat.ltb_spec (ExperimentTask.currentBlock st) 2); [lia|].
    rewrite Hsession. reflexivity. }
  assert (ExperimentTask.sessionResults st'
          = appendBlock (ExperimentTask.sessionResults st) neutral lastBlock) as Hstored
    by (rewrite Hst'; reflexivity).
  split; [rewrite Hst'; reflexivity|]. split; [rewrite Hst'; reflexivity|].
  split; [rewrite Hst'; reflexivity|]. split; [exact Hstored|]. split; [reflexivity|].
  subst stored. rewrite Hstored.
  destruct (calculateFinalResults_append (ExperimentTask.sessionResults st) neutral lastBlock)
    as (E1 & E2 & E3 & E4 & E5 & E6 & E7).
  repeat split; assumption.
Qed.

(** The last block of the neutral session ends with the space bar. *)
Lemma regular_end_leaves_out_the_last_block_witness :
  closesBlock Scenarios.lastBlockEnded " " = true /\
  ExperimentTask.currentSession Scenarios.lastBlockEnded = neutral /\
  2 <= ExperimentTask.currentBlock Scenarios.lastBlockEnded /\
  r_sessionResults
    (withAccuracies (calculateFinalResults (ExperimentTask.sessionResults Scenarios.lastBlockEnded)))
  = ExperimentTask.sessionResults Scenarios.lastBlockEnded.
Proof.
  assert (closesBlock Scenarios.lastBlockEnded " " = true) as Hcloses
    by (vm_compute; reflexivity).
  assert (ExperimentTask.currentSession Scenarios.lastBlockEnded = neutral) as Hsession
    by (vm_compute; reflexivity).
  assert (2 <= ExperimentTask.currentBlock Scenarios.lastBlockEnded) as Hblock
    by (vm_compute; lia).
  split; [exact Hcloses|]. split; [exact Hsession|]. split; [exact Hblock|].
  destruct (regular_end_leaves_out_the_last_block Scenarios.lastBlockEnded " "
              Hcloses Hsession Hblock) as (_ & _ & _ & _ & Hreported & _).
  exact Hreported.
Defined.

(** X13. When the session is ended outside the trial phase, or before the
    first trial, no block is scored: [sessionResults] stays as it is and the
    results are the totals of the blocks stored before.  With no block
    stored, the counts are 0 and both accuracy strings are 0.00. *)
Theorem early_exit_outside_the_trials_scores_nothing (st : ExperimentTask.State) :
  ExperimentTask.currentPhase st <> phaseTrial \/ (ExperimentTask.currentTrialIndex st < 0)%Z ->
  let st' := ExperimentTask.endSessionAndShowResults st in
  ExperimentTask.sessionResults st' = ExperimentTask.sessionResults st /\
  ExperimentTask.results st'
  = withAccuracies (calculateFinalResults (ExperimentTask.sessionResults st)) /\
  ExperimentTask.completed st' = ExperimentTask.completed st ++ [ExperimentTask.results st'] /\
  ExperimentTask.isExperimentActive st' = false /\
  (allBlocks (ExperimentTask.sessionResults st) = [] ->
   r_nBackCorrect (ExperimentTask.results st') = 0 /\
   r_pmCueCorrect (ExperimentTask.results st') = 0 /\
   r_totalImages (ExperimentTask.results st') = 0 /\
   r_nBackAccuracy (ExperimentTask.results st') = "0.00" /\
   r_pmCueAccuracy (ExperimentTask.results st') = "0.00").
Proof.
  intros H st'.
  assert (match ExperimentTask.currentPhase st with phaseTrial => true | _ => false end
          && (0 <=? ExperimentTask.currentTrialIndex st)%Z = false) as Hguard.
  { destruct H as [H|H].
    - destruct (ExperimentTask.currentPhase st); try reflexivity. now destruct H.
    - destruct (Z.leb_spec 0 (ExperimentTask.currentTrialIndex st)); [lia|].
      apply andb_false_r. }
  subst st'. unfold ExperimentTask.endSessionAndShowResults. rewrite Hguard.
  cbn [ExperimentTask.sessionResults ExperimentTask.results ExperimentTask.completed
       ExperimentTask.isExperimentActive ExperimentTask.set_completed
       ExperimentTask.set_isExperimentActive ExperimentTask.set_results].
  repeat split; try reflexivity;
    unfold withAccuracies, calculateFinalResults; rewrite H0; reflexivity.
Qed.

(** The session is ended on the fresh component, before any trial. *)
Lemma early_exit_outside_the_trials_scores_nothing_witness :
  (ExperimentTask.currentPhase ExperimentTask.initialState <> phaseTrial \/
   (ExperimentTask.currentTrialIndex ExperimentTask.initialState < 0)%Z) /\
  ExperimentTask.sessionResults
    (ExperimentTask.endSessionAndShowResults ExperimentTask.initialState)
  = ExperimentTask.sessionResults ExperimentTask.initialState.
Proof.
  assert (ExperimentTask.currentPhase ExperimentTask.initialState <> phaseTrial \/
          (ExperimentTask.currentTrialIndex ExperimentTask.initialState < 0)%Z) as Hout
    by (right; vm_compute; reflexivity).
  split; [exact Hout|].
  exact (proj1 (early_exit_outside_the_trials_scores_nothing ExperimentTask.initialState Hout)).
Defined.

Lemma balanced_final (d : SessionResults) :
  Forall balanced (allBlocks d) ->
  r_nBackCorrect (calculateFinalResults d) + r_nBackMissed (calculateFinalResults d)
  = r_totalNBackMatches (calculateFinalResults d) /\
  r_pmCueCorrect (calculateFinalResults d) + r_pmCueMissed (calculateFinalResults d)
  = r_totalPMCues (calculateFinalResults d).
Proof.
  intros Hall.
  assert (balanced (fold_left addBlock (allBlocks d) (mkBlockResult 0 0 0 0 0 0 0 0 0))) as [H1 H2].
  { apply balanced_fold; [split; reflexivity|assumption]. }
  split; assumption.
Qed.

(** X14. The results the component hands over in a reachable state are the
    sums of their own per-block breakdown, with the accuracy strings of
    those sums; and their totals of repeat matches and of cues are the
    correct and the missed ones together. *)
Theorem reported_results_are_consistent (st : ExperimentTask.State) (r : Results) :
  DebugControls.reachable st ->
  In r (ExperimentTask.completed st) ->
  let sums := calculateFinalResults (r_sessionResults r) in
  r = withAccuracies sums /\
  r_nBackCorrect r = r_nBackCorrect sums /\
  r_nBackMissed r = r_nBackMissed sums /\
  r_nBackFalseAlarms r = r_nBackFalseAlarms sums /\
  r_pmCueCorrect r = r_pmCueCorrect sums /\
  r_pmCueMissed r = r_pmCueMissed sums /\
  r_pmCueFalseAlarms r = r_pmCueFalseAlarms sums /\
  r_totalImages r = r_totalImages sums /\
  r_totalNBackMatches r = r_totalNBackMatches sums /\
  r_totalPMCues r = r_totalPMCues sums /\
  r_totalNBackMatches r = r_nBackCorrect r + r_nBackMissed r /\
  r_totalPMCues r = r_pmCueCorrect r + r_pmCueMissed r.
Proof.
  intros Hreach Hin sums.
  destruct (debug_reachable_Inv st Hreach) as [_ [_ _ _ _ Hc]].
  rewrite Forall_forall in Hc. destruct (Hc r (proj2 (list_elem_of_In _ _) Hin)) as [Hr Hbal].
  destruct (balanced_final (r_sessionResults r) Hbal) as [Hn Hp]. fold sums in Hn, Hp.
  assert (r_totalNBackMatches r = r_totalNBackMatches sums) as Ht1.
  { rewrite Hr at 1. unfold withAccuracies. cbn [r_totalNBackMatches]. fold sums.
    rewrite <- Hn. apply fixTotal_balanced. }
  assert (r_totalPMCues r = r_totalPMCues sums) as Ht2.
  { rewrite Hr at 1. unfold withAccuracies. cbn [r_totalPMCues]. fold sums.
    rewrite <- Hp. apply fixTotal_balanced. }
  split; [exact Hr|].
  assert (r_nBackCorrect r = r_nBackCorrect sums) as E1 by (rewrite Hr at 1; reflexivity).
  assert (r_nBackMissed r = r_nBackMissed sums) as E2 by (rewrite Hr at 1; reflexivity).
  assert (r_pmCueCorrect r = r_pmCueCorrect sums) as E3 by (rewrite Hr at 1; reflexivity).
  assert (r_pmCueMissed r = r_pmCueMissed sums) as E4 by (rewrite Hr at 1; reflexivity).
  repeat split; try assumption; try (rewrite Hr at 1; reflexivity); lia.
Qed.

(** The results handed over when the session was ended with the button. *)
Lemma reported_results_are_consistent_witness :
  DebugControls.reachable Scenarios.ended /\
  In Examples.resultsOf23Of160 (ExperimentTask.completed Scenarios.ended) /\
  Examples.resultsOf23Of160
  = withAccuracies (calculateFinalResults (r_sessionResults Examples.resultsOf23Of160)).
Proof.
  assert (DebugControls.reachable Scenarios.ended) as Hreach
    by (apply reachable_debug_reachable; eexists; reflexivity).
  assert (In Examples.resultsOf23Of160 (ExperimentTask.completed Scenarios.ended)) as Hin
    by (vm_compute; left; reflexivity).
  split; [exact Hreach|]. split; [exact Hin|].
  exact (proj1 (reported_results_are_consistent Scenarios.ended Examples.resultsOf23Of160
                  Hreach Hin)).
Defined.

Lemma debug_handle_index_change st ev :
  Inv st ->
  ExperimentTask.currentTrialIndex (DebugControls.handle st ev)
  = ExperimentTask.currentTrialIndex st \/
  ExperimentTask.responses (DebugControls.handle st ev)
    !! ExperimentTask.currentTrialIndex (DebugControls.handle st ev) = None.
Proof.
  intros HI. destruct ev as [ev|session|button|]; simpl.
  - now apply handle_index_change.
  - right. apply lookup_empty.
  - right. apply lookup_empty.
  - now left.
Qed.

(** X15. With the debug buttons included, a reachable state has no response
    entry beyond the current index and none at all during the cue phases;
    whenever an event changes the current index, the new index has no entry;
    and a click on a session button or a block button empties the response
    map. *)
Theorem debug_jumps_keep_responses_isolated
    (st : ExperimentTask.State) (ev : DebugControls.Event) :
  DebugControls.reachable st ->
  let st' := DebugControls.step st ev in
  (forall k : Z, (ExperimentTask.currentTrialIndex st < k)%Z ->
                 ExperimentTask.responses st !! k = None) /\
  (isCuePhase (ExperimentTask.currentPhase st) = true -> ExperimentTask.responses st = ∅) /\
  (ExperimentTask.currentTrialIndex st' = ExperimentTask.currentTrialIndex st \/
   ExperimentTask.responses st' !! ExperimentTask.currentTrialIndex st' = None) /\
  (forall session : SessionType,
     ExperimentTask.responses (DebugControls.step st (DebugControls.SelectSession session)) = ∅) /\
  (forall button : DebugControls.BlockButton,
     ExperimentTask.responses (DebugControls.step st (DebugControls.SelectBlock button)) = ∅).
Proof.
  intros Hreach st'. destruct (debug_reachable_Inv st Hreach) as [HI _].
  split; [|split; [|split; [|split]]].
  - intros k Hk. now apply beyond_index_None.
  - apply (inv_cue_phase st HI).
  - subst st'. unfold DebugControls.step.
    destruct (effects_frame st (DebugControls.handle st ev))
      as (_ & _ & Er & _ & _ & _ & _ & _ & _ & Ei).
    rewrite Ei, Er. now apply debug_handle_index_change.
  - intros session. unfold DebugControls.step.
    destruct (effects_frame st (DebugControls.handle st (DebugControls.SelectSession session)))
      as (_ & _ & Er & _). rewrite Er. reflexivity.
  - intros button. unfold DebugControls.step.
    destruct (effects_frame st (DebugControls.handle st (DebugControls.SelectBlock button)))
      as (_ & _ & Er & _). rewrite Er. reflexivity.
Qed.

(** ['n'] is recorded for trial 1 and [Block 2] is clicked. *)
Lemma debug_jumps_keep_responses_isolated_witness :
  DebugControls.reachable Examples.secondFixation /\
  ExperimentTask.responses
    (DebugControls.step Examples.secondFixation
       (DebugControls.SelectBlock DebugControls.Block2)) = ∅.
Proof.
  assert (DebugControls.reachable Examples.secondFixation) as Hreach
    by (apply reachable_debug_reachable; eexists; reflexivity).
  split; [exact Hreach|].
  destruct (debug_jumps_keep_responses_isolated Examples.secondFixation
              (DebugControls.SelectBlock DebugControls.Block2) Hreach)
    as (_ & _ & _ & _ & Hblock).
  exact (Hblock DebugControls.Block2).
Defined.

(** ** Keys and their lower-case forms *)

(** The handler does nothing for a lower-case form other than [' '], ['n']
    and ['z'], whatever the string is. *)
Lemma handleKey_other_key (s : ExperimentTask.State) (key : string) :
  key <> " " -> key <> "n" -> key <> "z" -> ExperimentTask.handleKey s key = s.
Proof.
  intros Hspace Hn Hz. unfold ExperimentTask.handleKey.
  apply String.eqb_neq in Hspace, Hn, Hz. rewrite Hspace, Hn, Hz, !andb_false_r.
  simpl. now destruct (_ && _).
Qed.

Lemma lowerAscii_n (c : ascii) :
  JS.lowerAscii c = "n"%char -> c = "n"%char \/ c = "N"%char.
Proof. destruct c as [[] [] [] [] [] [] [] []]; vm_compute; intros H; auto; discriminate. Qed.

Lemma lowerAscii_z (c : ascii) :
  JS.lowerAscii c = "z"%char -> c = "z"%char \/ c = "Z"%char.
Proof. destruct c as [[] [] [] [] [] [] [] []]; vm_compute; intros H; auto; discriminate. Qed.

Lemma lowerAscii_space (c : ascii) : JS.lowerAscii c = " "%char -> c = " "%char.
Proof. destruct c as [[] [] [] [] [] [] [] []]; vm_compute; intros H; auto; discriminate. Qed.

Lemma toLowerCase_one (e_key : string) (c : ascii) :
  JS.toLowerCase e_key = Some (String c EmptyString) ->
  exists c0 : ascii, e_key = String c0 EmptyString /\ JS.lowerAscii c0 = c.
Proof.
  destruct e_key as [|c0 rest]; [discriminate|]. simpl.
  destruct (JS.isAscii c0); [|discriminate].
  destruct rest as [|c1 rest]; simpl.
  - intros [= <-]. eauto.
  - destruct (JS.isAscii c1); [|discriminate].
    destruct (JS.toLowerCase rest); discriminate.
Qed.

(** The keys of ASCII characters that the handler acts on: the space bar,
    ['n'], ['z'], ['N'] and ['Z']. *)
Lemma toLowerCase_handled (e_key : string) :
  (JS.toLowerCase e_key = Some " " -> e_key = " ") /\
  (JS.toLowerCase e_key = Some "n" -> e_key = "n" \/ e_key = "N") /\
  (JS.toLowerCase e_key = Some "z" -> e_key = "z" \/ e_key = "Z").
Proof.
  repeat split; intros H; apply toLowerCase_one in H as (c0 & -> & Hc).
  - now rewrite (lowerAscii_space c0 Hc).
  - destruct (lowerAscii_n c0 Hc) as [->| ->]; auto.
  - destruct (lowerAscii_z c0 Hc) as [->| ->]; auto.
Qed.

Lemma lowerAscii_idem (c : ascii) : JS.lowerAscii (JS.lowerAscii c) = JS.lowerAscii c.
Proof. destruct c as [[] [] [] [] [] [] [] []]; vm_compute; reflexivity. Qed.

Lemma lowerAscii_ascii (c : ascii) : JS.isAscii c = true -> JS.isAscii (JS.lowerAscii c) = true.
Proof. destruct c as [[] [] [] [] [] [] [] []]; vm_compute; auto. Qed.

Lemma toLowerCase_idem (s : string) : forall key : string,
  JS.toLowerCase s = Some key -> JS.toLowerCase key = Some key.
Proof.
  induction s as [|c s IH]; intros key H.
  - simpl in H. injection H as <-. reflexivity.
  - simpl in H. destruct (JS.isAscii c) eqn:Hc; [|discriminate].
    destruct (JS.toLowerCase s) as [lowered|]; [|discriminate].
    injection H as <-. simpl.
    now rewrite (lowerAscii_ascii c Hc), (IH lowered eq_refl), lowerAscii_idem.
Qed.

(** X16. The key handler sees a key through its lower-case form only.  For
    a key of ASCII characters, whose lower-case form has the letters A to Z
    lowered: the key and its lower-case form are handled alike and recorded
    alike, and the lower-case form is its own lower-case form.  So ['N']
    and ['Z'] do what ['n'] and ['z'] do. *)
Theorem key_handling_ignores_case (st : ExperimentTask.State) (e_key key : string) :
  JS.toLowerCase e_key = Some key ->
  ExperimentTask.handleKeyPress st key = ExperimentTask.handleKeyPress st e_key /\
  recordsResponse st key = recordsResponse st e_key /\
  closesBlock st key = closesBlock st e_key /\
  JS.toLowerCase key = Some key /\
  ExperimentTask.handleKeyPress st "N" = ExperimentTask.handleKeyPress st "n" /\
  ExperimentTask.handleKeyPress st "Z" = ExperimentTask.handleKeyPress st "z".
Proof.
  intros Hkey. pose proof (toLowerCase_idem e_key key Hkey) as Hidem.
  repeat split.
  - unfold ExperimentTask.handleKeyPress. now rewrite Hkey, Hidem.
  - unfold recordsResponse. now rewrite Hkey, Hidem.
  - unfold closesBlock. now rewrite Hkey, Hidem.
  - exact Hidem.
Qed.

(** The key ['N'], as typed with the shift key or the caps lock. *)
Lemma key_handling_ignores_case_witness :
  JS.toLowerCase "N" = Some "n" /\
  recordsResponse Scenarios.unansweredFixation "n"
  = recordsResponse Scenarios.unansweredFixation "N".
Proof.
  assert (JS.toLowerCase "N" = Some "n") as Hkey by reflexivity.
  split; [exact Hkey|].
  exact (proj1 (proj2 (key_handling_ignores_case Scenarios.unansweredFixation "N" "n" Hkey))).
Defined.

(** ** The structure of a generated block *)

(** The steps of a returning call of the main path. *)
Lemma prepareSessionTrialsWith_parts cuesByBlock sessionType blockIndex tape ts rest :
  Generator.prepareSessionTrialsWith cuesByBlock sessionType blockIndex false tape
  = Returned (ts, rest) ->
  exists (shuffledImages : list string) (uniqueImages shuffledPMCues : list Trial)
         (tape1 tape2 tape3 : list nat),
    let regularImages :=
      imap (Generator.regularImage sessionType blockIndex) (firstn 70 shuffledImages) in
    let selected := Generator.selectPMCues cuesByBlock sessionType blockIndex in
    shuffledImages ≡ₚ Generator.imagesOf sessionType /\
    match Generator.nBackMatchesPerBlock !! blockIndex with
    | Some nBackMatches =>
        exists count,
        Generator.insertRepeats nBackMatches regularImages
          (firstn (70 - 6 - nBackMatches) regularImages) ∅ 0 tape1
        = Returned (uniqueImages, count, tape2)
    | None => uniqueImages = []
    end /\
    shuffledPMCues ≡ₚ selected /\
    Generator.insertPMCues uniqueImages shuffledPMCues tape3
    = Returned (Generator.trials ts, rest) /\
    Generator.pmCues ts = selected.
Proof.
  unfold Generator.prepareSessionTrialsWith, Generator.gbind. intros H.
  destruct (Generator.shuffle (Generator.imagesOf sessionType) tape)
    as [[shuffledImages tape1]| |] eqn:Hsh; try discriminate.
  apply shuffle_perm in Hsh.
  set (regularImages := imap _ (firstn 70 shuffledImages)) in *.
  set (selected := Generator.selectPMCues cuesByBlock sessionType blockIndex) in *.
  match type of H with
  | context [match ?m tape1 with Returned _ => _ | Threw _ => _ | Starved => _ end] =>
      destruct (m tape1) as [[[uniqueImages count] tape2]| |] eqn:Hrep; try discriminate
  end.
  cbn [fst] in H.
  destruct (Generator.shuffle selected tape2) as [[shuffledPMCues tape3]| |] eqn:Hsh2;
    try discriminate.
  apply shuffle_perm in Hsh2.
  destruct (Generator.insertPMCues uniqueImages shuffledPMCues tape3)
    as [[trials tape4]| |] eqn:Hins; try discriminate.
  injection H as <- <-.
  exists shuffledImages, uniqueImages, shuffledPMCues, tape1, tape2, tape3.
  cbv zeta. fold regularImages selected.
  split; [exact Hsh|]. split.
  { destruct (Generator.nBackMatchesPerBlock !! blockIndex) as [nBackMatches|].
    - exists count. exact Hrep.
    - now injection Hrep as <- _ _. }
  split; [exact Hsh2|]. split; [exact Hins|reflexivity].
Qed.

(** *** Counting repeats along the list *)

Lemma filteri_from_after (trials arr : list Trial) : forall pre : list Trial,
  trials = pre ++ arr ->
  length (JS.filteri_from
            (fun t index =>
               (0 <? index) &&
               match trials !! (index - 1) with
               | Some p => String.eqb (id t) (id p)
               | None => false
               end) arr (length pre))
  = repeatsAfter (id <$> last pre) arr.
Proof.
  induction arr as [|x rest IH]; intros pre Heq; [reflexivity|].
  specialize (IH (pre ++ [x])). rewrite length_app in IH. simpl in IH.
  rewrite Nat.add_1_r, last_snoc in IH. simpl in IH.
  simpl JS.filteri_from. simpl repeatsAfter.
  assert (((0 <? length pre) &&
           match trials !! (length pre - 1) with
           | Some p => String.eqb (id x) (id p)
           | None => false
           end)
          = match id <$> last pre with
            | Some p => String.eqb (id x) p
            | None => false
            end) as ->.
  { clear IH. destruct pre as [|a pre _] using rev_ind; [reflexivity|].
    rewrite last_snoc, length_app. simpl.
    replace (length pre + 1 - 1) with (length pre) by lia.
    rewrite Heq, <- app_assoc. simpl.
    rewrite (list_lookup_middle pre (x :: rest) a (length pre) eq_refl).
    replace (length pre + 1) with (S (length pre)) by lia. reflexivity. }
  destruct (id <$> last pre) as [p|]; simpl.
  - destruct (String.eqb (id x) p); simpl;
      rewrite IH by (rewrite Heq, <- app_assoc; reflexivity); reflexivity.
  - rewrite IH by (rewrite Heq, <- app_assoc; reflexivity). reflexivity.
Qed.

Lemma adjacentRepeats_after (trials : list Trial) :
  adjacentRepeats trials = repeatsAfter None trials.
Proof. apply (filteri_from_after trials trials []). reflexivity. Qed.

Lemma repeatsAfter_middle (l1 l2 : list Trial) (y : Trial) : forall previous,
  repeatsAfter previous (l1 ++ y :: l2)
  = repeatsAfter previous (l1 ++ [y]) + repeatsAfter (Some (id y)) l2.
Proof.
  induction l1 as [|a l1 IH]; intros previous; simpl.
  - lia.
  - rewrite IH. lia.
Qed.

(** A copy put right behind its original makes one repeat more. *)
Lemma adjacentRepeats_copy (arr : list Trial) (insertPosition : nat) (imageToRepeat : Trial) :
  0 < insertPosition ->
  arr !! (insertPosition - 1) = Some imageToRepeat ->
  adjacentRepeats (JS.splice_insert arr insertPosition imageToRepeat)
  = S (adjacentRepeats arr).
Proof.
  intros Hpos Hsrc. rewrite !adjacentRepeats_after. unfold JS.splice_insert.
  pose proof (lookup_lt_Some _ _ _ Hsrc) as Hlt.
  assert (firstn insertPosition arr = firstn (insertPosition - 1) arr ++ [imageToRepeat]) as Htake.
  { replace insertPosition with (S (insertPosition - 1)) at 1 by lia.
    now apply take_S_r. }
  assert (arr = firstn (insertPosition - 1) arr ++ imageToRepeat :: skipn insertPosition arr)
    as Harr.
  { rewrite <- (take_drop insertPosition arr) at 1. rewrite Htake, <- app_assoc. reflexivity. }
  rewrite Harr at 3. rewrite Htake.
  set (l1 := firstn (insertPosition - 1) arr). set (l2 := skipn insertPosition arr).
  rewrite (repeatsAfter_middle (l1 ++ [imageToRepeat]) l2 imageToRepeat).
  rewrite (repeatsAfter_middle l1 l2 imageToRepeat).
  rewrite <- app_assoc. simpl.
  rewrite (repeatsAfter_middle l1 [imageToRepeat] imageToRepeat). simpl.
  rewrite String.eqb_refl. lia.
Qed.

Lemma floorRandom_position (r k : nat) : 0 < Generator.floorRandom r k + 1.
Proof. lia. Qed.

(** The loop that inserts the repeats adds one repeat per insertion. *)
Lemma insertRepeats_repeats nBackMatches reference tape :
  forall arr used nBackCount arr' count' rest,
  Generator.insertRepeats nBackMatches reference arr used nBackCount tape
  = Returned (arr', count', rest) ->
  nBackCount <= nBackMatches ->
  adjacentRepeats arr' = adjacentRepeats arr + (nBackMatches - nBackCount).
Proof.
  induction tape as [|r tape IH]; intros arr used nBackCount arr' count' rest H Hle;
    simpl in H.
  - destruct (Nat.leb_spec nBackMatches nBackCount); [|discriminate].
    injection H as <- _ _. lia.
  - destruct (Nat.leb_spec nBackMatches nBackCount).
    { injection H as <- _ _. lia. }
    destruct (arr !! _) as [imageToRepeat|] eqn:Hsrc; [|discriminate].
    destruct (decide _).
    + now apply IH in H.
    + apply IH in H; [|lia].
      rewrite H, adjacentRepeats_copy; [lia|lia|exact Hsrc].
Qed.

Lemma repeatsAfter_fresh (l : list Trial) : forall previous : option string,
  (forall p, previous = Some p -> p ∉ map id l) ->
  NoDup (map id l) ->
  repeatsAfter previous l = 0.
Proof.
  induction l as [|t l IH]; intros previous Hprev Hnd; [reflexivity|].
  simpl in *. apply NoDup_cons in Hnd as [Ht Hnd].
  rewrite IH; [|intros p [= <-]; exact Ht|exact Hnd].
  destruct previous as [p|]; [|reflexivity].
  destruct (String.eqb_spec (id t) p) as [He|]; [|reflexivity].
  exfalso. apply (Hprev p eq_refl). rewrite <- He. apply list_elem_of_here.
Qed.

Lemma adjacentRepeats_distinct (l : list Trial) :
  NoDup (map id l) -> adjacentRepeats l = 0.
Proof.
  intros H. rewrite adjacentRepeats_after. apply repeatsAfter_fresh; [discriminate|exact H].
Qed.

(** *** The ids of the images and of the cues *)

Lemma append_cons (a : ascii) (s t : string) : String a s +:+ t = String a (s +:+ t).
Proof. reflexivity. Qed.

Lemma length_append (s t : string) :
  String.length (s +:+ t) = String.length s + String.length t.
Proof. induction s as [|a s IH]; [reflexivity|]. rewrite append_cons. simpl. now rewrite IH. Qed.

Lemma append_inj_r (s1 s2 t : string) : s1 +:+ t = s2 +:+ t -> s1 = s2.
Proof.
  revert s2. induction s1 as [|a s1 IH]; intros [|b s2] H.
  - reflexivity.
  - apply (f_equal String.length) in H. rewrite !length_append in H. simpl in H. lia.
  - apply (f_equal String.length) in H. rewrite !length_append in H. simpl in H. lia.
  - rewrite !append_cons in H. injection H as -> H. f_equal. now apply IH.
Qed.

Lemma regularImage_id_inj (sessionType : SessionType) (blockIndex i j : nat) (src1 src2 : string) :
  id (Generator.regularImage sessionType blockIndex i src1)
  = id (Generator.regularImage sessionType blockIndex j src2) -> i = j.
Proof.
  unfold Generator.regularImage. cbn [id]. intros H.
  apply String.app_inj in H. apply String.app_inj in H.
  apply append_inj_r in H. now apply pretty_nat_inj in H.
Qed.

Lemma regularImages_NoDup (sessionType : SessionType) (blockIndex : nat)
    (imageArray : list string) :
  NoDup (map id (imap (Generator.regularImage sessionType blockIndex) imageArray)).
Proof.
  apply NoDup_alt. intros i j s Hi Hj.
  change (map id ?l) with (id <$> l) in Hi, Hj.
  rewrite list_lookup_fmap, list_lookup_imap in Hi, Hj.
  destruct (imageArray !! i) as [si|]; [|discriminate].
  destruct (imageArray !! j) as [sj|]; [|discriminate].
  simpl in Hi, Hj. injection Hi as Hi. injection Hj as Hj.
  apply (regularImage_id_inj sessionType blockIndex i j si sj).
  unfold Generator.regularImage. cbn [id]. congruence.
Qed.

Lemma blockCues_lookup (sessionType : SessionType) (block : string) (i : nat) (c : Trial) :
  Generator.blockCues sessionType block !! i = Some c ->
  i < 6 /\ isPMCue c = true /\ type c = sessionType /\
  id c = "pmcue-" +:+ Generator.sessionName sessionType +:+ "-" +:+ block +:+ "-"
         +:+ pretty (i + 1) /\
  src c = "/images/pmcues/" +:+ Generator.sessionName sessionType +:+ "cues/" +:+ block
          +:+ "/" +:+ Generator.sessionName sessionType +:+ "cue" +:+ pretty (i + 1) +:+ ".jpg".
Proof.
  unfold Generator.blockCues. intros H.
  change (map ?f ?l) with (f <$> l) in H. rewrite list_lookup_fmap in H.
  destruct (seq 0 6 !! i) as [k|] eqn:Hk; [|discriminate].
  apply lookup_seq in Hk as [-> Hlt]. simpl in H. injection H as <-.
  repeat split; assumption.
Qed.

Lemma blockCues_NoDup (sessionType : SessionType) (block : string) :
  NoDup (map id (Generator.blockCues sessionType block)).
Proof.
  apply NoDup_alt. intros i j s Hi Hj.
  change (map id ?l) with (id <$> l) in Hi, Hj.
  rewrite list_lookup_fmap in Hi, Hj.
  destruct (Generator.blockCues sessionType block !! i) as [ci|] eqn:Hci; [|discriminate].
  destruct (Generator.blockCues sessionType block !! j) as [cj|] eqn:Hcj; [|discriminate].
  apply blockCues_lookup in Hci as (_ & _ & _ & Ei & _).
  apply blockCues_lookup in Hcj as (_ & _ & _ & Ej & _).
  simpl in Hi, Hj. injection Hi as Hi. injection Hj as Hj.
  assert (id ci = id cj) as H by congruence. rewrite Ei, Ej in H.
  repeat apply String.app_inj in H. apply pretty_nat_inj in H. lia.
Qed.

Lemma blockCues_all_cues (sessionType : SessionType) (block : string) :
  Forall (fun c => isPMCue c = true) (Generator.blockCues sessionType block).
Proof.
  apply Forall_lookup. intros i c H. now apply blockCues_lookup in H as (_ & H & _).
Qed.

Lemma blockCues_length (sessionType : SessionType) (block : string) :
  length (Generator.blockCues sessionType block) = 6.
Proof. unfold Generator.blockCues. now rewrite length_map, length_seq. Qed.

(** The id of a cue is the id of no image. *)
Lemma cue_id_not_image_id (sessionType : SessionType) (block : string) (blockIndex : nat)
    (c : Trial) (index : nat) (src : string) :
  c ∈ Generator.blockCues sessionType block ->
  id c <> id (Generator.regularImage sessionType blockIndex index src).
Proof.
  intros Hc. apply list_elem_of_lookup in Hc as [i Hi].
  apply blockCues_lookup in Hi as (_ & _ & _ & -> & _).
  unfold Generator.regularImage. cbn [id].
  destruct sessionType; unfold Generator.sessionName; rewrite !append_cons; discriminate.
Qed.

Lemma imagesOf_lookup (sessionType : SessionType) (k : nat) (path : string) :
  Generator.imagesOf sessionType !! k = Some path ->
  path = "/images/" +:+ Generator.sessionName sessionType +:+ "/"
         +:+ Generator.sessionName sessionType +:+ pretty (1 + k) +:+ ".jpg".
Proof.
  unfold Generator.imagesOf, Generator.generateImagePaths. intros H.
  change (map ?f ?l) with (f <$> l) in H. rewrite list_lookup_fmap in H.
  destruct (seq 1 76 !! k) as [i|] eqn:Hi; [|discriminate].
  apply lookup_seq in Hi as [-> _]. simpl in H. now injection H as <-.
Qed.

Lemma imagesOf_NoDup (sessionType : SessionType) : NoDup (Generator.imagesOf sessionType).
Proof.
  apply NoDup_alt. intros i j path Hi Hj.
  apply imagesOf_lookup in Hi, Hj. rewrite Hi in Hj.
  repeat apply String.app_inj in Hj. apply append_inj_r, pretty_nat_inj in Hj. lia.
Qed.

(** The path of a cue is the path of no image. *)
Lemma cue_src_not_image_src (sessionType : SessionType) (block : string) (c : Trial)
    (path : string) :
  c ∈ Generator.blockCues sessionType block ->
  path ∈ Generator.imagesOf sessionType ->
  src c <> path.
Proof.
  intros Hc Hp. apply list_elem_of_lookup in Hc as [i Hi].
  apply blockCues_lookup in Hi as (_ & _ & _ & _ & ->).
  apply list_elem_of_lookup in Hp as [k Hk]. apply imagesOf_lookup in Hk as ->.
  destruct sessionType; unfold Generator.sessionName; rewrite !append_cons; discriminate.
Qed.

Lemma selectPMCues_source (sessionType : SessionType) (blockIndex : nat) :
  Generator.selectPMCues Generator.generatePMCuesByBlock sessionType blockIndex
  = Generator.blockCues sessionType (blockFolder blockIndex).
Proof.
  unfold Generator.selectPMCues, Generator.generatePMCuesByBlock, blockFolder.
  cbn [Generator.block1 Generator.block2 Generator.block3].
  destruct (blockIndex =? 0); [now rewrite blockCues_length|].
  destruct (blockIndex =? 1); now rewrite blockCues_length.
Qed.

(** *** What placing the cues does to the images *)

Lemma repeatsAfter_head (l : list Trial) (p q : option string) :
  repeatsAfter p l <= repeatsAfter q l + 1.
Proof.
  destruct l as [|t l]; simpl; [lia|].
  destruct p as [p|], q as [q|]; repeat destruct (String.eqb _ _); lia.
Qed.

Lemma repeatsAfter_fresh_head (l : list Trial) (s : string) (q : option string) :
  s ∉ map id l -> repeatsAfter (Some s) l <= repeatsAfter q l.
Proof.
  destruct l as [|t l]; simpl; [lia|]. intros Hs.
  apply not_elem_of_cons in Hs as [Hs _].
  destruct (String.eqb_spec (id t) s) as [He|]; [congruence|]. lia.
Qed.

Lemma repeatsAfter_insert_fresh (c : Trial) (l2 : list Trial) :
  forall (l1 : list Trial) (previous : option string),
  previous <> Some (id c) ->
  id c ∉ map id (l1 ++ l2) ->
  repeatsAfter previous (l1 ++ c :: l2) <= repeatsAfter previous (l1 ++ l2) /\
  repeatsAfter previous (l1 ++ l2) <= repeatsAfter previous (l1 ++ c :: l2) + 1.
Proof.
  induction l1 as [|a l1 IH]; intros previous Hprev Hfresh.
  - simpl app in *. simpl repeatsAfter.
    assert (match previous with
            | Some p => if String.eqb (id c) p then 1 else 0
            | None => 0
            end = 0) as ->.
    { destruct previous as [p|]; [|reflexivity].
      destruct (String.eqb_spec (id c) p); [congruence|reflexivity]. }
    pose proof (repeatsAfter_fresh_head l2 (id c) previous Hfresh).
    pose proof (repeatsAfter_head l2 previous (Some (id c))). lia.
  - simpl app in *. simpl map in Hfresh. apply not_elem_of_cons in Hfresh as [Hne Hfresh].
    simpl repeatsAfter.
    destruct (IH (Some (id a))) as [H1 H2]; [congruence|assumption|]. lia.
Qed.

Lemma adjacentRepeats_cue (trials : list Trial) (pos : nat) (c : Trial) :
  id c ∉ map id trials ->
  adjacentRepeats (JS.splice_insert trials pos c) <= adjacentRepeats trials /\
  adjacentRepeats trials <= adjacentRepeats (JS.splice_insert trials pos c) + 1.
Proof.
  intros Hfresh. rewrite !adjacentRepeats_after. unfold JS.splice_insert.
  pose proof (repeatsAfter_insert_fresh c (skipn pos trials) (firstn pos trials) None) as H.
  rewrite (take_drop pos trials) in H. apply H; [discriminate|assumption].
Qed.

Lemma imageTrials_splice (trials : list Trial) (pos : nat) (c : Trial) :
  isPMCue c = true ->
  imageTrials (JS.splice_insert trials pos c) = imageTrials trials.
Proof.
  intros Hc. unfold imageTrials, JS.splice_insert.
  rewrite List.filter_app. simpl. rewrite Hc. simpl.
  rewrite <- List.filter_app. now rewrite (take_drop pos trials).
Qed.

Lemma imageTrials_images (l : list Trial) :
  Forall (fun t => isPMCue t = false) l -> imageTrials l = l.
Proof.
  unfold imageTrials. induction 1 as [|t l Ht _ IH]; [reflexivity|].
  simpl. now rewrite Ht, IH.
Qed.

Lemma cueTrials_perm (l1 l2 : list Trial) : l1 ≡ₚ l2 -> cueTrials l1 ≡ₚ cueTrials l2.
Proof.
  unfold cueTrials. induction 1 as [|x l1 l2 _ IH|x y l|l1 l2 l3 _ IH1 _ IH2]; simpl.
  - reflexivity.
  - destruct (isPMCue x); [now constructor|assumption].
  - destruct (isPMCue x), (isPMCue y); try reflexivity. apply perm_swap.
  - now rewrite IH1.
Qed.

Lemma cueTrials_cues (l : list Trial) :
  Forall (fun t => isPMCue t = true) l -> cueTrials l = l.
Proof.
  unfold cueTrials. induction 1 as [|t l Ht _ IH]; [reflexivity|].
  simpl. now rewrite Ht, IH.
Qed.

Lemma cueTrials_images (l : list Trial) :
  Forall (fun t => isPMCue t = false) l -> cueTrials l = [].
Proof.
  unfold cueTrials. induction 1 as [|t l Ht _ IH]; [reflexivity|].
  simpl. now rewrite Ht, IH.
Qed.

Lemma cueTrials_app (l1 l2 : list Trial) : cueTrials (l1 ++ l2) = cueTrials l1 ++ cueTrials l2.
Proof. apply List.filter_app. Qed.

(** The [for] loop over the shuffled cues: the images stay as they are,
    in their order, and each cue comes in once. *)
Lemma insertPMCues_parts cues : forall trials tape trials' rest,
  Generator.insertPMCues trials cues tape = Returned (trials', rest) ->
  Forall (fun c => isPMCue c = true) cues ->
  imageTrials trials' = imageTrials trials /\
  trials' ≡ₚ cues ++ trials.
Proof.
  induction cues as [|c cues IH]; intros trials tape trials' rest H Hcues; simpl in H.
  - injection H as <- _. split; reflexivity.
  - unfold Generator.gbind in H.
    destruct (Generator.insertPMCue trials c tape) as [[trials1 tape1]| |] eqn:H1;
      try discriminate.
    apply insertPMCue_returned in H1 as (pos & Hpos & Hb & ->).
    inversion Hcues as [|? ? Hc Hrest]; subst.
    apply IH in H as [Himg Hperm]; [|assumption].
    rewrite imageTrials_splice in Himg by assumption. split; [exact Himg|].
    rewrite Hperm, splice_insert_perm. simpl. symmetry. apply Permutation_middle.
Qed.

(** No cue makes a repeat, and each cue splits one repeat at most. *)
Lemma insertPMCues_repeats cues : forall trials tape trials' rest,
  Generator.insertPMCues trials cues tape = Returned (trials', rest) ->
  NoDup (map id cues) ->
  Forall (fun c => id c ∉ map id trials) cues ->
  adjacentRepeats trials' <= adjacentRepeats trials /\
  adjacentRepeats trials <= adjacentRepeats trials' + length cues.
Proof.
  induction cues as [|c cues IH]; intros trials tape trials' rest H Hnd Hfresh; simpl in H.
  - injection H as <- _. simpl. lia.
  - unfold Generator.gbind in H.
    destruct (Generator.insertPMCue trials c tape) as [[trials1 tape1]| |] eqn:H1;
      try discriminate.
    apply insertPMCue_returned in H1 as (pos & Hpos & Hb & ->).
    simpl map in Hnd. apply NoDup_cons in Hnd as [Hc Hnd].
    inversion Hfresh as [|? ? Hcfresh Hrest]; subst.
    destruct (adjacentRepeats_cue trials pos c Hcfresh) as [Hle Hge].
    apply IH in H as [H1 H2]; [simpl; lia|assumption|].
    apply Forall_forall. intros c' Hc'. rewrite Forall_forall in Hrest.
    intros Hin. apply list_elem_of_fmap in Hin as (t & Hid & Ht).
    rewrite (splice_insert_perm trials pos c) in Ht.
    apply elem_of_cons in Ht as [->|Ht].
    + apply Hc. rewrite <- Hid. now apply list_elem_of_fmap_2.
    + apply (Hrest c' Hc'). rewrite Hid. now apply list_elem_of_fmap_2.
Qed.

Lemma regularImages_elem (sessionType : SessionType) (blockIndex : nat)
    (imageArray : list string) (t : Trial) :
  t ∈ imap (Generator.regularImage sessionType blockIndex) imageArray ->
  exists (index : nat) (src : string),
    imageArray !! index = Some src /\
    t = Generator.regularImage sessionType blockIndex index src.
Proof.
  intros H. apply list_elem_of_lookup in H as [i Hi].
  rewrite list_lookup_imap in Hi.
  destruct (imageArray !! i) as [src|] eqn:Hsrc; [|discriminate].
  injection Hi as <-. now exists i, src.
Qed.

Lemma NoDup_ids_take (l : list Trial) (k : nat) :
  NoDup (map id l) -> NoDup (map id (firstn k l)).
Proof.
  intros H. change (map id ?x) with (id <$> x) in *. rewrite fmap_take.
  eapply sublist_NoDup; [exact H|apply sublist_take].
Qed.

Lemma table_rows_bound (blockIndex nBackMatches : nat) :
  Generator.nBackMatchesPerBlock !! blockIndex = Some nBackMatches ->
  blockIndex < 3 /\ nBackMatches <= 25.
Proof.
  destruct blockIndex as [|[|[|b]]]; simpl; intros [= <-]; lia.
Qed.

(** What a returning call of the main path is made of, on the pools of
    the source: the images with their repeats, and the six cues put in. *)
Lemma generated_block_parts (sessionType : SessionType) (blockIndex nBackMatches : nat)
    (tape : list nat) (ts : Generator.TrialSet) (rest : list nat) :
  Generator.nBackMatchesPerBlock !! blockIndex = Some nBackMatches ->
  Generator.prepareSessionTrials sessionType blockIndex false tape = Returned (ts, rest) ->
  exists (imageArray : list string) (uniqueImages shuffledPMCues : list Trial)
         (count : nat) (tape1 tape2 tape3 : list nat),
    let regularImages := imap (Generator.regularImage sessionType blockIndex) imageArray in
    Generator.insertRepeats nBackMatches regularImages
      (firstn (70 - 6 - nBackMatches) regularImages) ∅ 0 tape1
    = Returned (uniqueImages, count, tape2) /\
    Generator.insertPMCues uniqueImages shuffledPMCues tape3
    = Returned (Generator.trials ts, rest) /\
    shuffledPMCues ≡ₚ Generator.blockCues sessionType (blockFolder blockIndex) /\
    Generator.pmCues ts = Generator.blockCues sessionType (blockFolder blockIndex) /\
    Forall (fun t => t ∈ firstn (70 - 6 - nBackMatches) regularImages) uniqueImages /\
    Forall (fun t => isPMCue t = false) uniqueImages /\
    imageTrials (Generator.trials ts) = uniqueImages /\
    Generator.trials ts ≡ₚ shuffledPMCues ++ uniqueImages /\
    NoDup imageArray /\
    Forall (fun src => src ∈ Generator.imagesOf sessionType) imageArray.
Proof.
  intros Htab H. rewrite prepareSessionTrials_unfold in H.
  apply prepareSessionTrialsWith_parts in H
    as (shuffledImages & uniqueImages & shuffledPMCues & tape1 & tape2 & tape3 & H).
  cbv zeta in H. rewrite Htab, selectPMCues_source in H.
  destruct H as (Hsh & [count Hrep] & Hcues & Hins & Hpm).
  exists (firstn 70 shuffledImages), uniqueImages, shuffledPMCues, count, tape1, tape2, tape3.
  cbv zeta. set (regularImages := imap _ (firstn 70 shuffledImages)) in *.
  split; [exact Hrep|]. split; [exact Hins|]. split; [exact Hcues|]. split; [exact Hpm|].
  assert (Forall (fun t => t ∈ firstn (70 - 6 - nBackMatches) regularImages) uniqueImages)
    as Hfrom.
  { apply (insertRepeats_returned _ _ _ _ _ _ _ _ _ _ Hrep); [lia|].
    apply Forall_forall. auto. }
  assert (Forall (fun t => isPMCue t = false) uniqueImages) as Himg.
  { eapply Forall_impl; [exact Hfrom|]. intros t Ht. simpl in Ht.
    apply elem_of_take in Ht as (i & Hi & _).
    destruct (regularImages_shape sessionType blockIndex (firstn 70 shuffledImages)) as [_ Hreg].
    rewrite Forall_lookup in Hreg. exact (Hreg i t Hi). }
  split; [exact Hfrom|]. split; [exact Himg|].
  assert (Forall (fun c => isPMCue c = true) shuffledPMCues) as Hall.
  { rewrite Hcues. apply blockCues_all_cues. }
  destruct (insertPMCues_parts _ _ _ _ _ Hins Hall) as [Hi Hp].
  split; [rewrite Hi; now apply imageTrials_images|]. split; [exact Hp|].
  split.
  - eapply sublist_NoDup; [|apply sublist_take]. rewrite Hsh. apply imagesOf_NoDup.
  - apply Forall_forall. intros src Hsrc. apply elem_of_take in Hsrc as (i & Hi' & _).
    rewrite <- Hsh. now apply list_elem_of_lookup_2 in Hi'.
Qed.

Lemma uniqueImages_fresh (sessionType : SessionType) (blockIndex k : nat)
    (imageArray : list string) (uniqueImages cues : list Trial) :
  Forall (fun t => t ∈ firstn k (imap (Generator.regularImage sessionType blockIndex) imageArray))
    uniqueImages ->
  cues ≡ₚ Generator.blockCues sessionType (blockFolder blockIndex) ->
  Forall (fun c => id c ∉ map id uniqueImages) cues.
Proof.
  intros Hfrom Hcues. apply Forall_forall. intros c Hc Hin.
  rewrite Hcues in Hc.
  apply list_elem_of_fmap in Hin as (t & Hid & Ht).
  rewrite Forall_forall in Hfrom. specialize (Hfrom t Ht).
  apply elem_of_take in Hfrom as (i & Hi & _).
  apply list_elem_of_lookup_2, regularImages_elem in Hi as (index & src & _ & ->).
  exact (cue_id_not_image_id _ _ blockIndex c index src Hc Hid).
Qed.

(** X17. In every block the main path returns, the images without the cues
    hold exactly the configured number of adjacent repeats.  The trial list
    itself holds at most that many and at most 6 fewer, one for each cue
    that may stand between an image and its copy. *)
Theorem generated_repeats_are_exact_between_images
    (sessionType : SessionType) (blockIndex nBackMatches : nat)
    (tape : list nat) (ts : Generator.TrialSet) (rest : list nat) :
  Generator.nBackMatchesPerBlock !! blockIndex = Some nBackMatches ->
  Generator.prepareSessionTrials sessionType blockIndex false tape = Returned (ts, rest) ->
  adjacentRepeats (imageTrials (Generator.trials ts)) = nBackMatches /\
  adjacentRepeats (Generator.trials ts) <= nBackMatches /\
  nBackMatches <= adjacentRepeats (Generator.trials ts) + 6.
Proof.
  intros Htab H.
  destruct (generated_block_parts _ _ _ _ _ _ Htab H)
    as (imageArray & uniqueImages & shuffledPMCues & count & tape1 & tape2 & tape3 & Hparts).
  cbv zeta in Hparts.
  destruct Hparts as (Hrep & Hins & Hcues & _ & Hfrom & _ & Himg & _).
  assert (adjacentRepeats uniqueImages = nBackMatches) as Hexact.
  { rewrite (insertRepeats_repeats _ _ _ _ _ _ _ _ _ Hrep) by lia.
    rewrite adjacentRepeats_distinct; [lia|].
    apply NoDup_ids_take, regularImages_NoDup. }
  split; [now rewrite Himg|].
  destruct (insertPMCues_repeats _ _ _ _ _ Hins) as [Hle Hge].
  - rewrite Hcues. apply blockCues_NoDup.
  - eapply uniqueImages_fresh; eassumption.
  - rewrite Hexact in Hle, Hge.
    rewrite (Permutation_length Hcues), blockCues_length in Hge. split; assumption.
Qed.

(** A returning call for block 0: its first cue splits a repeat pair, and
    the images alone still have the 23 repeats. *)
Lemma generated_repeats_are_exact_between_images_witness :
  exists ts : Generator.TrialSet,
    Generator.nBackMatchesPerBlock !! 0 = Some 23 /\
    Generator.prepareSessionTrials pleasant 0 false Examples.splitDraws = Returned (ts, []) /\
    adjacentRepeats (imageTrials (Generator.trials ts)) = 23.
Proof.
  assert (exists ts, Generator.prepareSessionTrials pleasant 0 false Examples.splitDraws
                     = Returned (ts, [])) as [ts Hts].
  { eexists. vm_compute. reflexivity. }
  assert (Generator.nBackMatchesPerBlock !! 0 = Some 23) as Hrow by reflexivity.
  exists ts. split; [exact Hrow|]. split; [exact Hts|].
  exact (proj1 (generated_repeats_are_exact_between_images pleasant 0 23 Examples.splitDraws
                  ts [] Hrow Hts)).
Defined.

(** *** How often an id occurs *)

Lemma occurrences_perm (s : string) (l1 l2 : list Trial) :
  l1 ≡ₚ l2 -> occurrences s l1 = occurrences s l2.
Proof.
  unfold occurrences. induction 1 as [|x l1 l2 _ IH|x y l|l1 l2 l3 _ IH1 _ IH2]; simpl.
  - reflexivity.
  - destruct (String.eqb (id x) s); simpl; congruence.
  - destruct (String.eqb (id x) s), (String.eqb (id y) s); reflexivity.
  - congruence.
Qed.

Lemma occurrences_app (s : string) (l1 l2 : list Trial) :
  occurrences s (l1 ++ l2) = occurrences s l1 + occurrences s l2.
Proof. unfold occurrences. now rewrite List.filter_app, length_app. Qed.

Lemma occurrences_cons (s : string) (t : Trial) (l : list Trial) :
  occurrences s (t :: l) = (if String.eqb (id t) s then 1 else 0) + occurrences s l.
Proof. unfold occurrences. simpl. destruct (String.eqb (id t) s); reflexivity. Qed.

Lemma occurrences_none (s : string) (l : list Trial) :
  s ∉ map id l -> occurrences s l = 0.
Proof.
  induction l as [|t l IH]; intros H; [reflexivity|].
  simpl in H. apply not_elem_of_cons in H as [Hne H].
  rewrite occurrences_cons, IH by assumption.
  destruct (String.eqb_spec (id t) s); [congruence|reflexivity].
Qed.

Lemma occurrences_distinct (s : string) (l : list Trial) :
  NoDup (map id l) -> occurrences s l <= 1.
Proof.
  induction l as [|t l IH]; intros H; [unfold occurrences; simpl; lia|].
  simpl in H. apply NoDup_cons in H as [Ht H].
  rewrite occurrences_cons.
  destruct (String.eqb_spec (id t) s) as [<-|].
  - rewrite occurrences_none by assumption. lia.
  - specialize (IH H). lia.
Qed.

Lemma occurrences_elem (t : Trial) (l : list Trial) :
  t ∈ l -> 1 <= occurrences (id t) l.
Proof.
  induction l as [|a l IH]; intros H; [now apply elem_of_nil in H|].
  rewrite occurrences_cons. apply elem_of_cons in H as [<-|H].
  - rewrite String.eqb_refl. lia.
  - specialize (IH H). lia.
Qed.

(** The loop that inserts the repeats repeats no image twice: an image
    that is there twice is marked as used. *)
Lemma insertRepeats_occurrences nBackMatches reference tape :
  forall arr used nBackCount arr' count' rest,
  Generator.insertRepeats nBackMatches reference arr used nBackCount tape
  = Returned (arr', count', rest) ->
  (forall s, occurrences s arr <= 2) ->
  (forall t, t ∈ arr -> occurrences (id t) arr = 2 -> imageIndexIn reference t ∈ used) ->
  forall s, occurrences s arr' <= 2.
Proof.
  induction tape as [|r tape IH]; intros arr used nBackCount arr' count' rest H Hocc Hused;
    simpl in H.
  - destruct (nBackMatches <=? nBackCount); [|discriminate]. now injection H as <- _ _.
  - destruct (nBackMatches <=? nBackCount); [now injection H as <- _ _|].
    destruct (arr !! _) as [imageToRepeat|] eqn:Hsrc; [|discriminate].
    fold (imageIndexIn reference imageToRepeat) in H.
    destruct (decide _) as [Hin|Hnotin].
    + exact (IH _ _ _ _ _ _ H Hocc Hused).
    + pose proof (list_elem_of_lookup_2 _ _ _ Hsrc) as Hy.
      assert (occurrences (id imageToRepeat) arr = 1) as Hone.
      { pose proof (occurrences_elem _ _ Hy). pose proof (Hocc (id imageToRepeat)).
        destruct (decide (occurrences (id imageToRepeat) arr = 2)) as [H2|]; [|lia].
        now destruct (Hnotin (Hused _ Hy H2)). }
      set (arr1 := JS.splice_insert arr _ imageToRepeat) in *.
      assert (forall s, occurrences s arr1
                        = (if String.eqb (id imageToRepeat) s then 1 else 0) + occurrences s arr)
        as Hocc1.
      { intros s. unfold arr1.
        rewrite (occurrences_perm s _ _ (splice_insert_perm arr _ imageToRepeat)).
        apply occurrences_cons. }
      apply (IH _ _ _ _ _ _ H).
      * intros s. rewrite Hocc1. destruct (String.eqb_spec (id imageToRepeat) s) as [<-|].
        -- lia.
        -- apply Hocc.
      * intros t Ht H2. rewrite Hocc1 in H2.
        destruct (String.eqb_spec (id imageToRepeat) (id t)) as [He|Hne].
        -- apply elem_of_union_l, elem_of_singleton. unfold imageIndexIn. now rewrite He.
        -- apply elem_of_union_r, Hused; [|exact H2].
           unfold arr1 in Ht. rewrite (splice_insert_perm arr _ imageToRepeat) in Ht.
           apply elem_of_cons in Ht as [->|Ht]; [congruence|exact Ht].
Qed.

(** X18. The cues the main path returns are the six cues of the session's
    folder for the block: they have distinct ids and are marked as cues of
    the session's type.  The cue trials of the list are these six in some
    order, each of them exactly once. *)
Theorem generated_cues_are_the_block_cues
    (sessionType : SessionType) (blockIndex nBackMatches : nat)
    (tape : list nat) (ts : Generator.TrialSet) (rest : list nat) :
  Generator.nBackMatchesPerBlock !! blockIndex = Some nBackMatches ->
  Generator.prepareSessionTrials sessionType blockIndex false tape = Returned (ts, rest) ->
  Generator.pmCues ts = Generator.blockCues sessionType (blockFolder blockIndex) /\
  length (Generator.pmCues ts) = 6 /\
  NoDup (map id (Generator.pmCues ts)) /\
  Forall (fun c => isPMCue c = true /\ type c = sessionType) (Generator.pmCues ts) /\
  cueTrials (Generator.trials ts) ≡ₚ Generator.pmCues ts /\
  (forall c, c ∈ Generator.pmCues ts -> occurrences (id c) (Generator.trials ts) = 1).
Proof.
  intros Htab H.
  destruct (generated_block_parts _ _ _ _ _ _ Htab H)
    as (imageArray & uniqueImages & shuffledPMCues & count & tape1 & tape2 & tape3 & Hparts).
  cbv zeta in Hparts.
  destruct Hparts as (_ & _ & Hcues & Hpm & Hfrom & Himg & _ & Hperm & _).
  rewrite Hpm. split; [reflexivity|]. split; [apply blockCues_length|].
  split; [apply blockCues_NoDup|]. split.
  { apply Forall_lookup. intros i c Hc. now apply blockCues_lookup in Hc as (_ & ? & ? & _). }
  split.
  - rewrite (cueTrials_perm _ _ Hperm), cueTrials_app, (cueTrials_images _ Himg), app_nil_r.
    rewrite cueTrials_cues; [exact Hcues|]. rewrite Hcues. apply blockCues_all_cues.
  - intros c Hc.
    rewrite (occurrences_perm _ _ _ Hperm), occurrences_app.
    assert (occurrences (id c) uniqueImages = 0) as ->.
    { apply occurrences_none.
      pose proof (uniqueImages_fresh _ _ _ _ _ _ Hfrom Hcues) as Hfresh.
      rewrite Forall_forall in Hfresh. apply Hfresh. now rewrite Hcues. }
    rewrite (occurrences_perm _ _ _ Hcues).
    pose proof (occurrences_distinct (id c) _ (blockCues_NoDup sessionType (blockFolder blockIndex))).
    pose proof (occurrences_elem c _ Hc). lia.
Qed.

(** The same call: the cues it returns are those of the block. *)
Lemma generated_cues_are_the_block_cues_witness :
  exists ts : Generator.TrialSet,
    Generator.nBackMatchesPerBlock !! 0 = Some 23 /\
    Generator.prepareSessionTrials pleasant 0 false Examples.splitDraws = Returned (ts, []) /\
    Generator.pmCues ts = Generator.blockCues pleasant (blockFolder 0).
Proof.
  assert (exists ts, Generator.prepareSessionTrials pleasant 0 false Examples.splitDraws
                     = Returned (ts, [])) as [ts Hts].
  { eexists. vm_compute. reflexivity. }
  assert (Generator.nBackMatchesPerBlock !! 0 = Some 23) as Hrow by reflexivity.
  exists ts. split; [exact Hrow|]. split; [exact Hts|].
  exact (proj1 (generated_cues_are_the_block_cues pleasant 0 23 Examples.splitDraws
                  ts [] Hrow Hts)).
Defined.

Lemma generated_trial_cases (sessionType : SessionType) (blockIndex k : nat)
    (imageArray : list string) (uniqueImages cues trials : list Trial) (t : Trial) :
  Forall (fun t => t ∈ firstn k (imap (Generator.regularImage sessionType blockIndex) imageArray))
    uniqueImages ->
  cues ≡ₚ Generator.blockCues sessionType (blockFolder blockIndex) ->
  trials ≡ₚ cues ++ uniqueImages ->
  t ∈ trials ->
  t ∈ Generator.blockCues sessionType (blockFolder blockIndex) \/
  exists (index : nat) (path : string),
    index < k /\ imageArray !! index = Some path /\
    t = Generator.regularImage sessionType blockIndex index path.
Proof.
  intros Hfrom Hcues Hperm Ht. rewrite Hperm in Ht.
  apply elem_of_app in Ht as [Ht|Ht]; [left; now rewrite <- Hcues|right].
  rewrite Forall_forall in Hfrom. specialize (Hfrom t Ht).
  apply elem_of_take in Hfrom as (i & Hi & Hlt).
  rewrite list_lookup_imap in Hi.
  destruct (imageArray !! i) as [path|] eqn:Hpath; [|discriminate].
  injection Hi as <-. now exists i, path.
Qed.

Lemma blockCues_cue_inj (sessionType : SessionType) (block : string) (c1 c2 : Trial) :
  c1 ∈ Generator.blockCues sessionType block ->
  c2 ∈ Generator.blockCues sessionType block ->
  id c1 = id c2 \/ src c1 = src c2 -> c1 = c2.
Proof.
  intros H1 H2 He.
  apply list_elem_of_lookup in H1 as [i Hi]. apply list_elem_of_lookup in H2 as [j Hj].
  pose proof (blockCues_lookup _ _ _ _ Hi) as (_ & _ & _ & Ei & Si).
  pose proof (blockCues_lookup _ _ _ _ Hj) as (_ & _ & _ & Ej & Sj).
  assert (i = j) as ->.
  { destruct He as [He|He].
    - rewrite Ei, Ej in He. repeat apply String.app_inj in He.
      apply pretty_nat_inj in He. lia.
    - rewrite Si, Sj in He. repeat apply String.app_inj in He.
      apply append_inj_r, pretty_nat_inj in He. lia. }
  congruence.
Qed.

(** X19. In a returned block no id is on more than two trials; every image
    trial has the session's type and a picture of the session's pool; and
    two trials with the same id or the same picture are the same trial. *)
Theorem no_picture_more_than_twice
    (sessionType : SessionType) (blockIndex nBackMatches : nat)
    (tape : list nat) (ts : Generator.TrialSet) (rest : list nat) :
  Generator.nBackMatchesPerBlock !! blockIndex = Some nBackMatches ->
  Generator.prepareSessionTrials sessionType blockIndex false tape = Returned (ts, rest) ->
  let trials := Generator.trials ts in
  (forall s : string, occurrences s trials <= 2) /\
  (forall t : Trial, t ∈ trials -> isPMCue t = false ->
     type t = sessionType /\ src t ∈ Generator.imagesOf sessionType) /\
  (forall t1 t2 : Trial, t1 ∈ trials -> t2 ∈ trials ->
     id t1 = id t2 \/ src t1 = src t2 -> t1 = t2).
Proof.
  intros Htab H trials.
  destruct (generated_block_parts _ _ _ _ _ _ Htab H)
    as (imageArray & uniqueImages & shuffledPMCues & count & tape1 & tape2 & tape3 & Hparts).
  cbv zeta in Hparts.
  destruct Hparts as (Hrep & _ & Hcues & _ & Hfrom & Himg & _ & Hperm & Hnd & Hpool).
  fold trials in Hperm.
  set (regularImages := imap (Generator.regularImage sessionType blockIndex) imageArray) in *.
  pose proof (fun t => generated_trial_cases _ _ _ _ _ _ _ t Hfrom Hcues Hperm) as Hcases.
  split; [|split].
  - intros s. rewrite (occurrences_perm _ _ _ Hperm), occurrences_app.
    assert (forall s, occurrences s uniqueImages <= 2) as Himages.
    { apply (insertRepeats_occurrences _ _ _ _ _ _ _ _ _ Hrep).
      - intros s'. pose proof (occurrences_distinct s' (firstn (70 - 6 - nBackMatches) regularImages)
                                 (NoDup_ids_take _ _ (regularImages_NoDup _ _ _))). lia.
      - intros t _ Htwo.
        pose proof (occurrences_distinct (id t) (firstn (70 - 6 - nBackMatches) regularImages)
                      (NoDup_ids_take _ _ (regularImages_NoDup _ _ _))). lia. }
    pose proof (occurrences_distinct s shuffledPMCues) as Hc.
    rewrite Hcues in Hc at 1. specialize (Hc (blockCues_NoDup _ _)).
    destruct (decide (s ∈ map id shuffledPMCues)) as [Hin|Hnotin].
    + apply list_elem_of_fmap in Hin as (c & -> & Hc').
      pose proof (uniqueImages_fresh _ _ _ _ _ _ Hfrom Hcues) as Hfresh.
      rewrite Forall_forall in Hfresh.
      rewrite (occurrences_none (id c) uniqueImages) by now apply Hfresh. lia.
    + rewrite (occurrences_none s shuffledPMCues) by assumption. apply Himages.
  - intros t Ht Himage. destruct (Hcases t Ht) as [Hc|(index & path & _ & Hpath & ->)].
    + pose proof (blockCues_all_cues sessionType (blockFolder blockIndex)) as Hall.
      rewrite Forall_forall in Hall. rewrite (Hall t Hc) in Himage. discriminate.
    + split; [reflexivity|]. simpl. rewrite Forall_forall in Hpool.
      apply Hpool. now apply list_elem_of_lookup_2 in Hpath.
  - intros t1 t2 Ht1 Ht2 He.
    destruct (Hcases t1 Ht1) as [Hc1|(i1 & p1 & _ & Hp1 & E1)],
             (Hcases t2 Ht2) as [Hc2|(i2 & p2 & _ & Hp2 & E2)].
    + exact (blockCues_cue_inj _ _ _ _ Hc1 Hc2 He).
    + exfalso. subst t2. destruct He as [He|He].
      * exact (cue_id_not_image_id _ _ blockIndex t1 i2 p2 Hc1 He).
      * apply (cue_src_not_image_src _ _ t1 p2 Hc1); [|exact He].
        rewrite Forall_forall in Hpool. apply Hpool. now apply list_elem_of_lookup_2 in Hp2.
    + exfalso. subst t1. destruct He as [He|He].
      * exact (cue_id_not_image_id _ _ blockIndex t2 i1 p1 Hc2 (eq_sym He)).
      * apply (cue_src_not_image_src _ _ t2 p1 Hc2); [|exact (eq_sym He)].
        rewrite Forall_forall in Hpool. apply Hpool. now apply list_elem_of_lookup_2 in Hp1.
    + subst t1 t2. assert (i1 = i2) as ->.
      { destruct He as [He|He].
        - exact (regularImage_id_inj _ _ _ _ _ _ He).
        - simpl in He. subst p2. rewrite NoDup_alt in Hnd. exact (Hnd _ _ _ Hp1 Hp2). }
      congruence.
Qed.

(** The same call: no id is on more than two of its trials. *)
Lemma no_picture_more_than_twice_witness :
  exists ts : Generator.TrialSet,
    Generator.nBackMatchesPerBlock !! 0 = Some 23 /\
    Generator.prepareSessionTrials pleasant 0 false Examples.splitDraws = Returned (ts, []) /\
    forall s : string, occurrences s (Generator.trials ts) <= 2.
Proof.
  assert (exists ts, Generator.prepareSessionTrials pleasant 0 false Examples.splitDraws
                     = Returned (ts, [])) as [ts Hts].
  { eexists. vm_compute. reflexivity. }
  assert (Generator.nBackMatchesPerBlock !! 0 = Some 23) as Hrow by reflexivity.
  exists ts. split; [exact Hrow|]. split; [exact Hts|].
  exact (proj1 (no_picture_more_than_twice pleasant 0 23 Examples.splitDraws
                  ts [] Hrow Hts)).
Defined.

(** *** A block index outside the table *)

Lemma insertPMCue_step (trials : list Trial) (pmCue : Trial) (r : nat) (tape : list nat) :
  Generator.insertPMCue trials pmCue (r :: tape)
  = if blockedPosition trials (Generator.floorRandom r (length trials + 1))
    then Generator.insertPMCue trials pmCue tape
    else Returned (JS.splice_insert trials (Generator.floorRandom r (length trials + 1)) pmCue,
                   tape).
Proof. reflexivity. Qed.

Lemma insertPMCue_beside_cue (c1 c2 : Trial) (tape : list nat) :
  isPMCue c1 = true -> Generator.insertPMCue [c1] c2 tape = Starved.
Proof.
  intros Hc. induction tape as [|r tape IH]; [reflexivity|].
  rewrite insertPMCue_step. unfold Generator.floorRandom.
  change (length [c1] + 1) with 2. change (2 =? 0) with false. cbv iota.
  pose proof (Nat.mod_upper_bound r 2 ltac:(lia)) as Hr.
  destruct (r mod 2) as [|[|k]]; [| |lia];
    unfold blockedPosition, cueAt; simpl; rewrite Hc; exact IH.
Qed.

Lemma insertPMCues_two_cues (c1 c2 : Trial) (cues : list Trial) (tape : list nat) :
  isPMCue c1 = true -> Generator.insertPMCues [] (c1 :: c2 :: cues) tape = Starved.
Proof.
  intros Hc. cbn [Generator.insertPMCues]. unfold Generator.gbind.
  destruct tape as [|r tape]; [reflexivity|].
  rewrite insertPMCue_step. unfold Generator.floorRandom.
  change (length (@nil Trial) + 1) with 1. change (1 =? 0) with false. cbv iota.
  rewrite Nat.mod_1_r.
  change (blockedPosition [] 0) with false. cbv iota.
  change (JS.splice_insert [] 0 c1) with [c1].
  now rewrite insertPMCue_beside_cue.
Qed.

(** X20. For a block index of 3 or more the table of repeat counts has no
    row, and the main path does not return: there are no images to place, so
    each position the second cue can take lies next to the first cue, and
    the loop that draws its position goes on for as long as numbers are
    supplied. *)
Theorem block_outside_the_table_never_returns
    (sessionType : SessionType) (blockIndex : nat) (tape : list nat) :
  3 <= blockIndex ->
  Generator.nBackMatchesPerBlock !! blockIndex = None /\
  Generator.prepareSessionTrials sessionType blockIndex false tape = Starved.
Proof.
  intros Hb.
  assert (Generator.nBackMatchesPerBlock !! blockIndex = None) as Htab.
  { apply lookup_ge_None_2. simpl. lia. }
  split; [exact Htab|].
  rewrite prepareSessionTrials_unfold.
  unfold Generator.prepareSessionTrialsWith, Generator.gbind.
  destruct (Generator.shuffle (Generator.imagesOf sessionType) tape)
    as [[shuffledImages tape1]|e|] eqn:Hsh; [| |reflexivity].
  2: { now destruct (shuffle_not_thrown _ _ _ Hsh). }
  rewrite Htab. unfold Generator.gret. cbn [fst].
  rewrite selectPMCues_source.
  destruct (Generator.shuffle (Generator.blockCues sessionType (blockFolder blockIndex)) tape1)
    as [[shuffledPMCues tape2]|e|] eqn:Hsh2; [| |reflexivity].
  2: { now destruct (shuffle_not_thrown _ _ _ Hsh2). }
  apply shuffle_perm in Hsh2.
  pose proof (Permutation_length Hsh2) as Hlen. rewrite blockCues_length in Hlen.
  assert (Forall (fun c => isPMCue c = true) shuffledPMCues) as Hall.
  { rewrite Hsh2. apply blockCues_all_cues. }
  destruct shuffledPMCues as [|c1 [|c2 cues]]; try discriminate.
  inversion Hall as [|? ? Hc1 _]; subst.
  now rewrite insertPMCues_two_cues.
Qed.

(** A call for a fourth block, with the draws that make block 0 return. *)
Lemma block_outside_the_table_never_returns_witness :
  3 <= 3 /\
  Generator.prepareSessionTrials pleasant 3 false Examples.splitDraws = Starved.
Proof.
  assert (3 <= 3) as Hblock by lia.
  split; [exact Hblock|].
  exact (proj2 (block_outside_the_table_never_returns pleasant 3 Examples.splitDraws Hblock)).
Defined.

(** *** The practice path *)

Lemma findIndex_from_first {A} (p : A -> bool) (l : list A) : forall (k : nat) (x : A) (i : Z),
  l !! k = Some x -> p x = true ->
  (forall j y, j < k -> l !! j = Some y -> p y = false) ->
  JS.findIndex_from p l i = (i + Z.of_nat k)%Z.
Proof.
  induction l as [|a l IH]; intros k x i Hk Hp Hbefore; [discriminate|].
  destruct k as [|k]; simpl in *.
  - injection Hk as ->. rewrite Hp. lia.
  - rewrite (Hbefore 0 a) by (reflexivity || lia).
    rewrite (IH k x (i + 1)%Z Hk Hp); [lia|].
    intros j y Hj Hy. apply (Hbefore (S j) y); [lia|exact Hy].
Qed.

(** [findIndex] by id finds each trial of a list of distinct ids at its
    own index. *)
Lemma imageIndexIn_distinct (reference : list Trial) (k : nat) (t : Trial) :
  NoDup (map id reference) ->
  reference !! k = Some t ->
  imageIndexIn reference t = Z.of_nat k.
Proof.
  intros Hnd Hk. unfold imageIndexIn, JS.findIndex.
  rewrite (findIndex_from_first _ reference k t 0 Hk); [lia|apply String.eqb_refl|].
  intros j y Hj Hy. apply String.eqb_neq. intros He.
  rewrite NoDup_alt in Hnd.
  assert (j = k); [|lia].
  apply (Hnd j k (id t)); change (map id ?l) with (id <$> l);
    rewrite list_lookup_fmap; [rewrite Hy|rewrite Hk]; simpl; congruence.
Qed.

(** The steps of a returning call of the practice path. *)
Lemma practice_parts cuesByBlock sessionType blockIndex tape ts rest :
  Generator.prepareSessionTrialsWith cuesByBlock sessionType blockIndex true tape
  = Returned (ts, rest) ->
  exists (imageArray : list string) (shuffledRegular : list Trial) (count : nat)
         (tape1 : list nat),
    let practiceImages := firstn 15 shuffledRegular in
    length imageArray = 70 /\
    shuffledRegular ≡ₚ imap (Generator.regularImage sessionType blockIndex) imageArray /\
    Generator.insertRepeats 5 practiceImages practiceImages ∅ 0 tape1
    = Returned (Generator.trials ts, count, rest) /\
    Generator.pmCues ts = Generator.selectPMCues cuesByBlock sessionType blockIndex.
Proof.
  unfold Generator.prepareSessionTrialsWith, Generator.gbind. intros H.
  destruct (Generator.shuffle (Generator.imagesOf sessionType) tape)
    as [[shuffledImages tape1]| |] eqn:Hsh; try discriminate.
  apply shuffle_perm in Hsh. apply Permutation_length in Hsh.
  rewrite imagesOf_length in Hsh.
  set (regularImages := imap _ (firstn 70 shuffledImages)) in *.
  destruct (Generator.shuffle regularImages tape1) as [[shuffledRegular tape2]| |] eqn:Hsh2;
    try discriminate.
  apply shuffle_perm in Hsh2.
  destruct (Generator.insertRepeats 5 (firstn 15 shuffledRegular) (firstn 15 shuffledRegular)
              ∅ 0 tape2) as [[[trials count] tape3]| |] eqn:Hrep; try discriminate.
  injection H as <- <-.
  exists (firstn 70 shuffledImages), shuffledRegular, count, tape2. cbv zeta.
  split; [rewrite length_take, Hsh; reflexivity|].
  split; [exact Hsh2|]. split; [exact Hrep|reflexivity].
Qed.

Lemma practiceImages_facts (sessionType : SessionType) (blockIndex : nat)
    (imageArray : list string) (shuffledRegular : list Trial) :
  length imageArray = 70 ->
  shuffledRegular ≡ₚ imap (Generator.regularImage sessionType blockIndex) imageArray ->
  let practiceImages := firstn 15 shuffledRegular in
  length practiceImages = 15 /\
  NoDup (map id practiceImages) /\
  Forall (fun t => isPMCue t = false) practiceImages.
Proof.
  intros Hlen Hperm practiceImages.
  destruct (regularImages_shape sessionType blockIndex imageArray) as [Hl Hreg].
  split; [|split].
  - unfold practiceImages. rewrite length_take, (Permutation_length Hperm), Hl, Hlen.
    reflexivity.
  - apply NoDup_ids_take. change (map id ?l) with (id <$> l).
    rewrite Hperm. apply regularImages_NoDup.
  - apply Forall_take. rewrite Hperm. exact Hreg.
Qed.

(** X21. The practice path never throws and can always return.  What it
    returns has 20 trials with no cue among them, exactly 5 adjacent repeats
    and no id on more than two trials, beside the cues of the block, which
    are returned but not shown. *)
Theorem practice_block_shape
    (sessionType : SessionType) (blockIndex : nat) (tape : list nat) :
  (forall e : string,
     Generator.prepareSessionTrials sessionType blockIndex true tape <> Threw e) /\
  canReturn (Generator.prepareSessionTrials sessionType blockIndex true) /\
  (forall (ts : Generator.TrialSet) (rest : list nat),
     Generator.prepareSessionTrials sessionType blockIndex true tape = Returned (ts, rest) ->
     length (Generator.trials ts) = 20 /\
     pmCueCount (Generator.trials ts) = 0 /\
     adjacentRepeats (Generator.trials ts) = 5 /\
     (forall s : string, occurrences s (Generator.trials ts) <= 2) /\
     Generator.pmCues ts = Generator.blockCues sessionType (blockFolder blockIndex)).
Proof.
  split; [|split].
  - intros e. rewrite prepareSessionTrials_unfold.
    unfold Generator.prepareSessionTrialsWith, Generator.gbind.
    destruct (Generator.shuffle (Generator.imagesOf sessionType) tape)
      as [[shuffledImages tape1]|e1|] eqn:Hsh;
      [|exfalso; exact (shuffle_not_thrown _ _ _ Hsh)|discriminate].
    apply shuffle_perm in Hsh. apply Permutation_length in Hsh.
    rewrite imagesOf_length in Hsh.
    assert (length (firstn 70 shuffledImages) = 70) as Hlen
      by (rewrite length_take, Hsh; reflexivity).
    set (regularImages := imap _ (firstn 70 shuffledImages)) in *.
    destruct (Generator.shuffle regularImages tape1) as [[shuffledRegular tape2]|e2|] eqn:Hsh2;
      [|exfalso; exact (shuffle_not_thrown _ _ _ Hsh2)|discriminate].
    apply shuffle_perm in Hsh2.
    destruct (practiceImages_facts _ _ _ _ Hlen Hsh2) as (Hl & _).
    destruct (Generator.insertRepeats 5 (firstn 15 shuffledRegular) (firstn 15 shuffledRegular)
                ∅ 0 tape2) as [[[trials count] tape3]|e3|] eqn:Hrep;
      [discriminate| |discriminate].
    exfalso. revert Hrep. apply insertRepeats_not_thrown.
    intros Hnil. rewrite Hnil in Hl. discriminate.
  - rewrite prepareSessionTrials_unfold. unfold Generator.prepareSessionTrialsWith.
    apply canReturn_gbind;
      [apply shuffleInto_extendable|apply shuffleInto_canReturn|].
    intros tape0 shuffledImages tape1 Hsh.
    apply shuffle_perm in Hsh. apply Permutation_length in Hsh.
    rewrite imagesOf_length in Hsh.
    assert (length (firstn 70 shuffledImages) = 70) as Hlen
      by (rewrite length_take, Hsh; reflexivity).
    cbv zeta. set (regularImages := imap _ (firstn 70 shuffledImages)) in *.
    apply canReturn_gbind;
      [apply shuffleInto_extendable|apply shuffleInto_canReturn|].
    intros tape2 shuffledRegular tape3 Hsh2. apply shuffle_perm in Hsh2.
    destruct (practiceImages_facts _ _ _ _ Hlen Hsh2) as (Hl & Hnd & _).
    apply canReturn_gbind.
    + apply insertRepeats_extendable.
    + apply (insertRepeats_canReturn (firstn 15 shuffledRegular) 15 5); [lia|].
      pose proof (repeatsInv_initial (firstn 15 shuffledRegular) 15) as Hinit.
      assert (firstn 15 (firstn 15 shuffledRegular) = firstn 15 shuffledRegular) as Htake
        by (apply firstn_all2; rewrite Hl; lia).
      rewrite Htake in Hinit.
      apply Hinit; [lia|]. intros k t Hk. now apply imageIndexIn_distinct.
    + intros. apply canReturn_gret.
  - intros ts rest H. rewrite prepareSessionTrials_unfold in H.
    apply practice_parts in H as (imageArray & shuffledRegular & count & tape1 & H).
    cbv zeta in H. destruct H as (Hlen & Hperm & Hrep & Hpm).
    destruct (practiceImages_facts _ _ _ _ Hlen Hperm) as (Hl & Hnd & Himg).
    destruct (insertRepeats_returned (fun t => isPMCue t = false) _ _ _ _ _ _ _ _ _ Hrep)
      as (_ & Hl' & Hno); [lia|exact Himg|].
    split; [rewrite Hl', Hl; reflexivity|].
    split; [now apply pmCueCount_none|].
    split.
    { rewrite (insertRepeats_repeats _ _ _ _ _ _ _ _ _ Hrep) by lia.
      now rewrite adjacentRepeats_distinct. }
    split; [|rewrite Hpm; apply selectPMCues_source].
    apply (insertRepeats_occurrences _ _ _ _ _ _ _ _ _ Hrep).
    + intros s. pose proof (occurrences_distinct s _ Hnd). lia.
    + intros t _ Htwo. pose proof (occurrences_distinct (id t) _ Hnd). lia.
Qed.

(** ** Preloading *)

Lemma request_all (images : list string) : forall s : Preload.State,
  Forall (fun path => path <> EmptyString) images ->
  fold_left Preload.request images s
  = Preload.mkState (Preload.toPreload s) (Preload.requested s + length images)
      (Preload.loadedImages s) (Preload.successfullyLoaded s) (Preload.preloadTimeout s)
      (Preload.finished s).
Proof.
  induction images as [|path images IH]; intros s Hall.
  - simpl. rewrite Nat.add_0_r. now destruct s.
  - inversion Hall as [|? ? Hpath Hrest]; subst. simpl fold_left.
    rewrite IH by assumption. unfold Preload.request.
    destruct (String.eqb_spec path EmptyString); [contradiction|]. simpl. f_equal. lia.
Qed.

Lemma imagesToPreload_nonempty (blockPMCues blockTrials : list Trial) :
  Forall (fun path => path <> EmptyString) (Preload.imagesToPreload blockPMCues blockTrials).
Proof.
  unfold Preload.imagesToPreload. apply Forall_forall. intros path Hin.
  apply list_elem_of_In, filter_In in Hin as [_ Hne].
  destruct (String.eqb_spec path EmptyString); [discriminate|assumption].
Qed.

Lemma timesOut_none (evs : list Preload.Event) : timesOut 0 evs = false.
Proof. induction evs as [|[] evs IH]; simpl; auto. Qed.

Lemma onload_settles (s : Preload.State) :
  Preload.loadedImages s + Preload.requested s = Preload.toPreload s ->
  0 < Preload.requested s -> settles 1 s (Preload.onload s).
Proof.
  intros Hsum Hreq. unfold settles, Preload.onload, Preload.finishWhenAllLoaded.
  cbn [Preload.loadedImages Preload.toPreload].
  destruct (Nat.eqb_spec (Preload.loadedImages s + 1) (Preload.toPreload s)),
           (Nat.eqb_spec (Preload.requested s) 1); try lia; simpl; repeat split; lia.
Qed.

Lemma onerror_settles (s : Preload.State) :
  Preload.loadedImages s + Preload.requested s = Preload.toPreload s ->
  0 < Preload.requested s -> settles 0 s (Preload.onerror s).
Proof.
  intros Hsum Hreq. unfold settles, Preload.onerror, Preload.finishWhenAllLoaded.
  cbn [Preload.loadedImages Preload.toPreload].
  destruct (Nat.eqb_spec (Preload.loadedImages s + 1) (Preload.toPreload s)),
           (Nat.eqb_spec (Preload.requested s) 1); try lia; simpl; repeat split; lia.
Qed.

Lemma preloaded_settle (success : nat) (s s1 s' : Preload.State) (ev : Preload.Event)
    (evs : list Preload.Event) :
  success <= 1 ->
  ev <> Preload.TimedOut ->
  0 < Preload.requested s ->
  Preload.loadedImages s + Preload.requested s = Preload.toPreload s ->
  Preload.successfullyLoaded s <= Preload.loadedImages s ->
  settles success s s1 ->
  preloaded s1 s' evs ->
  preloaded s s' (ev :: evs).
Proof.
  intros Hsucc Hev Hreq Hsum Hle (E1 & E2 & E3 & E4 & E5 & E6) (H1 & H2 & H3 & H4).
  assert (settled (ev :: evs) = S (settled evs)) as Hs by (destruct ev; [reflexivity..|congruence]).
  assert (timesOut (Preload.requested s) (ev :: evs) = timesOut (Preload.requested s - 1) evs)
    as Ht by (destruct ev; [reflexivity..|congruence]).
  unfold preloaded. rewrite Hs, Ht. rewrite E1, E2, E3, E5, E6 in *.
  split; [exact H1|]. split; [lia|]. split; [exact H3|].
  rewrite H4. clear H1 H2 H3 H4.
  destruct (Nat.eqb_spec (Preload.requested s) 1) as [Hone|Hmore].
  - rewrite Hone. simpl. rewrite timesOut_none, andb_false_r. simpl. lia.
  - destruct (Nat.ltb_spec 0 (Preload.requested s - 1)); [|lia].
    destruct (Nat.ltb_spec 0 (Preload.requested s)); [|lia]. simpl.
    destruct (Nat.leb_spec (Preload.requested s - 1) (settled evs)),
             (Nat.leb_spec (Preload.requested s) (S (settled evs))); lia.
Qed.

Lemma preload_run (evs : list Preload.Event) : forall s : Preload.State,
  Preload.loadedImages s + Preload.requested s = Preload.toPreload s ->
  Preload.successfullyLoaded s <= Preload.loadedImages s ->
  (Preload.requested s = 0 -> Preload.preloadTimeout s = false) ->
  preloaded s (Preload.run s evs) evs.
Proof.
  induction evs as [|ev evs IH]; intros s Hsum Hsucc Hclear.
  - unfold preloaded, settled. simpl. rewrite Nat.min_0_r, andb_false_r.
    assert ((0 <? Preload.requested s) && (Preload.requested s <=? 0) = false) as ->.
    { destruct (Preload.requested s); reflexivity. }
    repeat split; try assumption; lia.
  - change (Preload.run s (ev :: evs)) with (Preload.run (Preload.handle s ev) evs).
    destruct (Nat.ltb_spec 0 (Preload.requested s)) as [Hreq|Hreq].
    + destruct ev.
      * simpl. destruct (Nat.ltb_spec 0 (Preload.requested s)); [|lia].
        pose proof (onload_settles s Hsum Hreq) as Hset.
        apply (preloaded_settle 1 s (Preload.onload s)); try assumption; [lia|discriminate|].
        destruct Hset as (E1 & E2 & E3 & E4 & E5 & E6).
        apply IH; [lia|lia|]. intros Hz. rewrite E5.
        destruct (Nat.eqb_spec (Preload.requested s) 1); [reflexivity|lia].
      * simpl. destruct (Nat.ltb_spec 0 (Preload.requested s)); [|lia].
        pose proof (onerror_settles s Hsum Hreq) as Hset.
        apply (preloaded_settle 0 s (Preload.onerror s)); try assumption; [lia|discriminate|].
        destruct Hset as (E1 & E2 & E3 & E4 & E5 & E6).
        apply IH; [lia|lia|]. intros Hz. rewrite E5.
        destruct (Nat.eqb_spec (Preload.requested s) 1); [reflexivity|lia].
      * simpl. unfold preloaded.
        change (settled (Preload.TimedOut :: evs)) with (settled evs).
        change (timesOut (Preload.requested s) (Preload.TimedOut :: evs))
          with (0 <? Preload.requested s).
        destruct (Nat.ltb_spec 0 (Preload.requested s)); [|lia].
        destruct (Preload.preloadTimeout s) eqn:Hflag.
        -- destruct (IH (Preload.finishInitialization s)) as (H1 & H2 & H3 & H4);
             [exact Hsum|exact Hsucc|reflexivity|].
           change (Preload.toPreload (Preload.finishInitialization s))
             with (Preload.toPreload s) in H1.
           change (Preload.loadedImages (Preload.finishInitialization s))
             with (Preload.loadedImages s) in H2.
           change (Preload.requested (Preload.finishInitialization s))
             with (Preload.requested s) in H2, H4.
           change (Preload.preloadTimeout (Preload.finishInitialization s)) with false in H4.
           change (Preload.finished (Preload.finishInitialization s))
             with (S (Preload.finished s)) in H4.
           repeat split; try assumption. rewrite H4.
           destruct (Nat.ltb_spec 0 (Preload.requested s)); [|lia]. simpl.
           destruct (Preload.requested s <=? settled evs); lia.
        -- destruct (IH s) as (H1 & H2 & H3 & H4);
             [exact Hsum|exact Hsucc|intros _; exact Hflag|].
           rewrite Hflag in H4. repeat split; try assumption. rewrite H4.
           destruct (Nat.ltb_spec 0 (Preload.requested s)); [reflexivity|lia].
    + assert (Preload.requested s = 0) as Hzero by lia.
      assert (Preload.handle s ev = s) as ->.
      { destruct ev; simpl; rewrite ?Hzero, ?(Hclear Hzero); reflexivity. }
      destruct (IH s) as (H1 & H2 & H3 & H4); try assumption.
      unfold preloaded. rewrite Hzero in *. rewrite (Hclear eq_refl) in *.
      simpl in *. repeat split; try lia.
Qed.

Lemma settled_loads (n : nat) : settled (repeat Preload.Loaded n) = n.
Proof. unfold settled. induction n; simpl; auto. Qed.

Lemma finishInitialization_step (blockPMCues blockTrials : list Trial)
    (st : ExperimentTask.State) :
  let st' := ExperimentTask.step st
               (ExperimentTask.FinishInitialization blockPMCues blockTrials) in
  ExperimentTask.currentPhase st' = phasePMCue /\
  ExperimentTask.currentTrialIndex st' = (-1)%Z /\
  ExperimentTask.currentPMCueIndex st' = 0 /\
  ExperimentTask.responses st' = ∅ /\
  ExperimentTask.trials st' = blockTrials /\
  ExperimentTask.pmCues st' = blockPMCues.
Proof.
  unfold ExperimentTask.step, ExperimentTask.handle.
  unfold ExperimentTask.progressionEffect, ExperimentTask.initializeBlockEffect.
  destruct (_ && _); cbv zeta;
    (destruct (negb _); [repeat split|]);
    cbn [ExperimentTask.finishInitialization ExperimentTask.currentPhase
         ExperimentTask.set_isLoading ExperimentTask.set_initialized
         ExperimentTask.set_waitingForSpacebarAfterPMCues ExperimentTask.set_responses
         ExperimentTask.set_currentPhase];
    repeat match goal with |- context [if ?b then _ else _] => destruct b end;
    repeat split.
Qed.

(** X22. Preloading requests every image, and counts the images that loaded
    or failed up to the number requested.  [finishInitialization] is called
    once by the timer, if it fires while an image is outstanding, and once
    when the last image settles: so never while the timer is pending and an
    image is outstanding, and twice when the timer fires before the last
    image settles.  Each call puts the component back at the first cue with
    no trial current and no response recorded. *)
Theorem preload_finishes_once_or_twice
    (blockPMCues blockTrials : list Trial) (evs : list Preload.Event) :
  let images := Preload.imagesToPreload blockPMCues blockTrials in
  let n := length images in
  let s := Preload.run (Preload.start images) evs in
  Preload.requested (Preload.start images) = n /\
  Preload.loadedImages s = Nat.min n (settled evs) /\
  Preload.successfullyLoaded s <= Preload.loadedImages s /\
  Preload.finished s
  = (if timesOut n evs then 1 else 0) + (if n <=? settled evs then 1 else 0) /\
  Preload.finished s <= 2 /\
  (Preload.finished s = 0 <-> timesOut n evs = false /\ settled evs < n) /\
  (0 < n ->
     Preload.finished
       (Preload.run (Preload.start images) (Preload.TimedOut :: repeat Preload.Loaded n)) = 2) /\
  (forall st : ExperimentTask.State,
     let st' := ExperimentTask.step st
                  (ExperimentTask.FinishInitialization blockPMCues blockTrials) in
     ExperimentTask.currentPhase st' = phasePMCue /\
     ExperimentTask.currentTrialIndex st' = (-1)%Z /\
     ExperimentTask.currentPMCueIndex st' = 0 /\
     ExperimentTask.responses st' = ∅).
Proof.
  intros images n s.
  pose proof (imagesToPreload_nonempty blockPMCues blockTrials) as Hne. fold images in Hne.
  assert (forall evs, let s := Preload.run (Preload.start images) evs in
          Preload.finished s
          = (if timesOut n evs then 1 else 0) + (if n <=? settled evs then 1 else 0) /\
          Preload.requested (Preload.start images) = n /\
          Preload.loadedImages s = Nat.min n (settled evs) /\
          Preload.successfullyLoaded s <= Preload.loadedImages s) as Hall.
  { clear evs s. intros evs s. subst s. unfold Preload.start. fold n.
    destruct (Nat.eqb_spec n 0) as [Hz|Hpos].
    - change (Preload.finishInitialization (Preload.mkState n 0 0 0 true 0))
        with (Preload.mkState n 0 0 0 false 1).
      destruct (preload_run evs (Preload.mkState n 0 0 0 false 1)) as (H1 & H2 & H3 & H4);
        [simpl; lia|simpl; lia|reflexivity|].
      cbn [Preload.toPreload Preload.requested Preload.loadedImages
           Preload.successfullyLoaded Preload.preloadTimeout Preload.finished] in *.
      rewrite Hz in *. rewrite timesOut_none. simpl in *.
      repeat split; lia.
    - rewrite (request_all images _ Hne).
      cbn [Preload.toPreload Preload.requested Preload.loadedImages
           Preload.successfullyLoaded Preload.preloadTimeout Preload.finished].
      fold n. change (0 + n) with n.
      destruct (preload_run evs (Preload.mkState n n 0 0 true 0)) as (H1 & H2 & H3 & H4);
        [simpl; lia|simpl; lia|simpl; lia|].
      cbn [Preload.toPreload Preload.requested Preload.loadedImages
           Preload.successfullyLoaded Preload.preloadTimeout Preload.finished] in *.
      destruct (Nat.ltb_spec 0 n); [|lia]. simpl in H4.
      repeat split; lia. }
  destruct (Hall evs) as (Hfin & Hreq & Hload & Hsucc). fold s in Hfin, Hload, Hsucc.
  split; [exact Hreq|]. split; [exact Hload|]. split; [exact Hsucc|].
  split; [exact Hfin|]. split; [|split; [|split]].
  - rewrite Hfin. destruct (timesOut n evs), (n <=? settled evs); simpl; lia.
  - rewrite Hfin. destruct (timesOut n evs), (Nat.leb_spec n (settled evs)); simpl;
      split; try lia; try (intros [? ?]; (discriminate || lia)); intros _; split; auto.
  - intros Hpos. destruct (Hall (Preload.TimedOut :: repeat Preload.Loaded n)) as (-> & _).
    change (settled (Preload.TimedOut :: repeat Preload.Loaded n))
      with (settled (repeat Preload.Loaded n)).
    rewrite settled_loads. cbn [timesOut].
    destruct (Nat.ltb_spec 0 n); [|lia]. destruct (Nat.leb_spec n n); [reflexivity|lia].
  - intros st st'. pose proof (finishInitialization_step blockPMCues blockTrials st) as H.
    cbv zeta in H. fold st' in H. tauto.
Qed.

(** ** The order of the sessions *)

Lemma transpose_inj (i j : nat) : Inj (=) (=) (transpose i j).
Proof.
  intros a b. unfold transpose.
  destruct (Nat.eqb_spec a i), (Nat.eqb_spec a j), (Nat.eqb_spec b i), (Nat.eqb_spec b j);
    lia.
Qed.

Lemma swap_length {A} (l : list A) (i j : nat) : length (BlockOrder.swap l i j) = length l.
Proof.
  unfold BlockOrder.swap. destruct (l !! i), (l !! j); try reflexivity.
  now rewrite !length_insert.
Qed.

Lemma swap_lookup {A} (l : list A) (i j k : nat) :
  i < length l -> j < length l -> BlockOrder.swap l i j !! k = l !! transpose i j k.
Proof.
  intros Hi Hj. unfold BlockOrder.swap, transpose.
  destruct (lookup_lt_is_Some_2 l i Hi) as [ai Hai], (lookup_lt_is_Some_2 l j Hj) as [aj Haj].
  rewrite Hai, Haj.
  destruct (Nat.eqb_spec k i) as [->|Hki].
  - destruct (decide (i = j)) as [->|Hij].
    + rewrite list_lookup_insert_eq by (rewrite length_insert; lia). congruence.
    + rewrite list_lookup_insert_ne by congruence.
      rewrite list_lookup_insert_eq by lia. congruence.
  - destruct (Nat.eqb_spec k j) as [->|Hkj].
    + rewrite list_lookup_insert_eq by (rewrite length_insert; lia). congruence.
    + now rewrite !list_lookup_insert_ne by congruence.
Qed.

Lemma swap_perm {A} (l : list A) (i j : nat) : BlockOrder.swap l i j ≡ₚ l.
Proof.
  destruct (le_lt_dec (length l) i) as [Hi|Hi].
  { unfold BlockOrder.swap. now rewrite (lookup_ge_None_2 l i Hi). }
  destruct (le_lt_dec (length l) j) as [Hj|Hj].
  { unfold BlockOrder.swap. rewrite (lookup_ge_None_2 l j Hj). now destruct (l !! i). }
  apply Permutation_inj. split; [apply swap_length|].
  exists (transpose i j). split; [apply transpose_inj|].
  intros k. now apply swap_lookup.
Qed.

Lemma swap_app {A} (pre suf : list A) (i j : nat) :
  i < length pre -> j < length pre ->
  BlockOrder.swap (pre ++ suf) i j = BlockOrder.swap pre i j ++ suf.
Proof.
  intros Hi Hj. unfold BlockOrder.swap.
  rewrite !lookup_app_l by assumption.
  destruct (lookup_lt_is_Some_2 pre i Hi) as [ai ->], (lookup_lt_is_Some_2 pre j Hj) as [aj ->].
  rewrite insert_app_l by assumption.
  now rewrite insert_app_l by (rewrite length_insert; assumption).
Qed.

Lemma floorRandom_below (r k : nat) : 0 < k -> Generator.floorRandom r k < k.
Proof.
  intros Hk. unfold Generator.floorRandom.
  destruct (Nat.eqb_spec k 0); [lia|]. now apply Nat.mod_upper_bound.
Qed.

Lemma floorRandom_exact (r k : nat) : r < k -> Generator.floorRandom r k = r.
Proof.
  intros Hk. unfold Generator.floorRandom.
  destruct (Nat.eqb_spec k 0); [lia|]. now apply Nat.mod_small.
Qed.

(** The loop of [shuffleArray] from index [i] down. *)
Lemma shuffleFrom_outcome {A} (i : nat) : forall (l : list A) (tape : list nat),
  i < length l \/ i = 0 ->
  match BlockOrder.shuffleFrom i l tape with
  | Returned (out, rest) => out ≡ₚ l /\ rest = drop i tape /\ i <= length tape
  | Threw _ => False
  | Starved => length tape < i
  end.
Proof.
  induction i as [|i IH]; intros l tape Hi.
  - simpl. unfold Generator.gret. rewrite drop_0. repeat split; [reflexivity|lia].
  - simpl. destruct tape as [|r tape]; [simpl; lia|].
    specialize (IH (BlockOrder.swap l (S i) (Generator.floorRandom r (S i + 1))) tape).
    rewrite swap_length in IH. specialize (IH ltac:(lia)).
    destruct (BlockOrder.shuffleFrom i _ tape) as [[out rest]| |].
    + destruct IH as (Hperm & Hrest & Hlen). split; [|split].
      * rewrite Hperm. apply swap_perm.
      * exact Hrest.
      * simpl. lia.
    + exact IH.
    + simpl. lia.
Qed.

Lemma shuffleFrom_app {A} (i : nat) : forall (pre suf : list A) (tape : list nat)
    (out : list A) (rest : list nat),
  i < length pre ->
  BlockOrder.shuffleFrom i pre tape = Returned (out, rest) ->
  BlockOrder.shuffleFrom i (pre ++ suf) tape = Returned (out ++ suf, rest).
Proof.
  induction i as [|i IH]; intros pre suf tape out rest Hi Hrun.
  - simpl in *. unfold Generator.gret in *. congruence.
  - simpl in *. destruct tape as [|r tape]; [discriminate|].
    rewrite swap_app; [|lia|].
    + apply IH; [rewrite swap_length; lia|exact Hrun].
    + pose proof (floorRandom_below r (S (i + 1))). lia.
Qed.

(** Each order of the elements comes out on some tape. *)
Lemma shuffleFrom_any_order {A} (i : nat) : forall pre target : list A,
  length pre = S i -> target ≡ₚ pre ->
  exists tape, length tape = i /\ BlockOrder.shuffleFrom i pre tape = Returned (target, []).
Proof.
  induction i as [|i IH]; intros pre target Hlen Hperm.
  - destruct pre as [|x [|? ?]]; try discriminate.
    apply Permutation_singleton_r in Hperm as ->. exists []. split; reflexivity.
  - assert (length target = S (S i)) as Htlen by (rewrite Hperm; exact Hlen).
    destruct target as [|t0 target0] using rev_ind; [discriminate|]. clear IHtarget0.
    rename t0 into t, target0 into tinit.
    assert (t ∈ pre) as Hin.
    { rewrite <- Hperm. apply elem_of_app. right. apply list_elem_of_singleton. reflexivity. }
    apply list_elem_of_lookup in Hin as [j Hj].
    pose proof (lookup_lt_Some _ _ _ Hj) as Hjlt.
    set (pre' := BlockOrder.swap pre (S i) j).
    assert (length pre' = S (S i)) as Hlen' by (unfold pre'; rewrite swap_length; exact Hlen).
    assert (pre' !! S i = Some t) as Hlast.
    { unfold pre'. rewrite swap_lookup by lia. unfold transpose.
      rewrite Nat.eqb_refl. exact Hj. }
    assert (pre' = take (S i) pre' ++ [t]) as Hsplit.
    { rewrite <- (take_S_r _ _ _ Hlast). rewrite take_ge by lia. reflexivity. }
    assert (tinit ≡ₚ take (S i) pre') as Hperm'.
    { apply (Permutation_app_inv_r [t]). rewrite <- Hsplit. rewrite Hperm.
      symmetry. apply swap_perm. }
    destruct (IH (take (S i) pre') tinit) as (tape & Htape & Hrun);
      [rewrite length_take; lia|exact Hperm'|].
    exists (j :: tape). split; [simpl; congruence|].
    simpl. rewrite floorRandom_exact by lia. fold pre'. rewrite Hsplit.
    apply shuffleFrom_app; [rewrite length_take; lia|exact Hrun].
Qed.

(** X23. [shuffleArray] returns the elements of the array in some order,
    having drawn one number for each element but one; with fewer numbers to
    draw it is still in its loop, and it never throws.  Every order of the
    elements is returned for some draws. *)
Theorem shuffleArray_permutes {A} (array : list A) (tape : list nat) :
  match BlockOrder.shuffleArray array tape with
  | Returned (out, rest) =>
      out ≡ₚ array /\ rest = drop (length array - 1) tape /\ length array - 1 <= length tape
  | Threw _ => False
  | Starved => length tape < length array - 1
  end /\
  (forall target : list A, target ≡ₚ array ->
     exists draws, length draws = length array - 1 /\
       BlockOrder.shuffleArray array draws = Returned (target, [])).
Proof.
  split.
  - apply shuffleFrom_outcome. lia.
  - intros target Hperm. unfold BlockOrder.shuffleArray.
    destruct array as [|x array].
    + apply Permutation_nil_r in Hperm as ->. exists []. split; reflexivity.
    + cbn [length]. replace (S (length array) - 1) with (length array) by lia.
      now apply shuffleFrom_any_order.
Qed.

Lemma shuffleArray_sessions (tape : list nat) :
  match BlockOrder.shuffleArray [pleasant; unpleasant; neutral] tape with
  | Returned (row, rest) =>
      row ≡ₚ [pleasant; unpleasant; neutral] /\ rest = drop 2 tape /\ 2 <= length tape
  | Threw _ => False
  | Starved => length tape < 2
  end.
Proof. exact (shuffleFrom_outcome 2 [pleasant; unpleasant; neutral] tape ltac:(simpl; lia)). Qed.

Lemma sessionCount_perm (sessionType : SessionType) (row row' : list SessionType) :
  row ≡ₚ row' -> sessionCount sessionType row = sessionCount sessionType row'.
Proof.
  intros Hperm. unfold sessionCount. apply Permutation_length.
  induction Hperm; simpl.
  - constructor.
  - destruct (_ =? _)%string; [constructor|]; assumption.
  - destruct (_ =? _)%string, (_ =? _)%string; try constructor; reflexivity.
  - etransitivity; eassumption.
Qed.

Lemma sessionCount_app (sessionType : SessionType) (l1 l2 : list SessionType) :
  sessionCount sessionType (l1 ++ l2) = sessionCount sessionType l1 + sessionCount sessionType l2.
Proof. unfold sessionCount. now rewrite List.filter_app, length_app. Qed.

Lemma row_lookup (row : list SessionType) (i : nat) :
  row ≡ₚ [pleasant; unpleasant; neutral] -> is_Some (row !! i) <-> i < 3.
Proof.
  intros Hperm. rewrite lookup_lt_is_Some. now rewrite (Permutation_length Hperm).
Qed.

(** X24. The initial value of [blockSessionOrder] takes six draws and has
    three rows, each holding the three sessions once; the component then
    goes through nine sessions, every one of them defined, each session type
    three times, and [moveToNextSession] ends the experiment after the
    ninth. *)
Theorem every_block_runs_the_three_sessions (tape : list nat) :
  match BlockOrder.blockSessionOrder tape with
  | Returned (order, rest) =>
      6 <= length tape /\ rest = drop 6 tape /\
      length order = 3 /\
      Forall (fun row => row ≡ₚ [pleasant; unpleasant; neutral]) order /\
      (forall currentBlock currentSessionIndex,
         is_Some (BlockOrder.currentSession order currentBlock currentSessionIndex)
         <-> currentBlock < 3 /\ currentSessionIndex < 3) /\
      (forall fuel, 8 <= fuel ->
         map (fun '(b, i) => BlockOrder.currentSession order b i)
           (TwoBack.visits fuel TwoBack.initialProgress)
         = map Some (concat order)) /\
      (forall sessionType, sessionCount sessionType (concat order) = 3)
  | Threw _ => False
  | Starved => length tape < 6
  end.
Proof.
  unfold BlockOrder.blockSessionOrder, Generator.gbind, Generator.gret.
  pose proof (shuffleArray_sessions tape) as H1.
  destruct (BlockOrder.shuffleArray _ tape) as [[row1 rest1]| |]; [|exact H1|lia].
  destruct H1 as (Hp1 & Hr1 & Hl1).
  pose proof (shuffleArray_sessions rest1) as H2.
  destruct (BlockOrder.shuffleArray _ rest1) as [[row2 rest2]| |]; [|exact H2|].
  2: { rewrite Hr1, length_drop in H2. lia. }
  destruct H2 as (Hp2 & Hr2 & Hl2).
  pose proof (shuffleArray_sessions rest2) as H3.
  destruct (BlockOrder.shuffleArray _ rest2) as [[row3 rest3]| |]; [|exact H3|].
  2: { rewrite Hr2, Hr1, !length_drop in H3. lia. }
  destruct H3 as (Hp3 & Hr3 & Hl3).
  rewrite Hr1, length_drop in Hl2. rewrite Hr2, Hr1, !length_drop in Hl3.
  split; [lia|]. split; [rewrite Hr3, Hr2, Hr1, !drop_drop; reflexivity|].
  split; [reflexivity|]. split; [repeat constructor; assumption|].
  split; [|split].
  - intros b i. unfold BlockOrder.currentSession.
    destruct b as [|[|[|b]]]; simpl; rewrite ?row_lookup by assumption;
      try (split; [intros ?; lia|intros [_ ?]; assumption]).
    split; [intros [? ?]; discriminate|lia].
  - intros fuel Hfuel.
    pose proof (Permutation_length Hp1) as L1.
    pose proof (Permutation_length Hp2) as L2.
    pose proof (Permutation_length Hp3) as L3.
    destruct row1 as [|a1 [|a2 [|a3 [|? ?]]]]; try discriminate.
    destruct row2 as [|b1 [|b2 [|b3 [|? ?]]]]; try discriminate.
    destruct row3 as [|c1 [|c2 [|c3 [|? ?]]]]; try discriminate.
    do 8 (destruct fuel as [|fuel]; [lia|]). destruct fuel; reflexivity.
  - intros sessionType. cbn [concat]. rewrite app_nil_r, !sessionCount_app.
    rewrite (sessionCount_perm _ _ _ Hp1), (sessionCount_perm _ _ _ Hp2),
      (sessionCount_perm _ _ _ Hp3).
    destruct sessionType; reflexivity.
Qed.

(** ** The pools of cues and images *)

Lemma generateImagePaths_lookup (category : string) (count k : nat) (path : string) :
  Generator.generateImagePaths category count !! k = Some path ->
  k < count /\
  path = "/images/" +:+ category +:+ "/" +:+ category +:+ pretty (1 + k) +:+ ".jpg".
Proof.
  unfold Generator.generateImagePaths. intros H.
  change (map ?f ?l) with (f <$> l) in H. rewrite list_lookup_fmap in H.
  destruct (seq 1 count !! k) as [i|] eqn:Hi; [|discriminate].
  apply lookup_seq in Hi as [-> Hk]. simpl in H. injection H as <-. split; [exact Hk|reflexivity].
Qed.

(** X25. [generateImagePaths] gives as many paths as asked for, no two
    alike, numbered from 1.  The 54 cues of the three blocks of the three
    sessions are cues, differ in their ids and in their pictures, and none
    shows a picture of the image pools, whose 228 paths differ too. *)
Theorem cue_and_image_pools_are_distinct :
  (forall (category : string) (count : nat),
     length (Generator.generateImagePaths category count) = count /\
     NoDup (Generator.generateImagePaths category count) /\
     forall k : nat, k < count ->
       Generator.generateImagePaths category count !! k
       = Some ("/images/" +:+ category +:+ "/" +:+ category +:+ pretty (1 + k) +:+ ".jpg")) /\
  length allCues = 54 /\
  NoDup (map id allCues) /\
  NoDup (map src allCues) /\
  Forall (fun c => isPMCue c = true) allCues /\
  length allImages = 228 /\
  NoDup allImages /\
  (forall (c : Trial) (path : string), c ∈ allCues -> path ∈ allImages -> src c <> path).
Proof.
  split; [|split; [|split; [|split; [|split; [|split; [|split]]]]]].
  - intros category count. split; [|split].
    + unfold Generator.generateImagePaths. now rewrite length_map, length_seq.
    + apply NoDup_alt. intros i j path Hi Hj.
      apply generateImagePaths_lookup in Hi as [_ Hi], Hj as [_ Hj]. rewrite Hi in Hj.
      repeat apply String.app_inj in Hj. apply append_inj_r, pretty_nat_inj in Hj. lia.
    + intros k Hk. unfold Generator.generateImagePaths.
      change (map ?f ?l) with (f <$> l). rewrite list_lookup_fmap.
      rewrite (lookup_seq_lt 1 count k Hk). reflexivity.
  - reflexivity.
  - apply (bool_decide_unpack _). vm_compute. exact I.
  - apply (bool_decide_unpack _). vm_compute. exact I.
  - apply (bool_decide_unpack _). vm_compute. exact I.
  - reflexivity.
  - apply (bool_decide_unpack _). vm_compute. exact I.
  - assert (Forall (fun c => Forall (fun path => src c <> path) allImages) allCues) as H.
    { apply (bool_decide_unpack _). vm_compute. exact I. }
    intros c path Hc Hp. rewrite Forall_forall in H. specialize (H c Hc).
    rewrite Forall_forall in H. exact (H path Hp).
Qed.

(** ** The revision that scores two trials back *)

Lemma isTwoBackMatch_at (trials : list Trial) (index : nat) (trial earlier : Trial) :
  2 <= index -> trials !! index = Some trial -> trials !! (index - 2) = Some earlier ->
  isTwoBackMatch trials index = String.eqb (src trial) (src earlier).
Proof.
  intros H2 Ht He. unfold isTwoBackMatch. rewrite Ht, He.
  destruct (Nat.leb_spec 2 index); [reflexivity|lia].
Qed.

Lemma isTwoBackMatch_early (trials : list Trial) (index : nat) :
  index < 2 -> isTwoBackMatch trials index = false.
Proof.
  intros H. unfold isTwoBackMatch. destruct (Nat.leb_spec 2 index); [lia|reflexivity].
Qed.

Lemma forEach_scoreTrial (trials : list Trial) (responses : gmap Z (list string))
    (rest : list Trial) : forall (index : nat) (b : TwoBack.BlockResult),
  drop index trials = rest ->
  TwoBack.forEach_from (TwoBack.scoreTrial trials responses) rest index b
  = TwoBack.mkBlockResult
      (TwoBack.nBackCorrect b
       + countFrom index (length rest)
           (fun i => isTwoBackMatch trials i && TwoBack.hasResponse responses i))
      (TwoBack.nBackMissed b
       + countFrom index (length rest)
           (fun i => isTwoBackMatch trials i && negb (TwoBack.hasResponse responses i)))
      (TwoBack.nBackFalseAlarms b
       + countFrom index (length rest)
           (fun i => (2 <=? i) && negb (isTwoBackMatch trials i)
                     && TwoBack.hasResponse responses i))
      (TwoBack.pmCueCorrect b) (TwoBack.pmCueMissed b) (TwoBack.pmCueFalseAlarms b)
      (TwoBack.totalImages b) (TwoBack.totalPMCues b)
      (TwoBack.totalNBackMatches b + countFrom index (length rest) (isTwoBackMatch trials))
      (TwoBack.sessionType b).
Proof.
  induction rest as [|trial rest IH]; intros index b Hdrop.
  - simpl. rewrite !countFrom_0, !Nat.add_0_r. now destruct b.
  - assert (trials !! index = Some trial) as Ht.
    { rewrite <- (Nat.add_0_r index), <- lookup_drop, Hdrop. reflexivity. }
    assert (drop (S index) trials = rest) as Hdrop'.
    { rewrite (drop_S _ _ _ Ht) in Hdrop. now injection Hdrop. }
    cbn [TwoBack.forEach_from length]. rewrite (IH (S index) _ Hdrop'). clear IH.
    rewrite !countFrom_S. unfold TwoBack.scoreTrial.
    destruct (Nat.leb_spec 2 index) as [H2|H2].
    + destruct (lookup_lt_is_Some_2 trials (index - 2)) as [earlier He].
      { apply lookup_lt_Some in Ht. lia. }
      rewrite He, (isTwoBackMatch_at trials index trial earlier H2 Ht He).
      destruct (String.eqb (src trial) (src earlier)),
               (TwoBack.hasResponse responses index); simpl; f_equal; lia.
    + rewrite (isTwoBackMatch_early trials index H2). simpl. f_equal; lia.
Qed.

Lemma forEach_scoreCue (responses : gmap Z (list string)) (cues : list Trial) :
  forall (index : nat) (b : TwoBack.BlockResult),
  TwoBack.forEach_from (TwoBack.scoreCue responses) cues index b
  = TwoBack.mkBlockResult
      (TwoBack.nBackCorrect b) (TwoBack.nBackMissed b) (TwoBack.nBackFalseAlarms b)
      (TwoBack.pmCueCorrect b
       + countFrom index (length cues) (TwoBack.hasResponse responses))
      (TwoBack.pmCueMissed b
       + countFrom index (length cues) (fun i => negb (TwoBack.hasResponse responses i)))
      (TwoBack.pmCueFalseAlarms b)
      (TwoBack.totalImages b) (TwoBack.totalPMCues b) (TwoBack.totalNBackMatches b)
      (TwoBack.sessionType b).
Proof.
  induction cues as [|cue cues IH]; intros index b.
  - simpl. rewrite !countFrom_0, !Nat.add_0_r. now destruct b.
  - cbn [TwoBack.forEach_from length]. rewrite (IH (S index)). clear IH.
    rewrite !countFrom_S. unfold TwoBack.scoreCue.
    destruct (TwoBack.hasResponse responses index); simpl; f_equal; lia.
Qed.

(** X26. The scorer of this revision takes the trial two back with the same
    picture for a match and any recorded key for a response, from trial 2
    on: it counts the matches, those with a response as correct, those
    without as missed, and the other trials with a response as false alarms.
    The cues are scored by their place among the cues: cue [i] is correct
    when trial [i] of the block has a response, and missed otherwise.  So
    the correct and the missed ones add up to the totals, [totalImages]
    counts all trials, the cues among them included, and [pmCueFalseAlarms]
    stays 0. *)
Theorem two_back_scorer_counts (trials pmCues : list Trial)
    (responses : gmap Z (list string)) (currentSession : SessionType) :
  let b := TwoBack.evaluateBlockPerformance trials pmCues responses currentSession in
  let n := length trials in
  TwoBack.totalNBackMatches b = countPositions n (isTwoBackMatch trials) /\
  TwoBack.nBackCorrect b
  = countPositions n (fun i => isTwoBackMatch trials i && TwoBack.hasResponse responses i) /\
  TwoBack.nBackMissed b
  = countPositions n (fun i => isTwoBackMatch trials i
                               && negb (TwoBack.hasResponse responses i)) /\
  TwoBack.nBackFalseAlarms b
  = countPositions n (fun i => (2 <=? i) && negb (isTwoBackMatch trials i)
                               && TwoBack.hasResponse responses i) /\
  TwoBack.pmCueCorrect b = countPositions (length pmCues) (TwoBack.hasResponse responses) /\
  TwoBack.pmCueMissed b
  = countPositions (length pmCues) (fun i => negb (TwoBack.hasResponse responses i)) /\
  TwoBack.pmCueFalseAlarms b = 0 /\
  TwoBack.nBackCorrect b + TwoBack.nBackMissed b = TwoBack.totalNBackMatches b /\
  TwoBack.pmCueCorrect b + TwoBack.pmCueMissed b = TwoBack.totalPMCues b /\
  TwoBack.totalPMCues b = length pmCues /\
  TwoBack.totalImages b = n /\
  TwoBack.totalNBackMatches b + TwoBack.nBackFalseAlarms b <= n - 2 /\
  TwoBack.sessionType b = currentSession.
Proof.
  intros b n. subst b. unfold TwoBack.evaluateBlockPerformance.
  rewrite (forEach_scoreTrial trials responses trials 0) by apply drop_0.
  rewrite forEach_scoreCue.
  cbn [TwoBack.nBackCorrect TwoBack.nBackMissed TwoBack.nBackFalseAlarms TwoBack.pmCueCorrect
       TwoBack.pmCueMissed TwoBack.pmCueFalseAlarms TwoBack.totalImages TwoBack.totalPMCues
       TwoBack.totalNBackMatches TwoBack.sessionType Nat.add].
  fold n. unfold countPositions.
  repeat split.
  - apply countFrom_split.
  - rewrite Nat.add_comm. pose proof (countFrom_complement 0 (length pmCues)
      (fun i => negb (TwoBack.hasResponse responses i))) as H.
    rewrite <- H at 3. f_equal. apply countFrom_ext. intros i _. now rewrite negb_involutive.
  - destruct n as [|[|n]].
    + reflexivity.
    + rewrite !countFrom_S, !countFrom_0. rewrite isTwoBackMatch_early by lia. reflexivity.
    + rewrite (countFrom_app 0 2 n), (countFrom_app 0 2 n _).
      rewrite (countFrom_false 0 2) by (intros i Hi; apply isTwoBackMatch_early; lia).
      rewrite (countFrom_false 0 2).
      2: { intros i Hi. destruct (Nat.leb_spec 2 i); [lia|reflexivity]. }
      simpl. replace (n - 0) with n by lia. apply countFrom_le_sum.
      intros i. destruct (isTwoBackMatch trials i); [|reflexivity].
      cbn [negb andb]. now rewrite andb_false_r.
Qed.

Lemma fold_addBlock_snoc (l : list TwoBack.BlockResult) (b : TwoBack.BlockResult)
    (t : TwoBack.Totals) :
  fold_left TwoBack.addBlock (l ++ [b]) t = TwoBack.addBlock (fold_left TwoBack.addBlock l t) b.
Proof. now rewrite fold_left_app. Qed.

(** X27. In this revision the space bar that ends the ninth session hands
    over the results of the first eight.  After eight sessions the component
    is at the third session of the third block and still active; the ninth
    performance is appended to [blockResults], but [moveToNextSession]
    computes the final results from the array it saw before: they hold the
    eight earlier sessions, and their totals fall short by the ninth. *)
Theorem ninth_session_is_left_out
    (performances : list TwoBack.BlockResult) (last : TwoBack.BlockResult) :
  length performances = 8 ->
  let before :=
    fold_left (fun p b => TwoBack.closeSession b p) performances TwoBack.initialProgress in
  let after := TwoBack.closeSession last before in
  let reported := TwoBack.calculateFinalResults performances in
  let stored := TwoBack.calculateFinalResults (TwoBack.blockResults after) in
  TwoBack.currentBlock before = 2 /\ TwoBack.currentSessionIndex before = 2 /\
  TwoBack.isExperimentActive before = true /\ TwoBack.completed before = [] /\
  TwoBack.blockResults before = performances /\
  TwoBack.blockResults after = performances ++ [last] /\
  TwoBack.isExperimentActive after = false /\
  TwoBack.completed after = [reported] /\
  TwoBack.f_sessionResults reported = performances /\
  TwoBack.f_nBackCorrect stored = TwoBack.f_nBackCorrect reported + TwoBack.nBackCorrect last /\
  TwoBack.f_nBackMissed stored = TwoBack.f_nBackMissed reported + TwoBack.nBackMissed last /\
  TwoBack.f_pmCueCorrect stored = TwoBack.f_pmCueCorrect reported + TwoBack.pmCueCorrect last /\
  TwoBack.f_pmCueMissed stored = TwoBack.f_pmCueMissed reported + TwoBack.pmCueMissed last /\
  TwoBack.f_totalImages stored = TwoBack.f_totalImages reported + TwoBack.totalImages last.
Proof.
  intros Hlen before after reported stored.
  assert (TwoBack.currentBlock before = 2 /\ TwoBack.currentSessionIndex before = 2 /\
          TwoBack.isExperimentActive before = true /\ TwoBack.completed before = [] /\
          TwoBack.blockResults before = performances) as (Hb & Hs & Ha & Hc & Hr).
  { subst before.
    destruct performances as [|p1 [|p2 [|p3 [|p4 [|p5 [|p6 [|p7 [|p8 [|? ?]]]]]]]]];
      try discriminate.
    repeat split. }
  assert (TwoBack.blockResults after = performances ++ [last]) as Hafter.
  { subst after. unfold TwoBack.closeSession. cbn [TwoBack.blockResults]. now rewrite Hr. }
  assert (TwoBack.moveToNextSession before
          = TwoBack.mkProgress 2 2 performances false [reported]) as Hmove.
  { unfold TwoBack.moveToNextSession. rewrite Hs, Hb, Hr, Hc. reflexivity. }
  repeat split; try assumption.
  - subst after. unfold TwoBack.closeSession. now rewrite Hmove.
  - subst after. unfold TwoBack.closeSession. now rewrite Hmove.
  - subst stored reported. rewrite Hafter. unfold TwoBack.calculateFinalResults.
    rewrite fold_addBlock_snoc. reflexivity.
  - subst stored reported. rewrite Hafter. unfold TwoBack.calculateFinalResults.
    rewrite fold_addBlock_snoc. reflexivity.
  - subst stored reported. rewrite Hafter. unfold TwoBack.calculateFinalResults.
    rewrite fold_addBlock_snoc. reflexivity.
  - subst stored reported. rewrite Hafter. unfold TwoBack.calculateFinalResults.
    rewrite fold_addBlock_snoc. reflexivity.
  - subst stored reported. rewrite Hafter. unfold TwoBack.calculateFinalResults.
    rewrite fold_addBlock_snoc. reflexivity.
Qed.

(** Eight sessions and a ninth: the results handed over hold eight. *)
Lemma ninth_session_is_left_out_witness :
  length Scenarios.eightSessions = 8 /\
  TwoBack.completed
    (TwoBack.closeSession Scenarios.ninthSession
       (fold_left (fun p b => TwoBack.closeSession b p) Scenarios.eightSessions
          TwoBack.initialProgress))
  = [TwoBack.calculateFinalResults Scenarios.eightSessions].
Proof.
  assert (length Scenarios.eightSessions = 8) as Hlen by reflexivity.
  split; [exact Hlen|].
  destruct (ninth_session_is_left_out Scenarios.eightSessions Scenarios.ninthSession Hlen)
    as (_ & _ & _ & _ & _ & _ & _ & Hcompleted & _).
  exact Hcompleted.
Defined.

(** ** The page *)

Lemma debug_reachable_step st ev :
  DebugControls.reachable st -> DebugControls.reachable (DebugControls.step st ev).
Proof.
  intros [evs ->]. exists (evs ++ [ev]). unfold DebugControls.run.
  now rewrite fold_left_app.
Qed.

Lemma PageInv_step (p : Index.State) (ev : Index.Event) :
  PageInv p -> PageInv (Index.step p ev).
Proof.
  intros HI. unfold PageInv in HI. unfold Index.step.
  destruct p as [ph res mnt]. cbn [Index.phase Index.results Index.mounted] in HI.
  destruct ev as [|ev|]; destruct ph; cbn [Index.handle Index.phase Index.mounted Index.results].
  - destruct HI as [-> ->]. unfold PageInv. simpl. split; [reflexivity|].
    exists ExperimentTask.initialState. split; [reflexivity|]. split; [|reflexivity].
    exists []. reflexivity.
  - destruct HI as (-> & st & -> & Hreach & Hc). unfold PageInv. simpl.
    split; [reflexivity|]. exists st. auto.
  - destruct HI as (-> & r & -> & Hr). unfold PageInv. simpl.
    split; [reflexivity|]. exists r. auto.
  - destruct HI as [-> ->]. unfold PageInv. simpl. auto.
  - destruct HI as (-> & st & -> & Hreach & Hc).
    pose proof (debug_reachable_step st ev Hreach) as Hreach'.
    unfold Index.handedOver. rewrite Hc. cbn [length]. rewrite drop_0.
    destruct (ExperimentTask.completed (DebugControls.step st ev)) as [|r more] eqn:Hc'.
    + unfold PageInv. simpl. split; [reflexivity|].
      exists (DebugControls.step st ev). auto.
    + unfold PageInv. simpl. split; [reflexivity|]. exists r. split; [reflexivity|].
      apply debug_reachable_Inv in Hreach' as [_ HI2].
      pose proof (inv_consistent _ HI2) as Hall. rewrite Hc' in Hall.
      now inversion Hall.
  - destruct HI as (-> & r & -> & Hr). unfold PageInv. simpl.
    split; [reflexivity|]. exists r. auto.
  - destruct HI as [-> ->]. unfold PageInv. simpl. auto.
  - destruct HI as (-> & st & -> & Hreach & Hc). unfold PageInv. simpl.
    split; [reflexivity|]. exists st. auto.
  - destruct HI as (-> & r & -> & Hr). unfold PageInv. simpl. auto.
Qed.

Lemma PageInv_run (evs : list Index.Event) : forall p : Index.State,
  PageInv p -> PageInv (Index.run p evs).
Proof.
  induction evs as [|ev evs IH]; intros p HI; [exact HI|].
  simpl. apply IH. now apply PageInv_step.
Qed.

Lemma PageInv_initial : PageInv Index.initialState.
Proof. split; reflexivity. Qed.

Lemma consistent_totals (r : Results) :
  consistent r ->
  r_totalNBackMatches r = r_nBackCorrect r + r_nBackMissed r /\
  r_totalPMCues r = r_pmCueCorrect r + r_pmCueMissed r.
Proof.
  intros [Hr Hbal]. set (sums := calculateFinalResults (r_sessionResults r)) in *.
  destruct (balanced_final (r_sessionResults r) Hbal) as [Hn Hp]. fold sums in Hn, Hp.
  assert (r_totalNBackMatches r = r_totalNBackMatches sums) as Ht1.
  { rewrite Hr at 1. unfold withAccuracies. cbn [r_totalNBackMatches].
    rewrite <- Hn. apply fixTotal_balanced. }
  assert (r_totalPMCues r = r_totalPMCues sums) as Ht2.
  { rewrite Hr at 1. unfold withAccuracies. cbn [r_totalPMCues].
    rewrite <- Hp. apply fixTotal_balanced. }
  assert (r_nBackCorrect r = r_nBackCorrect sums) as E1 by (rewrite Hr at 1; reflexivity).
  assert (r_nBackMissed r = r_nBackMissed sums) as E2 by (rewrite Hr at 1; reflexivity).
  assert (r_pmCueCorrect r = r_pmCueCorrect sums) as E3 by (rewrite Hr at 1; reflexivity).
  assert (r_pmCueMissed r = r_pmCueMissed sums) as E4 by (rewrite Hr at 1; reflexivity).
  split; lia.
Qed.

(** X28. Whatever was clicked and whatever happened in the task, the page
    has the task mounted exactly in the phase ['task'], and a mounted task
    has not called [onComplete] and is active; outside the phase ['results']
    the page holds the placeholder results; in the phase ['results'] it
    holds results the task handed over, which are the sums of their own
    breakdown with the accuracy strings of those sums.  [Try Again] followed
    by [Start] mounts a task in its initial state. *)
Theorem page_shows_what_the_task_handed_over (evs : list Index.Event) :
  let p := Index.run Index.initialState evs in
  (Index.phase p = Index.phaseTask <-> is_Some (Index.mounted p)) /\
  (forall st : ExperimentTask.State, Index.mounted p = Some st ->
     DebugControls.reachable st /\ ExperimentTask.completed st = [] /\
     ExperimentTask.isExperimentActive st = true) /\
  (Index.phase p <> Index.phaseResults -> Index.results p = Index.placeholder) /\
  (Index.phase p = Index.phaseResults ->
     exists r : Results,
       Index.results p = Index.handed r /\
       r = withAccuracies (calculateFinalResults (r_sessionResults r)) /\
       r_totalNBackMatches r = r_nBackCorrect r + r_nBackMissed r /\
       r_totalPMCues r = r_pmCueCorrect r + r_pmCueMissed r /\
       Index.run p [Index.ClickTryAgain; Index.ClickStart]
       = Index.mkState Index.phaseTask Index.placeholder (Some ExperimentTask.initialState)).
Proof.
  intros p. pose proof (PageInv_run evs _ PageInv_initial) as HI. fold p in HI.
  unfold PageInv in HI. destruct p as [ph res mnt].
  cbn [Index.phase Index.results Index.mounted] in *.
  destruct ph.
  - destruct HI as [-> ->]. repeat split; try discriminate.
    + intros [? ?]; discriminate.
  - destruct HI as (-> & st & -> & Hreach & Hc). split; [|split; [|split]].
    + split; [eauto|reflexivity].
    + intros st0 [= <-]. split; [exact Hreach|]. split; [exact Hc|].
      apply debug_reachable_Inv in Hreach as [_ HI2]. now apply (inv_active _ HI2).
    + reflexivity.
    + discriminate.
  - destruct HI as (-> & r & -> & Hcons & Hbal). split; [|split; [|split]].
    + split; [discriminate|intros [? ?]; discriminate].
    + discriminate.
    + congruence.
    + intros _. exists r. split; [reflexivity|]. split; [exact Hcons|].
      destruct (consistent_totals r (conj Hcons Hbal)) as [H1 H2].
      split; [exact H1|]. split; [exact H2|reflexivity].
Qed.
